(** * Istanbul consensus: configuration resolver, proposer policy and
      protocol envelope types

    A shallow embedding of [consensus/istanbul/config.go],
    [consensus/istanbul/types.go] and the [params.Transition] record they
    read, with the properties of the resolver, of the proposer-policy
    registry, of [View.Cmp] and of the wire encoding of the envelopes. *)

From Stdlib Require Import ZArith List String Bool Lia Sorted Permutation FinFun.
From Stdlib.Strings Require Import Byte.
Import ListNotations.
Open Scope Z_scope.

(** ** Results of calls that may fail *)

(** A call either returns a value or fails with an error of type [E]. *)
Inductive result (E A : Type) : Type :=
| Ok (a : A)
| Err (e : E).
Arguments Ok {E A} a.
Arguments Err {E A} e.

Definition bind {E A B : Type} (m : result E A) (k : A -> result E B)
  : result E B :=
  match m with
  | Ok a => k a
  | Err e => Err e
  end.

Notation "x <- m ;; k" := (bind m (fun x => k))
  (at level 61, m at next level, right associativity).
Notation "' p <- m ;; k" := (bind m (fun x => let p := x in k))
  (at level 61, p pattern, m at next level, right associativity).

(** A Go call that panics at run time; the only panic of this code is the
    dereference of a nil pointer.  A panic propagates through sequencing. *)
Inductive panic : Type := nil_dereference.
Abbreviation Panic := (Err nil_dereference).
Definition go (A : Type) : Type := result panic A.

(** ** Go's [math/big] and fixed-width integers *)

Module big.

(** A [big.Int] value is an arbitrary-precision integer; a [*big.Int] is a
    pointer that may be nil. *)
Definition Int := Z.
Definition ptr := option Int.

Definition NewInt (x : Z) : ptr := Some x.

(** [x.Cmp(y)]: the standard library first tests the two pointers for
    identity (so two nil pointers compare equal) and otherwise reads the
    sign and magnitude of both operands, which panics when exactly one of
    them is nil.  The result is -1, 0 or +1. *)
Definition Cmp (x y : ptr) : go Z :=
  match x, y with
  | None, None => Ok 0
  | Some a, Some b =>
      Ok (match a ?= b with Lt => -1 | Eq => 0 | Gt => 1 end)
  | _, _ => Panic
  end.

End big.

(** [uint64] arithmetic wraps around. *)
Definition uint64_mul (a b : Z) : Z := (a * b) mod 2 ^ 64.

Module common.
(** [common.Address] is a 20-byte array, [common.Hash] a 32-byte array. *)
Definition Address := list byte.
Definition Hash := list byte.
Definition HashLength : nat := 32.
End common.

(** ** [params.Transition] *)

Module params.

Definition ContractMode : string := "contract".
Definition BlockHeaderMode : string := "blockheader".

Record Transition : Type := {
  Block : big.ptr;
  EpochLength : Z;
  BlockPeriodSeconds : Z;
  EmptyBlockPeriodSeconds : option Z;
  RequestTimeoutSeconds : Z;
  ContractSizeLimit : Z;
  Validators : list common.Address;
  ValidatorSelectionMode : string;
  EnhancedPermissioningEnabled : option bool;
  PrivacyEnhancementsEnabled : option bool;
  PrivacyPrecompileEnabled : option bool;
  GasPriceEnabled : option bool;
  MinerGasLimit : Z;
  TwoFPlusOneEnabled : option bool;
  TransactionSizeLimit : Z;
  BlockReward : option Z;
  BeneficiaryMode : option string;
  MiningBeneficiary : option common.Address;
  MaxRequestTimeoutSeconds : option Z
}.

End params.

(** ** [istanbul.Config] and the transition resolver *)

(** The [ProposerPolicy] pointer and the [Client] interface value stored in
    a [Config] are only copied by the resolver; they are kept as opaque
    references. *)
Definition PolicyRef := nat.
Definition ClientRef := nat.

Record Config : Type := {
  RequestTimeout : Z;
  BlockPeriod : Z;
  EmptyBlockPeriod : Z;
  ProposerPolicy : option PolicyRef;
  Epoch : Z;
  Ceil2Nby3Block : big.ptr;
  AllowedFutureBlockTime : Z;
  BeneficiaryMode : option string;
  BlockReward : option Z;
  MiningBeneficiary : option common.Address;
  Validators : list common.Address;
  ValidatorSelectionMode : option string;
  Client : option ClientRef;
  MaxRequestTimeoutSeconds : Z;
  Transitions : list params.Transition
}.

(** Field assignments [newConfig.F = v]. *)
Definition set_RequestTimeout (v : Z) (c : Config) : Config :=
  {| RequestTimeout := v; BlockPeriod := BlockPeriod c;
     EmptyBlockPeriod := EmptyBlockPeriod c;
     ProposerPolicy := ProposerPolicy c; Epoch := Epoch c;
     Ceil2Nby3Block := Ceil2Nby3Block c;
     AllowedFutureBlockTime := AllowedFutureBlockTime c;
     BeneficiaryMode := BeneficiaryMode c; BlockReward := BlockReward c;
     MiningBeneficiary := MiningBeneficiary c; Validators := Validators c;
     ValidatorSelectionMode := ValidatorSelectionMode c; Client := Client c;
     MaxRequestTimeoutSeconds := MaxRequestTimeoutSeconds c;
     Transitions := Transitions c |}.

Definition set_BlockPeriod (v : Z) (c : Config) : Config :=
  {| RequestTimeout := RequestTimeout c; BlockPeriod := v;
     EmptyBlockPeriod := EmptyBlockPeriod c;
     ProposerPolicy := ProposerPolicy c; Epoch := Epoch c;
     Ceil2Nby3Block := Ceil2Nby3Block c;
     AllowedFutureBlockTime := AllowedFutureBlockTime c;
     BeneficiaryMode := BeneficiaryMode c; BlockReward := BlockReward c;
     MiningBeneficiary := MiningBeneficiary c; Validators := Validators c;
     ValidatorSelectionMode := ValidatorSelectionMode c; Client := Client c;
     MaxRequestTimeoutSeconds := MaxRequestTimeoutSeconds c;
     Transitions := Transitions c |}.

Definition set_EmptyBlockPeriod (v : Z) (c : Config) : Config :=
  {| RequestTimeout := RequestTimeout c; BlockPeriod := BlockPeriod c;
     EmptyBlockPeriod := v;
     ProposerPolicy := ProposerPolicy c; Epoch := Epoch c;
     Ceil2Nby3Block := Ceil2Nby3Block c;
     AllowedFutureBlockTime := AllowedFutureBlockTime c;
     BeneficiaryMode := BeneficiaryMode c; BlockReward := BlockReward c;
     MiningBeneficiary := MiningBeneficiary c; Validators := Validators c;
     ValidatorSelectionMode := ValidatorSelectionMode c; Client := Client c;
     MaxRequestTimeoutSeconds := MaxRequestTimeoutSeconds c;
     Transitions := Transitions c |}.

Definition set_Epoch (v : Z) (c : Config) : Config :=
  {| RequestTimeout := RequestTimeout c; BlockPeriod := BlockPeriod c;
     EmptyBlockPeriod := EmptyBlockPeriod c;
     ProposerPolicy := ProposerPolicy c; Epoch := v;
     Ceil2Nby3Block := Ceil2Nby3Block c;
     AllowedFutureBlockTime := AllowedFutureBlockTime c;
     BeneficiaryMode := BeneficiaryMode c; BlockReward := BlockReward c;
     MiningBeneficiary := MiningBeneficiary c; Validators := Validators c;
     ValidatorSelectionMode := ValidatorSelectionMode c; Client := Client c;
     MaxRequestTimeoutSeconds := MaxRequestTimeoutSeconds c;
     Transitions := Transitions c |}.

Definition set_BeneficiaryMode (v : option string) (c : Config) : Config :=
  {| RequestTimeout := RequestTimeout c; BlockPeriod := BlockPeriod c;
     EmptyBlockPeriod := EmptyBlockPeriod c;
     ProposerPolicy := ProposerPolicy c; Epoch := Epoch c;
     Ceil2Nby3Block := Ceil2Nby3Block c;
     AllowedFutureBlockTime := AllowedFutureBlockTime c;
     BeneficiaryMode := v; BlockReward := BlockReward c;
     MiningBeneficiary := MiningBeneficiary c; Validators := Validators c;
     ValidatorSelectionMode := ValidatorSelectionMode c; Client := Client c;
     MaxRequestTimeoutSeconds := MaxRequestTimeoutSeconds c;
     Transitions := Transitions c |}.

Definition set_BlockReward (v : option Z) (c : Config) : Config :=
  {| RequestTimeout := RequestTimeout c; BlockPeriod := BlockPeriod c;
     EmptyBlockPeriod := EmptyBlockPeriod c;
     ProposerPolicy := ProposerPolicy c; Epoch := Epoch c;
     Ceil2Nby3Block := Ceil2Nby3Block c;
     AllowedFutureBlockTime := AllowedFutureBlockTime c;
     BeneficiaryMode := BeneficiaryMode c; BlockReward := v;
     MiningBeneficiary := MiningBeneficiary c; Validators := Validators c;
     ValidatorSelectionMode := ValidatorSelectionMode c; Client := Client c;
     MaxRequestTimeoutSeconds := MaxRequestTimeoutSeconds c;
     Transitions := Transitions c |}.

Definition set_MiningBeneficiary (v : option common.Address) (c : Config)
  : Config :=
  {| RequestTimeout := RequestTimeout c; BlockPeriod := BlockPeriod c;
     EmptyBlockPeriod := EmptyBlockPeriod c;
     ProposerPolicy := ProposerPolicy c; Epoch := Epoch c;
     Ceil2Nby3Block := Ceil2Nby3Block c;
     AllowedFutureBlockTime := AllowedFutureBlockTime c;
     BeneficiaryMode := BeneficiaryMode c; BlockReward := BlockReward c;
     MiningBeneficiary := v; Validators := Validators c;
     ValidatorSelectionMode := ValidatorSelectionMode c; Client := Client c;
     MaxRequestTimeoutSeconds := MaxRequestTimeoutSeconds c;
     Transitions := Transitions c |}.

Definition set_Validators (v : list common.Address) (c : Config) : Config :=
  {| RequestTimeout := RequestTimeout c; BlockPeriod := BlockPeriod c;
     EmptyBlockPeriod := EmptyBlockPeriod c;
     ProposerPolicy := ProposerPolicy c; Epoch := Epoch c;
     Ceil2Nby3Block := Ceil2Nby3Block c;
     AllowedFutureBlockTime := AllowedFutureBlockTime c;
     BeneficiaryMode := BeneficiaryMode c; BlockReward := BlockReward c;
     MiningBeneficiary := MiningBeneficiary c; Validators := v;
     ValidatorSelectionMode := ValidatorSelectionMode c; Client := Client c;
     MaxRequestTimeoutSeconds := MaxRequestTimeoutSeconds c;
     Transitions := Transitions c |}.

Definition set_ValidatorSelectionMode (v : option string) (c : Config)
  : Config :=
  {| RequestTimeout := RequestTimeout c; BlockPeriod := BlockPeriod c;
     EmptyBlockPeriod := EmptyBlockPeriod c;
     ProposerPolicy := ProposerPolicy c; Epoch := Epoch c;
     Ceil2Nby3Block := Ceil2Nby3Block c;
     AllowedFutureBlockTime := AllowedFutureBlockTime c;
     BeneficiaryMode := BeneficiaryMode c; BlockReward := BlockReward c;
     MiningBeneficiary := MiningBeneficiary c; Validators := Validators c;
     ValidatorSelectionMode := v; Client := Client c;
     MaxRequestTimeoutSeconds := MaxRequestTimeoutSeconds c;
     Transitions := Transitions c |}.

Definition set_MaxRequestTimeoutSeconds (v : Z) (c : Config) : Config :=
  {| RequestTimeout := RequestTimeout c; BlockPeriod := BlockPeriod c;
     EmptyBlockPeriod := EmptyBlockPeriod c;
     ProposerPolicy := ProposerPolicy c; Epoch := Epoch c;
     Ceil2Nby3Block := Ceil2Nby3Block c;
     AllowedFutureBlockTime := AllowedFutureBlockTime c;
     BeneficiaryMode := BeneficiaryMode c; BlockReward := BlockReward c;
     MiningBeneficiary := MiningBeneficiary c; Validators := Validators c;
     ValidatorSelectionMode := ValidatorSelectionMode c; Client := Client c;
     MaxRequestTimeoutSeconds := v;
     Transitions := Transitions c |}.

(** [len(s) > 0] and [s != ""]. *)
Definition nonempty {A : Type} (l : list A) : bool :=
  match l with [] => false | _ :: _ => true end.

Definition nonempty_string (s : string) : bool :=
  match s with EmptyString => false | String _ _ => true end.

(** The loop of [getTransitionValue]:
    [for i := 0; i < len(ts) && ts[i].Block.Cmp(num) <= 0; i++ { callback(ts[i]) }].
    The callbacks of this package are closures that assign to a captured
    variable; the captured variable is threaded through as [acc]. *)
Fixpoint transition_loop {A : Type} (ts : list params.Transition) (num : big.ptr)
    (callback : params.Transition -> A -> A) (acc : A) : go A :=
  match ts with
  | [] => Ok acc
  | t :: rest =>
      r <- big.Cmp (params.Block t) num ;;
      if r <=? 0 then transition_loop rest num callback (callback t acc)
      else Ok acc
  end.

(** [func (c *Config) getTransitionValue(num, callback)]: nothing is done
    for a nil receiver, a nil height or a nil transition slice (a nil slice
    and an empty one are both the empty list: the loop runs zero times on
    either). *)
Definition getTransitionValue {A : Type} (c : option Config) (num : big.ptr)
    (callback : params.Transition -> A -> A) (acc : A) : go A :=
  match c, num with
  | Some c, Some _ => transition_loop (Transitions c) num callback acc
  | _, _ => Ok acc
  end.

(** The closure passed by [GetConfig]. *)
Definition GetConfig_callback (transition : params.Transition)
    (newConfig : Config) : Config :=
  let newConfig :=
    if negb (params.RequestTimeoutSeconds transition =? 0)
    then set_RequestTimeout
           (uint64_mul (params.RequestTimeoutSeconds transition) 1000) newConfig
    else newConfig in
  let newConfig :=
    if negb (params.EpochLength transition =? 0)
    then set_Epoch (params.EpochLength transition) newConfig
    else newConfig in
  let newConfig :=
    if negb (params.BlockPeriodSeconds transition =? 0)
    then set_BlockPeriod (params.BlockPeriodSeconds transition) newConfig
    else newConfig in
  let newConfig :=
    match params.EmptyBlockPeriodSeconds transition with
    | Some v => set_EmptyBlockPeriod v newConfig
    | None => newConfig
    end in
  let newConfig :=
    match params.BeneficiaryMode transition with
    | Some v => set_BeneficiaryMode (Some v) newConfig
    | None => newConfig
    end in
  let newConfig :=
    match params.BlockReward transition with
    | Some v => set_BlockReward (Some v) newConfig
    | None => newConfig
    end in
  let newConfig :=
    match params.MiningBeneficiary transition with
    | Some v => set_MiningBeneficiary (Some v) newConfig
    | None => newConfig
    end in
  let newConfig :=
    if nonempty_string (params.ValidatorSelectionMode transition)
    then set_ValidatorSelectionMode
           (Some (params.ValidatorSelectionMode transition)) newConfig
    else newConfig in
  let newConfig :=
    if nonempty (params.Validators transition)
    then set_Validators (params.Validators transition) newConfig
    else newConfig in
  let newConfig :=
    match params.MaxRequestTimeoutSeconds transition with
    | Some v => set_MaxRequestTimeoutSeconds v newConfig
    | None => newConfig
    end in
  newConfig.

Definition GetConfig (c : Config) (blockNumber : big.ptr) : go Config :=
  getTransitionValue (Some c) blockNumber GetConfig_callback c.

Definition GetValidatorSelectionMode (c : Config) (blockNumber : big.ptr)
  : go string :=
  let mode := params.BlockHeaderMode in
  let mode :=
    match ValidatorSelectionMode c with
    | Some m => m
    | None => mode
    end in
  getTransitionValue (Some c) blockNumber
    (fun transition mode =>
       if nonempty_string (params.ValidatorSelectionMode transition)
       then params.ValidatorSelectionMode transition
       else mode)
    mode.

(** The loop of [GetValidatorsAt]: its body returns, so the increment is
    never reached and only index 0 is ever examined. *)
Definition GetValidatorsAt_loop (ts : list params.Transition)
    (blockNumber : big.ptr) : go (list common.Address) :=
  match ts with
  | [] => Ok []
  | t :: _ =>
      r <- big.Cmp (params.Block t) blockNumber ;;
      if r =? 0 then Ok (params.Validators t) else Ok []
  end.

Definition GetValidatorsAt (c : Config) (blockNumber : big.ptr)
  : go (list common.Address) :=
  r <- big.Cmp blockNumber (big.NewInt 0) ;;
  if (r =? 0) && nonempty (Validators c) then Ok (Validators c)
  else
    match blockNumber with
    | Some _ => GetValidatorsAt_loop (Transitions c) blockNumber
    | None => Ok []
    end.

Definition Get2FPlus1Enabled (c : Config) (blockNumber : big.ptr)
  : go bool :=
  getTransitionValue (Some c) blockNumber
    (fun transition twoFPlusOneEnabled =>
       match params.TwoFPlusOneEnabled transition with
       | Some b => b
       | None => twoFPlusOneEnabled
       end)
    false.

(** ** What the specification says about the resolver *)

(** The transitions are stored in ascending block-height order: every
    [Block] is set and the heights never decrease along the list. *)
Definition height_le (t1 t2 : params.Transition) : Prop :=
  match params.Block t1, params.Block t2 with
  | Some a, Some b => a <= b
  | _, _ => False
  end.

Definition ascending (ts : list params.Transition) : Prop :=
  Forall (fun t => params.Block t <> None) ts /\ Sorted height_le ts.

(** A transition applies at height [h] when its height is at most [h]. *)
Definition applies_at (h : Z) (t : params.Transition) : bool :=
  match params.Block t with
  | Some b => b <=? h
  | None => false
  end.

(** The per-field merge in the words of the specification: a field of the
    result is the transition's value when the transition carries one, and
    the previously folded value otherwise; the fields no transition can
    carry are inherited. *)
Definition overlay (cfg : Config) (t : params.Transition) : Config :=
  {| RequestTimeout :=
       if params.RequestTimeoutSeconds t =? 0 then RequestTimeout cfg
       else uint64_mul (params.RequestTimeoutSeconds t) 1000;
     BlockPeriod :=
       if params.BlockPeriodSeconds t =? 0 then BlockPeriod cfg
       else params.BlockPeriodSeconds t;
     EmptyBlockPeriod :=
       match params.EmptyBlockPeriodSeconds t with
       | Some v => v
       | None => EmptyBlockPeriod cfg
       end;
     ProposerPolicy := ProposerPolicy cfg;
     Epoch :=
       if params.EpochLength t =? 0 then Epoch cfg else params.EpochLength t;
     Ceil2Nby3Block := Ceil2Nby3Block cfg;
     AllowedFutureBlockTime := AllowedFutureBlockTime cfg;
     BeneficiaryMode :=
       match params.BeneficiaryMode t with
       | Some v => Some v
       | None => BeneficiaryMode cfg
       end;
     BlockReward :=
       match params.BlockReward t with
       | Some v => Some v
       | None => BlockReward cfg
       end;
     MiningBeneficiary :=
       match params.MiningBeneficiary t with
       | Some v => Some v
       | None => MiningBeneficiary cfg
       end;
     Validators :=
       match params.Validators t with
       | [] => Validators cfg
       | _ :: _ => params.Validators t
       end;
     ValidatorSelectionMode :=
       match params.ValidatorSelectionMode t with
       | EmptyString => ValidatorSelectionMode cfg
       | String _ _ => Some (params.ValidatorSelectionMode t)
       end;
     Client := Client cfg;
     MaxRequestTimeoutSeconds :=
       match params.MaxRequestTimeoutSeconds t with
       | Some v => v
       | None => MaxRequestTimeoutSeconds cfg
       end;
     Transitions := Transitions cfg |}.

(** The effective configuration at height [h]: the left-to-right fold of
    [overlay] over the transitions that apply at [h], from the base. *)
Definition effective_config (c : Config) (h : Z) : Config :=
  fold_left overlay (filter (applies_at h) (Transitions c)) c.

(** The flag of the last transition at or below [h] that carries a
    [TwoFPlusOneEnabled] value, [false] when there is none. *)
Definition carries_2FPlus1 (h : Z) (t : params.Transition) : bool :=
  applies_at h t &&
  match params.TwoFPlusOneEnabled t with Some _ => true | None => false end.

Definition flag_of (t : params.Transition) : bool :=
  match params.TwoFPlusOneEnabled t with Some b => b | None => false end.

Definition last_2FPlus1 (c : Config) (h : Z) : bool :=
  last (map flag_of (filter (carries_2FPlus1 h) (Transitions c))) false.

(** The validator list at a height as the claim reads: the base list at
    height 0 when it is not empty, the first transition's list at a
    positive height equal to that transition's height, and the empty list
    in every other case. *)
Definition first_entry_validators (c : Config) (h : Z) : list common.Address :=
  match Transitions c with
  | [] => []
  | t :: _ =>
      match params.Block t with
      | Some b => if b =? h then params.Validators t else []
      | None => []
      end
  end.

Definition validators_as_claimed (c : Config) (h : Z) : list common.Address :=
  if (h =? 0) && nonempty (Validators c) then Validators c
  else if 0 <? h then first_entry_validators c h
  else [].

(** The same with the first-entry rule applied at every height that does
    not take the base list. *)
Definition validators_amended (c : Config) (h : Z) : list common.Address :=
  if (h =? 0) && nonempty (Validators c) then Validators c
  else first_entry_validators c h.

(** Configurations of the scenarios. *)
Definition base_config (ts : list params.Transition) : Config :=
  {| RequestTimeout := 10000; BlockPeriod := 0; EmptyBlockPeriod := 0;
     ProposerPolicy := None; Epoch := 30000; Ceil2Nby3Block := None;
     AllowedFutureBlockTime := 0; BeneficiaryMode := None;
     BlockReward := None; MiningBeneficiary := None; Validators := [];
     ValidatorSelectionMode := None; Client := None;
     MaxRequestTimeoutSeconds := 0; Transitions := ts |}.

Definition with_timeout (b secs : Z) : params.Transition :=
  {| params.Block := Some b; params.EpochLength := 0;
     params.BlockPeriodSeconds := 0;
     params.EmptyBlockPeriodSeconds := None;
     params.RequestTimeoutSeconds := secs;
     params.ContractSizeLimit := 0; params.Validators := [];
     params.ValidatorSelectionMode := EmptyString;
     params.EnhancedPermissioningEnabled := None;
     params.PrivacyEnhancementsEnabled := None;
     params.PrivacyPrecompileEnabled := None; params.GasPriceEnabled := None;
     params.MinerGasLimit := 0; params.TwoFPlusOneEnabled := None;
     params.TransactionSizeLimit := 0; params.BlockReward := None;
     params.BeneficiaryMode := None; params.MiningBeneficiary := None;
     params.MaxRequestTimeoutSeconds := None |}.

Definition with_validators (b : Z) (vs : list common.Address)
  : params.Transition :=
  {| params.Block := Some b; params.EpochLength := 0;
     params.BlockPeriodSeconds := 0;
     params.EmptyBlockPeriodSeconds := None;
     params.RequestTimeoutSeconds := 0;
     params.ContractSizeLimit := 0; params.Validators := vs;
     params.ValidatorSelectionMode := EmptyString;
     params.EnhancedPermissioningEnabled := None;
     params.PrivacyEnhancementsEnabled := None;
     params.PrivacyPrecompileEnabled := None; params.GasPriceEnabled := None;
     params.MinerGasLimit := 0; params.TwoFPlusOneEnabled := None;
     params.TransactionSizeLimit := 0; params.BlockReward := None;
     params.BeneficiaryMode := None; params.MiningBeneficiary := None;
     params.MaxRequestTimeoutSeconds := None |}.

Definition with_2FPlus1 (b : Z) (flag : option bool) : params.Transition :=
  {| params.Block := Some b; params.EpochLength := 0;
     params.BlockPeriodSeconds := 0;
     params.EmptyBlockPeriodSeconds := None;
     params.RequestTimeoutSeconds := 0;
     params.ContractSizeLimit := 0; params.Validators := [];
     params.ValidatorSelectionMode := EmptyString;
     params.EnhancedPermissioningEnabled := None;
     params.PrivacyEnhancementsEnabled := None;
     params.PrivacyPrecompileEnabled := None; params.GasPriceEnabled := None;
     params.MinerGasLimit := 0; params.TwoFPlusOneEnabled := flag;
     params.TransactionSizeLimit := 0; params.BlockReward := None;
     params.BeneficiaryMode := None; params.MiningBeneficiary := None;
     params.MaxRequestTimeoutSeconds := None |}.

Definition addr_A : common.Address := repeat x00 19 ++ [x0a].
Definition addr_B : common.Address := repeat x00 19 ++ [x0b].

Definition two_step_config : Config :=
  {| RequestTimeout := 10000; BlockPeriod := 5; EmptyBlockPeriod := 0;
     ProposerPolicy := Some 0%nat; Epoch := 30000; Ceil2Nby3Block := Some 0;
     AllowedFutureBlockTime := 0; BeneficiaryMode := None;
     BlockReward := None; MiningBeneficiary := None; Validators := [addr_A];
     ValidatorSelectionMode := None; Client := None;
     MaxRequestTimeoutSeconds := 0;
     Transitions := [with_timeout 10 5; with_validators 20 [addr_B];
                     with_timeout 30 7] |}.

Definition timeout_scenario : Config := base_config [with_timeout 100 5].

Definition validators_scenario : Config :=
  base_config [with_validators 10 [addr_A]; with_validators 20 [addr_B]].

(** A transition at the genesis height over an empty base list. *)
Definition genesis_transition_config : Config :=
  base_config [with_validators 0 [addr_A]].

Definition flag_scenario : Config :=
  base_config [with_2FPlus1 5 (Some true); with_2FPlus1 8 None;
               with_2FPlus1 12 (Some false)].

(** The request timeout in the words of the specification: the seconds of
    the last applicable transition that sets them, times 1000 in [uint64],
    and the base value when there is none. *)
Definition carries_timeout (h : Z) (t : params.Transition) : bool :=
  applies_at h t && negb (params.RequestTimeoutSeconds t =? 0).

Definition resolved_timeout (c : Config) (h : Z) : Z :=
  last (map (fun t => uint64_mul (params.RequestTimeoutSeconds t) 1000)
            (filter (carries_timeout h) (Transitions c)))
       (RequestTimeout c).

(** The first transition, when there is one, has its height set. *)
Definition first_block_set (c : Config) : Prop :=
  match Transitions c with
  | [] => True
  | t :: _ => params.Block t <> None
  end.

(** ** [ProposerPolicy] and its registry *)

(** The methods of a policy run on a state of type [W]; a call returns a
    value and a new state, or does not return: it panics, blocks for ever
    on a mutex that is held, or dies on the unlock of an unlocked mutex. *)
Inductive fault : Type :=
| Panics (p : panic)
| Blocks
| UnlockOfUnlocked.

Definition M (W A : Type) : Type := W -> result fault (A * W).

Definition ret {W A : Type} (a : A) : M W A := fun w => Ok (a, w).

Definition bindM {W A B : Type} (m : M W A) (k : A -> M W B) : M W B :=
  fun w =>
    match m w with
    | Ok (a, w') => k a w'
    | Err e => Err e
    end.

Notation "m >>= k" := (bindM m k) (at level 58, left associativity).
Notation "m >> n" := (bindM m (fun _ => n)) (at level 58, left associativity).

(** [for _, x := range xs { body(x) }] over the slice value [xs]. *)
Fixpoint for_range {W X : Type} (xs : list X) (body : X -> M W unit)
  : M W unit :=
  match xs with
  | [] => ret tt
  | x :: rest => body x >> for_range rest body
  end.

(** [defer d] followed by [body]: [d] runs when [body] has returned. *)
Definition deferred {W A : Type} (d : M W unit) (body : M W A) : M W A :=
  body >>= fun a => d >> ret a.

Module policy.

Definition ProposerPolicyId : Type := Z.
Definition RoundRobin : ProposerPolicyId := 0.
Definition Sticky : ProposerPolicyId := 1.

(** A [sync.Mutex] is either free or held. *)
Inductive Mutex : Type := Unlocked | Locked.

Section Policy.

(** [Validator] and [ValidatorSet] are interfaces of the package; the
    objects behind the [ValidatorSet] values of a registry live in a store
    of type [Sets]. *)
Variable Validator : Type.
Variable ValidatorSet : Type.
Variable Sets : Type.

Definition ValidatorSortByFunc : Type := Validator -> Validator -> bool.

Record ProposerPolicy : Type := {
  Id : ProposerPolicyId;
  By : ValidatorSortByFunc;
  registry : list ValidatorSet;
  registryMU : option Mutex
}.

(** The method [SortValidators] of the interface: its implementations are
    outside the package.  It may read the policy that tracks the set and
    updates the store of sets. *)
Variable SortValidators : ValidatorSet -> ProposerPolicy -> Sets -> Sets.

Definition NewProposerPolicyByIdAndSortFunc (id : ProposerPolicyId)
    (by_ : ValidatorSortByFunc) : ProposerPolicy :=
  {| Id := id; By := by_; registry := []; registryMU := Some Unlocked |}.

(** What a method does that another goroutine can see or race with. *)
Inductive Event : Type :=
| EvLock
| EvUnlock
| EvRegistryRead
| EvRegistryWrite
| EvSortValidators (vs : ValidatorSet).

Record World : Type := {
  pol : ProposerPolicy;
  sets : Sets;
  events : list Event
}.

Definition emit (e : Event) (w : World) : World :=
  {| pol := pol w; sets := sets w; events := events w ++ [e] |}.

Definition with_pol (p : ProposerPolicy) (w : World) : World :=
  {| pol := p; sets := sets w; events := events w |}.

(** [p.registryMU.Lock()] *)
Definition Lock : M World unit :=
  fun w =>
    match registryMU (pol w) with
    | None => Err (Panics nil_dereference)
    | Some Locked => Err Blocks
    | Some Unlocked =>
        Ok (tt, emit EvLock
                  (with_pol {| Id := Id (pol w); By := By (pol w);
                               registry := registry (pol w);
                               registryMU := Some Locked |} w))
    end.

(** [p.registryMU.Unlock()] *)
Definition Unlock : M World unit :=
  fun w =>
    match registryMU (pol w) with
    | None => Err (Panics nil_dereference)
    | Some Unlocked => Err UnlockOfUnlocked
    | Some Locked =>
        Ok (tt, emit EvUnlock
                  (with_pol {| Id := Id (pol w); By := By (pol w);
                               registry := registry (pol w);
                               registryMU := Some Unlocked |} w))
    end.

(** A read of [p.registry] *)
Definition get_registry : M World (list ValidatorSet) :=
  fun w => Ok (registry (pol w), emit EvRegistryRead w).

(** [p.registry = r] *)
Definition set_registry (r : list ValidatorSet) : M World unit :=
  fun w =>
    Ok (tt, emit EvRegistryWrite
              (with_pol {| Id := Id (pol w); By := By (pol w);
                           registry := r;
                           registryMU := registryMU (pol w) |} w)).

(** [p.By = v] *)
Definition set_By (v : ValidatorSortByFunc) : M World unit :=
  fun w =>
    Ok (tt, with_pol {| Id := Id (pol w); By := v;
                        registry := registry (pol w);
                        registryMU := registryMU (pol w) |} w).

(** [validatorSet.SortValidators()] *)
Definition call_SortValidators (validatorSet : ValidatorSet) : M World unit :=
  fun w =>
    Ok (tt, emit (EvSortValidators validatorSet)
              {| pol := pol w;
                 sets := SortValidators validatorSet (pol w) (sets w);
                 events := events w |}).

Definition Use (v : ValidatorSortByFunc) : M World unit :=
  set_By v >>
  (get_registry >>= fun registry =>
   for_range registry (fun validatorSet => call_SortValidators validatorSet)).

Definition RegisterValidatorSet (valSet : ValidatorSet) : M World unit :=
  Lock >>
  deferred Unlock
    (get_registry >>= fun registry =>
     if (List.length registry =? 0)%nat then set_registry [valSet]
     else get_registry >>= fun registry => set_registry (registry ++ [valSet])).

Definition ClearRegistry : M World unit :=
  Lock >> deferred Unlock (set_registry []).

(** The events a call appends to the log of a state. *)
Definition trace_of (m : M World unit) (w : World) : option (list Event) :=
  match m w with
  | Ok (_, w') => Some (skipn (List.length (events w)) (events w'))
  | Err _ => None
  end.

(** The sets [SortValidators] was called on, in call order. *)
Fixpoint sort_calls (tr : list Event) : list ValidatorSet :=
  match tr with
  | [] => []
  | EvSortValidators vs :: rest => vs :: sort_calls rest
  | _ :: rest => sort_calls rest
  end.

(** Every access to the registry and every re-sort of a registered set in
    a trace happens while the caller holds the registry mutex. *)
Fixpoint under_lock (held : bool) (tr : list Event) : bool :=
  match tr with
  | [] => true
  | EvLock :: rest => under_lock true rest
  | EvUnlock :: rest => under_lock false rest
  | _ :: rest => held && under_lock held rest
  end.

Definition takes_lock (tr : list Event) : bool :=
  existsb (fun e => match e with EvLock => true | _ => false end) tr.

End Policy.

End policy.

(** ** [View] *)

Record View : Type := {
  Round : big.ptr;
  Sequence : big.ptr
}.

(** [func (v *View) Cmp(y *View) int]; reading a field through a nil
    [*View] panics. *)
Definition View_Cmp (v y : option View) : go Z :=
  match v, y with
  | Some v, Some y =>
      r <- big.Cmp (Sequence v) (Sequence y) ;;
      if negb (r =? 0) then big.Cmp (Sequence v) (Sequence y)
      else
        r <- big.Cmp (Round v) (Round y) ;;
        if negb (r =? 0) then big.Cmp (Round v) (Round y)
        else Ok 0
  | _, _ => Panic
  end.

(** The view with both fields set. *)
Definition view (round sequence : Z) : View :=
  {| Round := Some round; Sequence := Some sequence |}.

(** The order of the specification: sequence first, then round. *)
Definition view_lt (r1 s1 r2 s2 : Z) : Prop :=
  s1 < s2 \/ (s1 = s2 /\ r1 < r2).

Arguments policy.Use {Validator ValidatorSet Sets} SortValidators v _.
Arguments policy.RegisterValidatorSet {Validator ValidatorSet Sets} valSet _.
Arguments policy.ClearRegistry {Validator ValidatorSet Sets} _.
Arguments policy.call_SortValidators {Validator ValidatorSet Sets}
  SortValidators validatorSet _.
Arguments policy.trace_of {Validator ValidatorSet Sets} m w.
Arguments policy.sort_calls {ValidatorSet} tr.
Arguments policy.under_lock {ValidatorSet} held tr.
Arguments policy.takes_lock {ValidatorSet} tr.
Arguments policy.Build_World {Validator ValidatorSet Sets} pol sets events.
Arguments policy.Build_ProposerPolicy {Validator ValidatorSet} Id By registry
  registryMU.
Arguments policy.pol {Validator ValidatorSet Sets} w.
Arguments policy.sets {Validator ValidatorSet Sets} w.
Arguments policy.events {Validator ValidatorSet Sets} w.
Arguments policy.Id {Validator ValidatorSet} p.
Arguments policy.By {Validator ValidatorSet} p.
Arguments policy.registry {Validator ValidatorSet} p.
Arguments policy.registryMU {Validator ValidatorSet} p.
Arguments policy.EvLock {ValidatorSet}.
Arguments policy.EvUnlock {ValidatorSet}.
Arguments policy.EvRegistryRead {ValidatorSet}.
Arguments policy.EvRegistryWrite {ValidatorSet}.
Arguments policy.EvSortValidators {ValidatorSet} vs.

(** ** The RLP wire format *)

Module rlp.

(** Package [rlp] ([rlp.Encode], [rlp.Stream]) is not among the sources.
    The specification asks for a wire encoding of ordered-field records
    whose decoder rejects malformed or truncated input with an error and
    whose accepted inputs re-encode byte for byte, and the sources name
    the format: Ethereum RLP.  The definitions of this module are that
    format: a byte string is a single byte below 0x80, or a length header
    from 0x80 and the bytes; a list is a length header from 0xC0 and the
    concatenated items; lengths of 56 and more are written big-endian after
    a header byte that counts their bytes; integers are big-endian byte
    strings without leading zero. *)

(** Modelled from the spec: the decode errors of package [rlp]. *)
Inductive error : Type :=
| EOF
| ErrUnexpectedEOF
| ErrExpectedString
| ErrExpectedList
| ErrCanonInt
| ErrCanonSize
| ErrValueTooLarge
| ErrTooFewElements
| ErrTooManyElements
| ErrStringTooShort
| ErrStringTooLong
| ErrNegativeBigInt.

(** Modelled from the spec: [rlp.Stream], the input still to be read. *)
Definition Stream : Type := list byte.

(** Modelled from the spec: a byte as an integer below 256. *)
Definition byte_to_Z (b : byte) : Z := Z.of_N (Byte.to_N b).

(** Modelled from the spec: the conversion [byte(z)], which keeps the
    low eight bits. *)
Definition byte_of_Z (z : Z) : byte :=
  match Byte.of_N (Z.to_N (z mod 256)) with
  | Some b => b
  | None => x00
  end.

(** Modelled from the spec: [len(bs)] as an integer. *)
Definition len (bs : list byte) : Z := Z.of_nat (List.length bs).

(** Modelled from the spec: the base-256 digits of [z], least significant
    first. *)
Fixpoint le_bytes (fuel : nat) (z : Z) : list byte :=
  match fuel with
  | O => []
  | S fuel' =>
      if z <=? 0 then []
      else byte_of_Z (z mod 256) :: le_bytes fuel' (z / 256)
  end.

(** Modelled from the spec: the minimal big-endian bytes of a
    non-negative integer (none for 0). *)
Definition putint (z : Z) : list byte :=
  rev (le_bytes (S (Z.to_nat (Z.log2 z))) z).

(** Modelled from the spec: the integer a big-endian byte string
    denotes. *)
Definition be_value (bs : list byte) : Z :=
  fold_left (fun acc b => acc * 256 + byte_to_Z b) bs 0.

(** Modelled from the spec: the header of a value of [size] bytes;
    [offset] is 0x80 for a string and 0xC0 for a list. *)
Definition head (offset size : Z) : list byte :=
  if size <? 56 then [byte_of_Z (offset + size)]
  else
    let sizebytes := putint size in
    byte_of_Z (offset + 55 + len sizebytes) :: sizebytes.

(** Modelled from the spec: a byte string on the wire. *)
Definition encode_string (b : list byte) : list byte :=
  match b with
  | [c] => if byte_to_Z c <? 128 then [c] else head 128 1 ++ b
  | _ => head 128 (len b) ++ b
  end.

(** Modelled from the spec: a list on the wire, from the concatenation
    of its encoded items. *)
Definition encode_list (payload : list byte) : list byte :=
  head 192 (len payload) ++ payload.

(** Modelled from the spec: [rlp.Encode] on a [*big.Int].  A nil pointer
    is written as the empty string; a negative integer is refused. *)
Definition encode_bigInt (i : big.ptr) : result error (list byte) :=
  match i with
  | None => Ok [x80]
  | Some z =>
      if z <? 0 then Err ErrNegativeBigInt else Ok (encode_string (putint z))
  end.

(** Modelled from the spec: [rlp.Encode] on a byte array, written as a
    string of its bytes. *)
Definition encode_bytes (b : list byte) : result error (list byte) :=
  Ok (encode_string b).

(** Modelled from the spec: reading [n] bytes from the stream. *)
Definition readFull (n : Z) (s : Stream) : result error (list byte * Stream) :=
  if len s <? n then Err ErrUnexpectedEOF
  else Ok (firstn (Z.to_nat n) s, skipn (Z.to_nat n) s).

(** Modelled from the spec: reading a big-endian length of [size] bytes;
    a leading zero byte is not canonical. *)
Definition readUint (size : Z) (s : Stream) : result error (Z * Stream) :=
  ' (buffer, s') <- readFull size s ;;
  match buffer with
  | [] => Ok (0, s')
  | b :: _ =>
      if byte_to_Z b =? 0 then Err ErrCanonSize
      else Ok (be_value buffer, s')
  end.

(** Modelled from the spec: [rlp.Kind] with the size (or the byte) that
    comes with it. *)
Inductive Kind : Type :=
| Byte (b : byte)
| String (size : Z)
| List (size : Z).

(** Modelled from the spec: the type tag and size of the value ahead. *)
Definition readKind (s : Stream) : result error (Kind * Stream) :=
  match s with
  | [] => Err EOF
  | b :: s' =>
      let n := byte_to_Z b in
      if n <? 128 then Ok (Byte b, s')
      else if n <? 184 then Ok (String (n - 128), s')
      else if n <? 192 then
        ' (size, s'') <- readUint (n - 183) s' ;;
        if size <? 56 then Err ErrCanonSize else Ok (String size, s'')
      else if n <? 248 then Ok (List (n - 192), s')
      else
        ' (size, s'') <- readUint (n - 247) s' ;;
        if size <? 56 then Err ErrCanonSize else Ok (List size, s'')
  end.

(** Modelled from the spec: [Stream.Kind]; the value ahead must fit in
    the input that is left. *)
Definition Kind_of (s : Stream) : result error (Kind * Stream) :=
  ' (kind, s') <- readKind s ;;
  match kind with
  | Byte _ => Ok (kind, s')
  | String size | List size =>
      if len s' <? size then Err ErrValueTooLarge else Ok (kind, s')
  end.

(** Modelled from the spec: [Stream.Decode] into a [*big.Int]. *)
Definition decodeBigInt (s : Stream) : result error (Z * Stream) :=
  ' (kind, s') <- Kind_of s ;;
  match kind with
  | List _ => Err ErrExpectedString
  | Byte b =>
      if byte_to_Z b =? 0 then Err ErrCanonInt else Ok (byte_to_Z b, s')
  | String size =>
      if size =? 0 then Ok (0, s')
      else
        ' (buffer, s'') <- readFull size s' ;;
        match buffer with
        | [] => Ok (0, s'')
        | b :: _ =>
            if (size =? 1) && (byte_to_Z b <? 128) then Err ErrCanonSize
            else if byte_to_Z b =? 0 then Err ErrCanonInt
            else Ok (be_value buffer, s'')
        end
  end.

(** Modelled from the spec: [Stream.Decode] into a byte array of [n]
    bytes, [n] above 1. *)
Definition decodeByteArray (n : Z) (s : Stream)
  : result error (list byte * Stream) :=
  ' (kind, s') <- Kind_of s ;;
  match kind with
  | Byte _ => Err ErrStringTooShort
  | String size =>
      if n <? size then Err ErrStringTooLong
      else if size <? n then Err ErrStringTooShort
      else readFull size s'
  | List _ => Err ErrExpectedString
  end.

(** Modelled from the spec: [Stream.List]; entering a list gives its
    payload and what follows. *)
Definition List_of (s : Stream) : result error (Stream * Stream) :=
  ' (kind, s') <- Kind_of s ;;
  match kind with
  | List size => readFull size s'
  | _ => Err ErrExpectedList
  end.

(** Modelled from the spec: a field of a struct read inside a list; the
    end of the list where a field is expected is an error. *)
Definition field {A : Type} (d : Stream -> result error (A * Stream))
    (payload : Stream) : result error (A * Stream) :=
  match payload with
  | [] => Err ErrTooFewElements
  | _ :: _ => d payload
  end.

(** Modelled from the spec: [Stream.ListEnd]; the payload must be used
    up. *)
Definition ListEnd (payload : Stream) : result error unit :=
  match payload with
  | [] => Ok tt
  | _ :: _ => Err ErrTooManyElements
  end.

End rlp.

(** ** Wire encoding of [View] *)

(** [rlp.Encode(w, []interface{}{v.Round, v.Sequence})]: the bytes written
    to [w], or the error. *)
Definition View_EncodeRLP (v : View) : result rlp.error (list byte) :=
  round <- rlp.encode_bigInt (Round v) ;;
  sequence <- rlp.encode_bigInt (Sequence v) ;;
  Ok (rlp.encode_list (round ++ sequence)).

(** [s.Decode(&view)] into [struct { Round, Sequence *big.Int }]. *)
Definition decode_view_struct (s : rlp.Stream)
  : result rlp.error (View * rlp.Stream) :=
  ' (payload, s') <- rlp.List_of s ;;
  ' (round, payload) <- rlp.field rlp.decodeBigInt payload ;;
  ' (sequence, payload) <- rlp.field rlp.decodeBigInt payload ;;
  _ <- rlp.ListEnd payload ;;
  Ok ({| Round := Some round; Sequence := Some sequence |}, s').

(** [func (v *View) DecodeRLP(s *rlp.Stream) error]: the error ([None]
    for nil), the receiver and the stream after the call (after an error
    the stream is shown as it was: nothing here depends on how far a
    failed call has read). *)
Definition View_DecodeRLP (s : rlp.Stream) (v : View)
  : option rlp.error * View * rlp.Stream :=
  match decode_view_struct s with
  | Err err => (Some err, v, s)
  | Ok (view, s') =>
      (None, {| Round := Round view; Sequence := Sequence view |}, s')
  end.

(** A [*View] inside a list: nil is written as the empty list; on
    decoding a fresh [View] is allocated and [DecodeRLP] called on it. *)
Definition encode_View_ptr (v : option View) : result rlp.error (list byte) :=
  match v with
  | None => Ok [xc0]
  | Some v => View_EncodeRLP v
  end.

Definition decode_View_ptr (s : rlp.Stream)
  : result rlp.error (option View * rlp.Stream) :=
  match View_DecodeRLP s {| Round := None; Sequence := None |} with
  | (Some err, _, _) => Err err
  | (None, v, s') => Ok (Some v, s')
  end.

(** ** Wire encoding of [Subject] *)

Module Subject.
Record t : Type := {
  View : option View;
  Digest : common.Hash
}.
End Subject.

Definition Subject_EncodeRLP (b : Subject.t) : result rlp.error (list byte) :=
  view <- encode_View_ptr (Subject.View b) ;;
  digest <- rlp.encode_bytes (Subject.Digest b) ;;
  Ok (rlp.encode_list (view ++ digest)).

Definition decode_subject_struct (s : rlp.Stream)
  : result rlp.error (Subject.t * rlp.Stream) :=
  ' (payload, s') <- rlp.List_of s ;;
  ' (view, payload) <- rlp.field decode_View_ptr payload ;;
  ' (digest, payload) <-
    rlp.field (rlp.decodeByteArray (Z.of_nat common.HashLength)) payload ;;
  _ <- rlp.ListEnd payload ;;
  Ok ({| Subject.View := view; Subject.Digest := digest |}, s').

Definition Subject_DecodeRLP (s : rlp.Stream) (b : Subject.t)
  : option rlp.error * Subject.t * rlp.Stream :=
  match decode_subject_struct s with
  | Err err => (Some err, b, s)
  | Ok (subject, s') =>
      (None, {| Subject.View := Subject.View subject;
                Subject.Digest := Subject.Digest subject |}, s')
  end.

(** ** Wire encoding of [Preprepare] *)

Module Preprepare.
Section WithBlock.
Variable Block : Type.
Record t : Type := {
  View : option View;
  Proposal : option Block
}.
End WithBlock.
Arguments View {Block} _.
Arguments Proposal {Block} _.
Arguments Build_t {Block} View Proposal.
End Preprepare.

Section PreprepareCodec.

(** [types.Block], the implementation of [Proposal] that [DecodeRLP]
    produces, and its [EncodeRLP] and [DecodeRLP] are defined in
    [core/types]; they are parameters here.  A [Proposal] is a block or
    the nil interface. *)
Variable Block : Type.
Variable Block_EncodeRLP : Block -> result rlp.error (list byte).
Variable Block_DecodeRLP : rlp.Stream -> result rlp.error (Block * rlp.Stream).

(** An interface value inside a list: nil is written as the empty list. *)
Definition encode_Proposal (p : option Block) : result rlp.error (list byte) :=
  match p with
  | None => Ok [xc0]
  | Some blk => Block_EncodeRLP blk
  end.

(** Decoding into a [*types.Block]: a block is allocated and its
    [DecodeRLP] called. *)
Definition decode_Block_ptr (s : rlp.Stream)
  : result rlp.error (option Block * rlp.Stream) :=
  ' (blk, s') <- Block_DecodeRLP s ;;
  Ok (Some blk, s').

Definition Preprepare_EncodeRLP (b : Preprepare.t Block)
  : result rlp.error (list byte) :=
  view <- encode_View_ptr (Preprepare.View b) ;;
  proposal <- encode_Proposal (Preprepare.Proposal b) ;;
  Ok (rlp.encode_list (view ++ proposal)).

Definition decode_preprepare_struct (s : rlp.Stream)
  : result rlp.error (Preprepare.t Block * rlp.Stream) :=
  ' (payload, s') <- rlp.List_of s ;;
  ' (view, payload) <- rlp.field decode_View_ptr payload ;;
  ' (proposal, payload) <- rlp.field decode_Block_ptr payload ;;
  _ <- rlp.ListEnd payload ;;
  Ok ({| Preprepare.View := view; Preprepare.Proposal := proposal |}, s').

Definition Preprepare_DecodeRLP (s : rlp.Stream) (b : Preprepare.t Block)
  : option rlp.error * Preprepare.t Block * rlp.Stream :=
  match decode_preprepare_struct s with
  | Err err => (Some err, b, s)
  | Ok (preprepare, s') =>
      (None, {| Preprepare.View := Preprepare.View preprepare;
                Preprepare.Proposal := Preprepare.Proposal preprepare |}, s')
  end.

End PreprepareCodec.

Arguments Preprepare_EncodeRLP {Block} Block_EncodeRLP b.
Arguments Preprepare_DecodeRLP {Block} Block_DecodeRLP s b.
Arguments decode_preprepare_struct {Block} Block_DecodeRLP s.
Arguments encode_Proposal {Block} Block_EncodeRLP p.
Arguments decode_Block_ptr {Block} Block_DecodeRLP s.

(** ** Valid envelopes *)

(** The sizes of the wire format are [uint64] values. *)
Definition wire_size (bs : list byte) : Prop := rlp.len bs < 2 ^ 64.

(** A valid view has both fields set, to non-negative integers. *)
Definition valid_View (v : View) : Prop :=
  exists round sequence,
    v = view round sequence /\ 0 <= round /\ 0 <= sequence.

Definition valid_View_ptr (o : option View) : Prop :=
  exists v, o = Some v /\ valid_View v.

(** A valid subject carries a valid view and a 32-byte digest. *)
Definition valid_Subject (b : Subject.t) : Prop :=
  valid_View_ptr (Subject.View b) /\
  List.length (Subject.Digest b) = common.HashLength.

(** A valid preprepare carries a valid view and a block. *)
Definition valid_Preprepare {Block : Type} (b : Preprepare.t Block) : Prop :=
  valid_View_ptr (Preprepare.View b) /\
  (exists blk, Preprepare.Proposal b = Some blk).

(** [bs] is a proper prefix of [full]: a truncated input. *)
Definition truncated (bs full : list byte) : Prop :=
  exists tail, tail <> [] /\ full = bs ++ tail.

(** A stand-in for a block in examples: a block reduced to its number,
    written as an integer. *)
Definition number_block_EncodeRLP (n : N) : result rlp.error (list byte) :=
  if (n <? 2 ^ 64)%N then rlp.encode_bigInt (Some (Z.of_N n))
  else Err rlp.ErrValueTooLarge.

Definition number_block_DecodeRLP (s : rlp.Stream)
  : result rlp.error (N * rlp.Stream) :=
  ' (z, s') <- rlp.decodeBigInt s ;;
  if z <? 2 ^ 64 then Ok (Z.to_N z, s') else Err rlp.ErrValueTooLarge.


Definition example_preprepare : Preprepare.t N :=
  {| Preprepare.View := Some (view 1 1024); Preprepare.Proposal := Some 7%N |}.

(** ** Codecs *)

(** No leading zero byte: the canonical form of an integer. *)
Definition canonical (bs : list byte) : Prop :=
  match bs with
  | [] => True
  | b :: _ => rlp.byte_to_Z b <> 0
  end.

Section Codec.

Variable T : Type.
Variable valid : T -> Prop.
Variable enc : T -> result rlp.error (list byte).
Variable dec : rlp.Stream -> result rlp.error (T * rlp.Stream).

(** An encoder and a stream decoder agree exactly on the valid values:
    the decoder reads back the encoding of a valid value and leaves what
    follows it; it accepts nothing but such encodings; and an encoding is
    never empty. *)
Record exact_codec : Prop := {
  decodes_encoding :
    forall x bs rest,
      valid x -> enc x = Ok bs -> wire_size bs ->
      dec (bs ++ rest) = Ok (x, rest);
  accepts_only_encodings :
    forall s x s',
      dec s = Ok (x, s') ->
      valid x /\ exists bs, enc x = Ok bs /\ s = bs ++ s';
  encoding_nonempty :
    forall x bs, enc x = Ok bs -> bs <> []
}.

End Codec.

Arguments exact_codec {T} valid enc dec.
Arguments decodes_encoding {T valid enc dec} _ x bs rest _ _ _.
Arguments accepts_only_encodings {T valid enc dec} _ s x s' _.
Arguments encoding_nonempty {T valid enc dec} _ x bs _.

(** The record of two fields written as a list, as [rlp.Encode] writes
    [[]interface{}{a, b}] and [Stream.Decode] reads a two-field struct. *)
Definition encode_record2 {A B : Type}
    (encA : A -> result rlp.error (list byte))
    (encB : B -> result rlp.error (list byte))
    (a : A) (b : B) : result rlp.error (list byte) :=
  ea <- encA a ;;
  eb <- encB b ;;
  Ok (rlp.encode_list (ea ++ eb)).

Definition decode_record2 {A B T : Type}
    (decA : rlp.Stream -> result rlp.error (A * rlp.Stream))
    (decB : rlp.Stream -> result rlp.error (B * rlp.Stream))
    (mk : A -> B -> T) (s : rlp.Stream) : result rlp.error (T * rlp.Stream) :=
  ' (payload, s') <- rlp.List_of s ;;
  ' (a, payload) <- rlp.field decA payload ;;
  ' (b, payload) <- rlp.field decB payload ;;
  _ <- rlp.ListEnd payload ;;
  Ok (mk a b, s').

(** The error of a [DecodeRLP] call and the receiver after it. *)
Definition returned_error {T S : Type} (r : option rlp.error * T * S)
  : option rlp.error := fst (fst r).

Definition receiver_after {T S : Type} (r : option rlp.error * T * S) : T :=
  snd (fst r).

(** What the specification asks of a [DecodeRLP] method on a type with
    encoder [enc]: a call that returns an error leaves the receiver as it
    was; the call returns no error exactly when the stream starts with the
    encoding of a valid value, which the receiver then holds, the stream
    being left after that encoding; and every truncated encoding is
    refused. *)
Definition strict_decoder {T : Type} (valid : T -> Prop)
    (enc : T -> result rlp.error (list byte))
    (DecodeRLP : rlp.Stream -> T -> option rlp.error * T * rlp.Stream) : Prop :=
  (forall s x0,
      returned_error (DecodeRLP s x0) <> None ->
      receiver_after (DecodeRLP s x0) = x0) /\
  (forall s x0,
      wire_size s ->
      (returned_error (DecodeRLP s x0) = None <->
       exists x bs rest, valid x /\ enc x = Ok bs /\ s = bs ++ rest)) /\
  (forall s x0 x bs rest,
      wire_size s -> valid x -> enc x = Ok bs -> s = bs ++ rest ->
      DecodeRLP s x0 = (None, x, rest)) /\
  (forall s x0 x bs,
      valid x -> enc x = Ok bs -> wire_size bs -> truncated s bs ->
      returned_error (DecodeRLP s x0) <> None).

(** * Further definitions *)

(** ** More on the resolver *)

(** The longest prefix of a list whose elements satisfy [p]: what a loop
    with the guard [p] visits. *)
Fixpoint take_while {A : Type} (p : A -> bool) (l : list A) : list A :=
  match l with
  | [] => []
  | x :: rest => if p x then x :: take_while p rest else []
  end.

(** A transition whose height lies in the interval from [h1] (excluded) to
    [h2] (included). *)
Definition applies_between (h1 h2 : Z) (t : params.Transition) : bool :=
  match params.Block t with
  | Some b => (h1 <? b) && (b <=? h2)
  | None => false
  end.

(** The mode a configuration stands for: its own, and the block-header
    mode when it has none. *)
Definition mode_of (c : Config) : string :=
  match ValidatorSelectionMode c with
  | Some m => m
  | None => params.BlockHeaderMode
  end.

Definition carries_mode (h : Z) (t : params.Transition) : bool :=
  applies_at h t && nonempty_string (params.ValidatorSelectionMode t).

(** A transition list that is not in ascending order: the entry at height
    5 stands behind the entry at height 20. *)
Definition unsorted_config : Config :=
  base_config [with_timeout 10 5; with_timeout 20 7; with_timeout 5 9].

(** A transition list whose second entry has no height. *)
Definition nil_block_transition : params.Transition :=
  {| params.Block := None; params.EpochLength := 0;
     params.BlockPeriodSeconds := 0;
     params.EmptyBlockPeriodSeconds := None;
     params.RequestTimeoutSeconds := 3;
     params.ContractSizeLimit := 0; params.Validators := [];
     params.ValidatorSelectionMode := EmptyString;
     params.EnhancedPermissioningEnabled := None;
     params.PrivacyEnhancementsEnabled := None;
     params.PrivacyPrecompileEnabled := None; params.GasPriceEnabled := None;
     params.MinerGasLimit := 0; params.TwoFPlusOneEnabled := None;
     params.TransactionSizeLimit := 0; params.BlockReward := None;
     params.BeneficiaryMode := None; params.MiningBeneficiary := None;
     params.MaxRequestTimeoutSeconds := None |}.

Definition nil_block_config : Config :=
  base_config [with_timeout 10 5; nil_block_transition].

Definition with_mode (b : Z) (mode : string) : params.Transition :=
  {| params.Block := Some b; params.EpochLength := 0;
     params.BlockPeriodSeconds := 0;
     params.EmptyBlockPeriodSeconds := None;
     params.RequestTimeoutSeconds := 0;
     params.ContractSizeLimit := 0; params.Validators := [];
     params.ValidatorSelectionMode := mode;
     params.EnhancedPermissioningEnabled := None;
     params.PrivacyEnhancementsEnabled := None;
     params.PrivacyPrecompileEnabled := None; params.GasPriceEnabled := None;
     params.MinerGasLimit := 0; params.TwoFPlusOneEnabled := None;
     params.TransactionSizeLimit := 0; params.BlockReward := None;
     params.BeneficiaryMode := None; params.MiningBeneficiary := None;
     params.MaxRequestTimeoutSeconds := None |}.

Definition mode_scenario : Config :=
  base_config [with_mode 5 params.ContractMode; with_timeout 8 4;
               with_mode 12 params.BlockHeaderMode].

(** ** Fields of two pointers *)

(** Exactly one of two [*big.Int] is nil. *)
Definition one_nil (a b : big.ptr) : Prop :=
  (a = None /\ b <> None) \/ (a <> None /\ b = None).

(** ** Validators and their sort functions *)

(** Go's [bytes.Compare] and [strings.Compare]: the lexicographic
    comparison of the bytes, -1, 0 or +1. *)
Module bytes.
Fixpoint Compare (a b : list byte) : Z :=
  match a, b with
  | [], [] => 0
  | [], _ :: _ => -1
  | _ :: _, [] => 1
  | x :: a', y :: b' =>
      match (Byte.to_N x ?= Byte.to_N y)%N with
      | Lt => -1
      | Gt => 1
      | Eq => Compare a' b'
      end
  end.
End bytes.

Module strings.
Definition Compare (a b : string) : Z :=
  bytes.Compare (list_byte_of_string a) (list_byte_of_string b).
End strings.

(** The interface [Validator]: its two methods on a type [V] of
    implementations. *)
Module Validator.
Class methods (V : Type) : Type := {
  Address : V -> common.Address;
  String : V -> string
}.
End Validator.

(** A slice index out of range panics. *)
Inductive index_panic : Type := index_out_of_range.

(** [l[i]] *)
Definition at_index {A : Type} (l : list A) (i : Z)
  : result index_panic A :=
  if i <? 0 then Err index_out_of_range
  else
    match nth_error l (Z.to_nat i) with
    | Some x => Ok x
    | None => Err index_out_of_range
    end.

Fixpoint replace_nth {A : Type} (l : list A) (n : nat) (x : A) : list A :=
  match l, n with
  | [], _ => []
  | _ :: rest, O => x :: rest
  | y :: rest, S n' => y :: replace_nth rest n' x
  end.

(** [l[i] = x] *)
Definition set_index {A : Type} (l : list A) (i : Z) (x : A)
  : result index_panic (list A) :=
  if (i <? 0) || (Z.of_nat (List.length l) <=? i) then Err index_out_of_range
  else Ok (replace_nth l (Z.to_nat i) x).

(** The order a sort function induces when it compares a byte-string key
    of its arguments with [bytes.Compare]. *)
Definition key_less {V : Type} (key : V -> list byte) (v1 v2 : V) : bool :=
  bytes.Compare (key v1) (key v2) <? 0.

Definition key_le {V : Type} (key : V -> list byte) (v1 v2 : V) : Prop :=
  bytes.Compare (key v1) (key v2) <= 0.

(** The exchange of two positions. *)
Definition transpose (i j n : nat) : nat :=
  if Nat.eqb n i then j else if Nat.eqb n j then i else n.

Section Sorting.

Context {V : Type} `{Validator.methods V}.

Definition ValidatorSortByFunc : Type := V -> V -> bool.

Record validatorSorter : Type := {
  validators : list V;
  by_ : ValidatorSortByFunc
}.

Definition validatorSorter_Len (vs : validatorSorter) : Z :=
  Z.of_nat (List.length (validators vs)).

(** [vs.validators[i], vs.validators[j] = vs.validators[j], vs.validators[i]]:
    both right-hand sides are read, then the two assignments are carried
    out from left to right. *)
Definition validatorSorter_Swap (vs : validatorSorter) (i j : Z)
  : result index_panic validatorSorter :=
  vj <- at_index (validators vs) j ;;
  vi <- at_index (validators vs) i ;;
  l1 <- set_index (validators vs) i vj ;;
  l2 <- set_index l1 j vi ;;
  Ok {| validators := l2; by_ := by_ vs |}.

Definition validatorSorter_Less (vs : validatorSorter) (i j : Z)
  : result index_panic bool :=
  vi <- at_index (validators vs) i ;;
  vj <- at_index (validators vs) j ;;
  Ok (by_ vs vi vj).

Definition ValidatorSortByString : ValidatorSortByFunc :=
  fun v1 v2 =>
    strings.Compare (Validator.String v1) (Validator.String v2) <? 0.

Definition ValidatorSortByByte : ValidatorSortByFunc :=
  fun v1 v2 =>
    bytes.Compare (Validator.Address v1) (Validator.Address v2) <? 0.

(** A run of [sort.Sort] on a sorter acts on the validators through
    [Swap] only: it is a sequence of swaps. *)
Fixpoint swaps (vs : validatorSorter) (ops : list (Z * Z))
  : result index_panic validatorSorter :=
  match ops with
  | [] => Ok vs
  | (i, j) :: rest =>
      vs' <- validatorSorter_Swap vs i j ;;
      swaps vs' rest
  end.

(** Go's [sort.IsSorted]: no element is less than the one before it. *)
Fixpoint IsSorted (less : ValidatorSortByFunc) (l : list V) : bool :=
  match l with
  | x :: (y :: _) as rest => negb (less y x) && IsSorted less rest
  | _ => true
  end.

End Sorting.

Arguments validatorSorter V : clear implicits.
Arguments ValidatorSortByFunc V : clear implicits.

(** An implementation for examples: a validator is its address, and its
    string is the address read as a string. *)
#[export] Instance address_validator : Validator.methods common.Address := {
  Validator.Address := fun a => a;
  Validator.String := fun a => string_of_list_byte a
}.

Definition example_sorter : validatorSorter common.Address :=
  {| validators := [addr_B; addr_A; addr_B ++ [x00]];
     by_ := ValidatorSortByByte |}.

(** ** Constructors of the proposer policy *)

Section PolicyConstructors.

Context {V : Type} `{Validator.methods V}.
Variable ValidatorSet : Type.

Definition NewProposerPolicy (id : policy.ProposerPolicyId)
  : policy.ProposerPolicy V ValidatorSet :=
  policy.NewProposerPolicyByIdAndSortFunc V ValidatorSet id
    ValidatorSortByString.

Definition NewRoundRobinProposerPolicy : policy.ProposerPolicy V ValidatorSet :=
  NewProposerPolicy policy.RoundRobin.

Definition NewStickyProposerPolicy : policy.ProposerPolicy V ValidatorSet :=
  NewProposerPolicy policy.Sticky.

End PolicyConstructors.

(** [RegisterValidatorSet] called on each set of a list in turn. *)
Definition register_all {Validator ValidatorSet Sets : Type}
    (l : list ValidatorSet)
  : M (policy.World Validator ValidatorSet Sets) unit :=
  for_range l (fun valSet => policy.RegisterValidatorSet valSet).

(** The state of a policy with an empty event log. *)
Definition world_of {Validator ValidatorSet Sets : Type}
    (p : policy.ProposerPolicy Validator ValidatorSet) (s : Sets)
  : policy.World Validator ValidatorSet Sets :=
  policy.Build_World p s [].

Definition example_store : list (list nat) := [[3; 1; 2]; [5; 4]; [9; 7; 8]]%nat.

(** ** Views as they come back from the wire *)




(** Closing a boolean comparison whose outcome arithmetic decides. *)
Ltac ltb_false := symmetry; apply Z.ltb_ge; lia.
Ltac ltb_true := symmetry; apply Z.ltb_lt; lia.

(** ** An implementation of the [ValidatorSet] interface for examples *)

(** Validators are numbers, a [ValidatorSet] value is the index of a
    member list in the store, and [SortValidators] re-sorts that member
    list by insertion under the [By] function of the policy. *)
Fixpoint insert_by (less : nat -> nat -> bool) (x : nat) (l : list nat)
  : list nat :=
  match l with
  | [] => [x]
  | y :: rest => if less y x then y :: insert_by less x rest else x :: l
  end.

Definition sort_by (less : nat -> nat -> bool) (l : list nat) : list nat :=
  fold_right (insert_by less) [] l.

Fixpoint update_slot (i : nat) (f : list nat -> list nat)
    (store : list (list nat)) : list (list nat) :=
  match store, i with
  | [], _ => []
  | members :: rest, O => f members :: rest
  | members :: rest, S i' => members :: update_slot i' f rest
  end.

Definition slots_SortValidators (vs : nat) (p : policy.ProposerPolicy nat nat)
    (store : list (list nat)) : list (list nat) :=
  update_slot vs (sort_by (policy.By p)) store.

(** The member list of a slot is in ascending order. *)
Definition slot_ascending (vs : nat) (store : list (list nat)) : Prop :=
  Sorted le (nth vs store []).

Definition example_world : policy.World nat nat (list (list nat)) :=
  policy.Build_World
    (policy.Build_ProposerPolicy policy.RoundRobin (fun a b => Nat.ltb b a)
       [0%nat; 2%nat] (Some policy.Unlocked))
    [[3; 1; 2]; [5; 4]; [9; 7; 8]]%nat
    [].

(** * Properties *)

(** ** The resolver *)

Lemma GetConfig_callback_overlay (t : params.Transition) (cfg : Config) :
  GetConfig_callback t cfg = overlay cfg t.
Proof.
  unfold GetConfig_callback, overlay.
  destruct cfg, t; simpl.
  repeat match goal with
         | |- context [if negb (?x =? 0) then _ else _] =>
             destruct (x =? 0); simpl
         | |- context [match ?o with Some _ => _ | None => _ end] =>
             destruct o; simpl
         | |- context [nonempty_string ?s] => destruct s; simpl
         | |- context [nonempty ?l] => destruct l; simpl
         end; reflexivity.
Qed.

Lemma height_le_trans (a b c : params.Transition) :
  height_le a b -> height_le b c -> height_le a c.
Proof.
  unfold height_le.
  destruct (params.Block a), (params.Block b), (params.Block c);
    try tauto; lia.
Qed.

(** Past the first transition above [h] nothing applies any more. *)
Lemma filter_above (h : Z) (t : params.Transition) (rest : list params.Transition) :
  applies_at h t = false ->
  params.Block t <> None ->
  Forall (height_le t) rest ->
  filter (applies_at h) rest = [].
Proof.
  intros Ht Hb Hall.
  induction Hall as [| u rest Hu _ IH]; simpl; [reflexivity |].
  rewrite IH.
  unfold applies_at, height_le in *.
  destruct (params.Block t) as [b |]; [| congruence].
  destruct (params.Block u) as [b' |]; [| reflexivity].
  apply Z.leb_gt in Ht.
  destruct (b' <=? h) eqn:E; [apply Z.leb_le in E; lia | reflexivity].
Qed.

(** On an ascending list the loop of [getTransitionValue] visits exactly
    the transitions that apply at [h], in list order. *)
Lemma transition_loop_ascending {A : Type} (ts : list params.Transition) (h : Z)
    (callback : params.Transition -> A -> A) (acc : A) :
  ascending ts ->
  transition_loop ts (Some h) callback acc =
  Ok (fold_left (fun a t => callback t a) (filter (applies_at h) ts) acc).
Proof.
  intros [Hset Hsorted].
  apply Sorted_StronglySorted in Hsorted;
    [| intros a b c; apply height_le_trans].
  revert acc.
  induction Hsorted as [| t rest Hrest IH Hall]; intros acc; simpl;
    [reflexivity |].
  inversion Hset as [| ? ? Ht Hset']; subst.
  unfold applies_at at 1.
  destruct (params.Block t) as [b |] eqn:Hb; [| congruence].
  simpl. destruct (b ?= h) eqn:Hc.
  - apply Z.compare_eq in Hc. subst b.
    simpl. rewrite Z.leb_refl. simpl. apply IH, Hset'.
  - rewrite Z.compare_lt_iff in Hc.
    replace (b <=? h) with true by (symmetry; apply Z.leb_le; lia).
    simpl. apply IH, Hset'.
  - rewrite Z.compare_gt_iff in Hc.
    replace (b <=? h) with false by (symmetry; apply Z.leb_gt; lia).
    simpl.
    rewrite (filter_above h t rest); [reflexivity | | congruence | exact Hall].
    unfold applies_at. rewrite Hb. apply Z.leb_gt. lia.
Qed.

Lemma fold_left_ext {A B : Type} (f g : A -> B -> A) (l : list B) (a : A) :
  (forall x y, f x y = g x y) -> fold_left f l a = fold_left g l a.
Proof.
  intros E. revert a. induction l as [| y l IH]; intros a; simpl;
    [reflexivity |].
  rewrite E. apply IH.
Qed.

Lemma GetConfig_effective (c : Config) (h : Z) :
  ascending (Transitions c) ->
  GetConfig c (Some h) = Ok (effective_config c h).
Proof.
  intros Hasc.
  unfold GetConfig, getTransitionValue, effective_config.
  rewrite (transition_loop_ascending _ _ _ _ Hasc).
  f_equal. apply fold_left_ext. intros x y.
  apply GetConfig_callback_overlay.
Qed.

(** C1. On an ascending transition list, [GetConfig] at a height [h] is the
    left-to-right fold, from the base configuration, of the per-field merge
    [overlay] over the transitions whose height is at most [h], in list
    order: a transition overwrites a field only when it carries a value for
    it, so a later transition wins field by field and the fields no
    transition carries stay those of the base. *)
Theorem C1_GetConfig_is_fold (c : Config) (h : Z) :
  ascending (Transitions c) ->
  GetConfig c (Some h) = Ok (effective_config c h) /\
  ProposerPolicy (effective_config c h) = ProposerPolicy c /\
  Ceil2Nby3Block (effective_config c h) = Ceil2Nby3Block c /\
  AllowedFutureBlockTime (effective_config c h) = AllowedFutureBlockTime c /\
  Client (effective_config c h) = Client c /\
  Transitions (effective_config c h) = Transitions c.
Proof.
  intros Hasc. split.
  - apply GetConfig_effective, Hasc.
  - unfold effective_config.
    generalize (filter (applies_at h) (Transitions c)) as l.
    intros l.
    assert (G : forall cfg,
      ProposerPolicy (fold_left overlay l cfg) = ProposerPolicy cfg /\
      Ceil2Nby3Block (fold_left overlay l cfg) = Ceil2Nby3Block cfg /\
      AllowedFutureBlockTime (fold_left overlay l cfg) =
        AllowedFutureBlockTime cfg /\
      Client (fold_left overlay l cfg) = Client cfg /\
      Transitions (fold_left overlay l cfg) = Transitions cfg).
    { induction l as [| t l IH]; intros cfg; simpl; [repeat split |].
      destruct (IH (overlay cfg t)) as (H1 & H2 & H3 & H4 & H5).
      rewrite H1, H2, H3, H4, H5. repeat split. }
    apply G.
Qed.

Lemma two_step_ascending : ascending (Transitions two_step_config).
Proof.
  split; simpl.
  - repeat (apply Forall_cons; [discriminate |]). apply Forall_nil.
  - repeat (apply Sorted_cons;
            [| first [apply HdRel_nil | apply HdRel_cons; unfold height_le; simpl; lia]]).
    apply Sorted_nil.
Defined.

Lemma C1_GetConfig_is_fold_witness :
  GetConfig two_step_config (Some 25) = Ok (effective_config two_step_config 25) /\
  RequestTimeout (effective_config two_step_config 25) = 5000 /\
  Validators (effective_config two_step_config 25) = [addr_B] /\
  Epoch (effective_config two_step_config 25) = 30000.
Proof.
  split.
  - apply (C1_GetConfig_is_fold two_step_config 25 two_step_ascending).
  - repeat split.
Defined.

(** *** Last writer wins *)

Lemma last_cons_default {A : Type} (a d : A) (l : list A) :
  last (a :: l) d = last l a.
Proof.
  revert a d. induction l as [| b l IH]; intros a d; [reflexivity |].
  change (last (a :: b :: l) d) with (last (b :: l) d).
  rewrite (IH b d), (IH b a). reflexivity.
Qed.

(** A fold whose step either sets a projection of the state to a value of
    the element or leaves it alone ends with the value of the last element
    that sets it. *)
Lemma fold_last_writer {S T V : Type} (f : S -> T -> S) (proj : S -> V)
    (carries : T -> bool) (val : T -> V) :
  (forall s t, proj (f s t) = if carries t then val t else proj s) ->
  forall l s,
    proj (fold_left f l s) = last (map val (filter carries l)) (proj s).
Proof.
  intros Hstep. induction l as [| t l IH]; intros s; simpl; [reflexivity |].
  rewrite IH, Hstep.
  destruct (carries t); [| reflexivity].
  simpl map. rewrite last_cons_default. reflexivity.
Qed.

Lemma filter_filter {A : Type} (p q : A -> bool) (l : list A) :
  filter q (filter p l) = filter (fun x => p x && q x) l.
Proof.
  induction l as [| x l IH]; simpl; [reflexivity |].
  destruct (p x); simpl; [destruct (q x) |]; rewrite ?IH; reflexivity.
Qed.

(** C3. [GetConfig] turns the seconds of a transition into the
    milliseconds of [RequestTimeout] by a [uint64] multiplication by 1000
    whenever the seconds are not zero: on an ascending list the resolved
    timeout is that of the last applicable transition that sets it, which
    is exactly [1000 * seconds] while that fits 64 bits.  On the base
    [{RequestTimeout: 10000, Epoch: 30000}] with the one transition
    [{Block: 100, RequestTimeoutSeconds: 5}] the resolved timeout is 10000
    at height 50 and 5000 at heights 100 and 1000. *)
Theorem C3_RequestTimeout_in_milliseconds (c : Config) (h : Z) :
  ascending (Transitions c) ->
  (exists r, GetConfig c (Some h) = Ok r /\
             RequestTimeout r = resolved_timeout c h) /\
  (forall t cfg,
      params.RequestTimeoutSeconds t <> 0 ->
      0 <= params.RequestTimeoutSeconds t * 1000 < 2 ^ 64 ->
      RequestTimeout (GetConfig_callback t cfg) =
      params.RequestTimeoutSeconds t * 1000) /\
  (exists r50 r100 r1000,
      GetConfig timeout_scenario (Some 50) = Ok r50 /\
      GetConfig timeout_scenario (Some 100) = Ok r100 /\
      GetConfig timeout_scenario (Some 1000) = Ok r1000 /\
      RequestTimeout r50 = 10000 /\
      RequestTimeout r100 = 5000 /\
      RequestTimeout r1000 = 5000).
Proof.
  intros Hasc. split; [| split].
  - exists (effective_config c h). split.
    + apply GetConfig_effective, Hasc.
    + unfold effective_config, resolved_timeout, carries_timeout.
      rewrite <- filter_filter.
      apply (fold_last_writer overlay RequestTimeout
               (fun t => negb (params.RequestTimeoutSeconds t =? 0))).
      intros s t. simpl.
      destruct (params.RequestTimeoutSeconds t =? 0); reflexivity.
  - intros t cfg Hnz Hfit.
    rewrite GetConfig_callback_overlay. simpl.
    destruct (params.RequestTimeoutSeconds t =? 0) eqn:E;
      [apply Z.eqb_eq in E; contradiction |].
    unfold uint64_mul. apply Z.mod_small. exact Hfit.
  - eexists _, _, _. repeat split.
Qed.

Lemma timeout_scenario_ascending : ascending (Transitions timeout_scenario).
Proof.
  split; simpl.
  - repeat (apply Forall_cons; [discriminate |]). apply Forall_nil.
  - repeat (apply Sorted_cons;
            [| first [apply HdRel_nil
                     | apply HdRel_cons; unfold height_le; simpl; lia]]).
    apply Sorted_nil.
Defined.

Lemma C3_RequestTimeout_in_milliseconds_witness :
  exists r, GetConfig timeout_scenario (Some 100) = Ok r /\
            RequestTimeout r = 5000.
Proof.
  destruct (C3_RequestTimeout_in_milliseconds timeout_scenario 100
              timeout_scenario_ascending) as [[r [Hr Ht]] _].
  exists r. split; [exact Hr |]. rewrite Ht. reflexivity.
Defined.

(** C4. On an ascending transition list and for a non-nil height [h],
    [Get2FPlus1Enabled] returns, without panicking, the flag of the last
    transition at or below [h] that carries a [TwoFPlusOneEnabled] value,
    and [false] when there is no such transition (in particular on an empty
    transition list). *)
Theorem C4_Get2FPlus1Enabled_last_flag (c : Config) (h : Z) :
  ascending (Transitions c) ->
  Get2FPlus1Enabled c (Some h) = Ok (last_2FPlus1 c h) /\
  (filter (carries_2FPlus1 h) (Transitions c) = [] ->
   Get2FPlus1Enabled c (Some h) = Ok false).
Proof.
  intros Hasc.
  assert (E : Get2FPlus1Enabled c (Some h) = Ok (last_2FPlus1 c h)).
  { unfold Get2FPlus1Enabled, getTransitionValue.
    rewrite (transition_loop_ascending _ _ _ _ Hasc). f_equal.
    unfold last_2FPlus1, carries_2FPlus1.
    rewrite <- filter_filter.
    apply (fold_last_writer
             (fun (a : bool) (t : params.Transition) =>
                match params.TwoFPlusOneEnabled t with
                | Some b => b
                | None => a
                end)
             (fun b => b)
             (fun t => match params.TwoFPlusOneEnabled t with
                       | Some _ => true
                       | None => false
                       end)
             flag_of).
    intros s t. unfold flag_of.
    destruct (params.TwoFPlusOneEnabled t); reflexivity. }
  split; [exact E |].
  intros Hnone. rewrite E. unfold last_2FPlus1. rewrite Hnone. reflexivity.
Qed.

Lemma flag_scenario_ascending : ascending (Transitions flag_scenario).
Proof.
  split; simpl.
  - repeat (apply Forall_cons; [discriminate |]). apply Forall_nil.
  - repeat (apply Sorted_cons;
            [| first [apply HdRel_nil
                     | apply HdRel_cons; unfold height_le; simpl; lia]]).
    apply Sorted_nil.
Defined.

Lemma C4_Get2FPlus1Enabled_last_flag_witness :
  Get2FPlus1Enabled flag_scenario (Some 10) = Ok true /\
  Get2FPlus1Enabled flag_scenario (Some 3) = Ok false.
Proof.
  split.
  - apply (proj1 (C4_Get2FPlus1Enabled_last_flag flag_scenario 10
                    flag_scenario_ascending)).
  - apply (proj2 (C4_Get2FPlus1Enabled_last_flag flag_scenario 3
                    flag_scenario_ascending)).
    reflexivity.
Defined.

(** C2 as stated fails: at height 0 over an empty base list the first
    transition is still examined, so a transition at height 0 supplies the
    list although the claim's remaining case promises the empty list. *)
Lemma C2_counterexample :
  GetValidatorsAt genesis_transition_config (Some 0) = Ok [addr_A] /\
  validators_as_claimed genesis_transition_config 0 = [] /\
  GetValidatorsAt genesis_transition_config (Some 0) <>
  Ok (validators_as_claimed genesis_transition_config 0).
Proof.
  split; [reflexivity | split; [reflexivity | discriminate]].
Qed.

(** C2, amended. For a non-nil height [h], [GetValidatorsAt] returns the
    base list when [h = 0] and that list is not empty; at every other
    height, and at height 0 over an empty base list, it examines only the
    first transition and returns that transition's list when its height is
    exactly [h], and the empty list otherwise.  With the transitions
    [{Block: 10, Validators: [A]}; {Block: 20, Validators: [B]}] the answer
    at height 20 is the empty list, not [[B]], and at height 10 it is
    [[A]]. *)
Theorem C2_GetValidatorsAt_first_entry (c : Config) (h : Z) :
  first_block_set c ->
  GetValidatorsAt c (Some h) = Ok (validators_amended c h) /\
  (0 < h -> validators_amended c h = validators_as_claimed c h) /\
  (h = 0 -> Validators c <> [] -> validators_amended c h = Validators c) /\
  GetValidatorsAt validators_scenario (Some 20) = Ok [] /\
  GetValidatorsAt validators_scenario (Some 10) = Ok [addr_A].
Proof.
  intros Hfirst. repeat split.
  - unfold GetValidatorsAt, validators_amended, first_entry_validators,
      GetValidatorsAt_loop, first_block_set in *.
    simpl.
    replace (match h ?= 0 with Lt => -1 | Eq => 0 | Gt => 1 end =? 0)
      with (h =? 0)
      by (unfold Z.eqb at 1; destruct h; reflexivity).
    destruct ((h =? 0) && nonempty (Validators c)); [reflexivity |].
    destruct (Transitions c) as [| t rest]; [reflexivity |].
    destruct (params.Block t) as [b |]; [| congruence].
    simpl.
    replace (match b ?= h with Lt => -1 | Eq => 0 | Gt => 1 end =? 0)
      with (b =? h)
      by (rewrite Z.eqb_compare; destruct (b ?= h); reflexivity).
    destruct (b =? h); reflexivity.
  - intros Hpos. unfold validators_amended, validators_as_claimed.
    destruct ((h =? 0) && nonempty (Validators c)); [reflexivity |].
    replace (0 <? h) with true by (symmetry; apply Z.ltb_lt; exact Hpos).
    reflexivity.
  - intros Hz Hne. subst h. unfold validators_amended. simpl.
    destruct (Validators c); [congruence | reflexivity].
Qed.

Lemma C2_GetValidatorsAt_first_entry_witness :
  GetValidatorsAt genesis_transition_config (Some 0) = Ok [addr_A] /\
  GetValidatorsAt two_step_config (Some 0) = Ok [addr_A] /\
  GetValidatorsAt validators_scenario (Some 10) = Ok [addr_A] /\
  GetValidatorsAt validators_scenario (Some 15) = Ok [].
Proof.
  split; [| split; [| split]].
  - apply (proj1 (C2_GetValidatorsAt_first_entry genesis_transition_config 0
                    ltac:(simpl; discriminate))).
  - apply (proj1 (C2_GetValidatorsAt_first_entry two_step_config 0
                    ltac:(simpl; discriminate))).
  - apply (proj1 (C2_GetValidatorsAt_first_entry validators_scenario 10
                    ltac:(simpl; discriminate))).
  - apply (proj1 (C2_GetValidatorsAt_first_entry validators_scenario 15
                    ltac:(simpl; discriminate))).
Defined.

(** C10. [GetValidatorsAt] calls [blockNumber.Cmp] before it tests
    [blockNumber] against nil, so it panics on a nil height whatever the
    configuration; [GetConfig], [GetValidatorSelectionMode] and
    [Get2FPlus1Enabled] go through the nil test of [getTransitionValue]
    and return the base configuration, the base (or default) mode and
    [false]. *)
Theorem C10_nil_height (c : Config) :
  GetValidatorsAt c None = Panic /\
  GetConfig c None = Ok c /\
  GetValidatorSelectionMode c None =
    Ok (match ValidatorSelectionMode c with
        | Some m => m
        | None => params.BlockHeaderMode
        end) /\
  Get2FPlus1Enabled c None = Ok false.
Proof.
  repeat split.
Qed.

(** ** The proposer policy *)

Section PolicyProperties.

Context {Validator ValidatorSet Sets : Type}.
Variable SortValidators :
  ValidatorSet -> policy.ProposerPolicy Validator ValidatorSet -> Sets -> Sets.

Lemma for_range_SortValidators (l : list ValidatorSet)
    (w : policy.World Validator ValidatorSet Sets) :
  for_range l (policy.call_SortValidators SortValidators) w =
  Ok (tt, policy.Build_World (policy.pol w)
            (fold_left (fun s vs => SortValidators vs (policy.pol w) s) l
                       (policy.sets w))
            (policy.events w ++ map policy.EvSortValidators l)).
Proof.
  revert w. induction l as [| vs l IH]; intros w; simpl.
  - unfold ret. rewrite app_nil_r. destruct w; reflexivity.
  - unfold bindM at 1. unfold policy.call_SortValidators at 1.
    rewrite IH. simpl. rewrite <- app_assoc. reflexivity.
Qed.

Lemma sort_calls_map (l : list ValidatorSet) :
  policy.sort_calls (map policy.EvSortValidators l) = l.
Proof.
  induction l as [| vs l IH]; simpl; [reflexivity | rewrite IH; reflexivity].
Qed.

Lemma skipn_length_app {A : Type} (l tr : list A) :
  skipn (List.length l) (l ++ tr) = tr.
Proof.
  induction l as [| x l IH]; simpl; [reflexivity | exact IH].
Qed.

Lemma takes_lock_map (l : list ValidatorSet) :
  policy.takes_lock (map policy.EvSortValidators l) = false.
Proof.
  induction l as [| vs l IH]; simpl; [reflexivity | exact IH].
Qed.

(** Once a set satisfies a property that every later [SortValidators]
    call keeps, it satisfies it at the end of the pass. *)
Lemma pass_keeps (P : Sets -> Prop)
    (p : policy.ProposerPolicy Validator ValidatorSet)
    (reg : list ValidatorSet) (s : Sets) :
  (forall vs s', P s' -> P (SortValidators vs p s')) ->
  P s ->
  P (fold_left (fun s' vs => SortValidators vs p s') reg s).
Proof.
  intros Hkeep. revert s.
  induction reg as [| vs reg IH]; intros s Hs; simpl; [exact Hs |].
  apply IH, Hkeep, Hs.
Qed.

Lemma pass_sorts (sorted : ValidatorSet -> Sets -> Prop)
    (p : policy.ProposerPolicy Validator ValidatorSet)
    (reg : list ValidatorSet) (s : Sets) :
  (forall vs s', sorted vs (SortValidators vs p s')) ->
  (forall vs vs' s', sorted vs' s' -> sorted vs' (SortValidators vs p s')) ->
  forall vs, In vs reg ->
    sorted vs (fold_left (fun s' vs => SortValidators vs p s') reg s).
Proof.
  intros Hsorts Hkeeps. revert s.
  induction reg as [| x reg IH]; intros s vs Hin; simpl; [contradiction |].
  destruct Hin as [-> | Hin].
  - apply (pass_keeps (sorted vs)); [intros; apply Hkeeps; assumption |].
    apply Hsorts.
  - apply IH, Hin.
Qed.

(** C5. [Use f] returns, whatever the state, with [By] set to [f], the
    registry unchanged, and [SortValidators] called exactly once on each
    entry of the registry, in registry order, each call made after [By]
    was set: the pass over the registry is complete when [Use] returns.
    Hence, for any notion of "sorted" that a [SortValidators] call under
    [f] establishes for its own set and keeps for the others, every
    registered set is sorted when [Use] returns. *)
Theorem C5_Use_sorts_every_registered_set
    (f : policy.ValidatorSortByFunc Validator)
    (w : policy.World Validator ValidatorSet Sets) :
  exists w',
    policy.Use SortValidators f w = Ok (tt, w') /\
    policy.By (policy.pol w') = f /\
    policy.registry (policy.pol w') = policy.registry (policy.pol w) /\
    (exists tr, policy.events w' = policy.events w ++ tr /\
                policy.sort_calls tr = policy.registry (policy.pol w)) /\
    policy.sets w' =
      fold_left (fun s vs => SortValidators vs (policy.pol w') s)
                (policy.registry (policy.pol w)) (policy.sets w) /\
    (forall sorted : ValidatorSet -> Sets -> Prop,
        (forall vs p s, policy.By p = f -> sorted vs (SortValidators vs p s)) ->
        (forall vs vs' p s,
            policy.By p = f -> sorted vs' s ->
            sorted vs' (SortValidators vs p s)) ->
        forall vs, In vs (policy.registry (policy.pol w')) ->
                   sorted vs (policy.sets w')).
Proof.
  unfold policy.Use, bindM, policy.set_By, policy.get_registry.
  simpl. rewrite for_range_SortValidators. simpl.
  eexists. split; [reflexivity |]. simpl.
  split; [reflexivity |]. split; [reflexivity |].
  split; [| split; [reflexivity |]].
  - exists (policy.EvRegistryRead
              :: map policy.EvSortValidators (policy.registry (policy.pol w))).
    split.
    + rewrite <- app_assoc. reflexivity.
    + simpl. apply sort_calls_map.
  - intros sorted Hsorts Hkeeps vs Hin.
    apply pass_sorts.
    + intros vs0 s'. apply Hsorts. reflexivity.
    + intros vs0 vs' s'. apply Hkeeps. reflexivity.
    + exact Hin.
Qed.

(** C6 fails on [Use]. [RegisterValidatorSet] and [ClearRegistry], run on a
    free mutex, take the registry mutex first, release it last and touch
    the registry only in between, and they block while the mutex is held.
    [Use] never takes the mutex: it returns even while the mutex is held by
    another caller, having read the registry and called [SortValidators] on
    every registered set outside any critical section. *)
Theorem C6_Use_does_not_take_the_registry_lock
    (id : policy.ProposerPolicyId) (by_ f : policy.ValidatorSortByFunc Validator)
    (reg : list ValidatorSet) (valSet : ValidatorSet) (s : Sets)
    (log : list (policy.Event ValidatorSet)) (mu : policy.Mutex) :
  let free :=
    policy.Build_World
      (policy.Build_ProposerPolicy id by_ reg (Some policy.Unlocked)) s log in
  let held :=
    policy.Build_World
      (policy.Build_ProposerPolicy id by_ reg (Some policy.Locked)) s log in
  let any :=
    policy.Build_World (policy.Build_ProposerPolicy id by_ reg (Some mu)) s log in
  (exists tr, policy.trace_of (policy.RegisterValidatorSet valSet) free = Some tr /\
              policy.takes_lock tr = true /\
              policy.under_lock false tr = true) /\
  (exists tr, policy.trace_of policy.ClearRegistry free = Some tr /\
              policy.takes_lock tr = true /\
              policy.under_lock false tr = true) /\
  policy.RegisterValidatorSet valSet held = Err Blocks /\
  policy.ClearRegistry held = Err Blocks /\
  (exists tr, policy.trace_of (policy.Use SortValidators f) any = Some tr /\
              policy.takes_lock tr = false /\
              policy.under_lock false tr = false /\
              policy.sort_calls tr = reg).
Proof.
  intros free held any. repeat apply conj.
  - unfold policy.trace_of, policy.RegisterValidatorSet, deferred, bindM.
    simpl. destruct reg as [| vs0 reg']; simpl;
      repeat rewrite <- app_assoc; rewrite skipn_length_app;
      eexists; (split; [reflexivity | split; reflexivity]).
  - unfold policy.trace_of, policy.ClearRegistry, deferred, bindM. simpl.
    repeat rewrite <- app_assoc. rewrite skipn_length_app.
    eexists; (split; [reflexivity | split; reflexivity]).
  - reflexivity.
  - reflexivity.
  - unfold policy.trace_of, policy.Use, bindM, policy.set_By,
      policy.get_registry.
    simpl. rewrite for_range_SortValidators. simpl.
    rewrite <- app_assoc. rewrite skipn_length_app.
    eexists. split; [reflexivity |]. simpl.
    split; [apply takes_lock_map |]. split; [reflexivity |].
    apply sort_calls_map.
Qed.

End PolicyProperties.

(** *** The example implementation *)

Lemma insert_by_ltb_sorted (x : nat) (l : list nat) :
  Sorted le l -> Sorted le (insert_by Nat.ltb x l).
Proof.
  intros Hl. induction Hl as [| y l Hl IH Hhd]; simpl.
  - repeat constructor.
  - destruct (Nat.ltb y x) eqn:E.
    + apply Nat.ltb_lt in E. constructor; [exact IH |].
      destruct l as [| z l]; simpl.
      * constructor. lia.
      * destruct (Nat.ltb z x) eqn:E'; constructor;
          [inversion Hhd; assumption | lia].
    + apply Nat.ltb_ge in E. constructor.
      * constructor; assumption.
      * constructor. exact E.
Qed.

Lemma sort_by_ltb_sorted (l : list nat) : Sorted le (sort_by Nat.ltb l).
Proof.
  induction l as [| x l IH]; simpl; [constructor |].
  apply insert_by_ltb_sorted, IH.
Qed.

Lemma nth_update_slot_same (i : nat) (f : list nat -> list nat)
    (store : list (list nat)) :
  nth i (update_slot i f store) [] = f (nth i store []) \/
  (nth i (update_slot i f store) [] = [] /\ nth i store [] = []).
Proof.
  revert i. induction store as [| m store IH]; intros i.
  - right. destruct i; split; reflexivity.
  - destruct i as [| i]; simpl; [left; reflexivity | apply IH].
Qed.

Lemma nth_update_slot_other (i j : nat) (f : list nat -> list nat)
    (store : list (list nat)) :
  i <> j -> nth j (update_slot i f store) [] = nth j store [].
Proof.
  revert i j. induction store as [| m store IH]; intros i j Hne.
  - destruct i; reflexivity.
  - destruct i as [| i], j as [| j]; simpl; try reflexivity;
      [contradiction | apply IH; congruence].
Qed.

Lemma slots_SortValidators_sorts (vs : nat) (p : policy.ProposerPolicy nat nat)
    (store : list (list nat)) :
  policy.By p = Nat.ltb -> slot_ascending vs (slots_SortValidators vs p store).
Proof.
  intros HBy. unfold slot_ascending, slots_SortValidators. rewrite HBy.
  destruct (nth_update_slot_same vs (sort_by Nat.ltb) store) as [E | [E _]];
    rewrite E; [apply sort_by_ltb_sorted | constructor].
Qed.

Lemma slots_SortValidators_keeps (vs vs' : nat)
    (p : policy.ProposerPolicy nat nat) (store : list (list nat)) :
  policy.By p = Nat.ltb -> slot_ascending vs' store ->
  slot_ascending vs' (slots_SortValidators vs p store).
Proof.
  intros HBy Hs.
  destruct (Nat.eq_dec vs vs') as [<- | Hne].
  - apply slots_SortValidators_sorts, HBy.
  - unfold slot_ascending, slots_SortValidators.
    rewrite nth_update_slot_other by exact Hne. exact Hs.
Qed.

Lemma C5_Use_sorts_every_registered_set_witness :
  exists w',
    policy.Use slots_SortValidators Nat.ltb example_world = Ok (tt, w') /\
    policy.sets w' = [[1; 2; 3]; [5; 4]; [7; 8; 9]]%nat /\
    slot_ascending 0 (policy.sets w') /\
    slot_ascending 2 (policy.sets w').
Proof.
  destruct (C5_Use_sorts_every_registered_set slots_SortValidators Nat.ltb
              example_world) as (w' & Huse & HBy & Hreg & _ & Hsets & Hsorted).
  exists w'. split; [exact Huse |].
  split; [rewrite Hsets; simpl; unfold slots_SortValidators; rewrite HBy;
          reflexivity |].
  split.
  - apply (Hsorted slot_ascending slots_SortValidators_sorts
             slots_SortValidators_keeps).
    rewrite Hreg. simpl. left. reflexivity.
  - apply (Hsorted slot_ascending slots_SortValidators_sorts
             slots_SortValidators_keeps).
    rewrite Hreg. simpl. right. left. reflexivity.
Defined.

(** ** The order on views *)

Lemma big_Cmp_values (a b : Z) :
  exists c, big.Cmp (Some a) (Some b) = Ok c /\
            (c = -1 \/ c = 0 \/ c = 1) /\
            (c < 0 <-> a < b) /\ (c = 0 <-> a = b) /\ (0 < c <-> b < a).
Proof.
  unfold big.Cmp.
  destruct (a ?= b) eqn:E; eexists; (split; [reflexivity |]).
  - apply Z.compare_eq in E. lia.
  - rewrite Z.compare_lt_iff in E. lia.
  - rewrite Z.compare_gt_iff in E. lia.
Qed.

(** [View.Cmp] on views whose fields are set never panics and computes
    the sign of the lexicographic comparison. *)
Lemma View_Cmp_lex (r1 s1 r2 s2 : Z) :
  exists c, View_Cmp (Some (view r1 s1)) (Some (view r2 s2)) = Ok c /\
            (c = -1 \/ c = 0 \/ c = 1) /\
            (c < 0 <-> view_lt r1 s1 r2 s2) /\
            (c = 0 <-> s1 = s2 /\ r1 = r2) /\
            (0 < c <-> view_lt r2 s2 r1 s1).
Proof.
  unfold View_Cmp, view, view_lt. cbn [Round Sequence].
  destruct (big_Cmp_values s1 s2) as (cs & Es & Hs3 & Hslt & Hseq & Hsgt).
  destruct (big_Cmp_values r1 r2) as (cr & Er & Hr3 & Hrlt & Hreq & Hrgt).
  rewrite Es. cbn [bind].
  destruct (cs =? 0) eqn:Ez; cbn [negb].
  - apply Z.eqb_eq in Ez. rewrite Er. cbn [bind].
    destruct (cr =? 0) eqn:Ey; cbn [negb].
    + apply Z.eqb_eq in Ey. exists 0. split; [reflexivity |]. lia.
    + apply Z.eqb_neq in Ey. exists cr. split; [reflexivity |]. lia.
  - apply Z.eqb_neq in Ez. exists cs. split; [reflexivity |]. lia.
Qed.

(** C7. On views whose fields are set, [View.Cmp] returns -1, 0 or +1: it
    is negative exactly when (sequence, round) of the receiver is
    lexicographically below that of the argument, zero exactly when both
    components agree, and positive exactly in the converse case.  Hence
    [Cmp v v = 0], swapping the operands negates the result, and "negative"
    is transitive: a strict total order, sequence first, round second. *)
Theorem C7_View_Cmp_strict_total_order (r1 s1 r2 s2 r3 s3 : Z) :
  let v := Some (view r1 s1) in
  let y := Some (view r2 s2) in
  let z := Some (view r3 s3) in
  (exists c, View_Cmp v y = Ok c /\
             (c = -1 \/ c = 0 \/ c = 1) /\
             (c < 0 <-> view_lt r1 s1 r2 s2) /\
             (c = 0 <-> s1 = s2 /\ r1 = r2) /\
             (0 < c <-> view_lt r2 s2 r1 s1) /\
             View_Cmp y v = Ok (- c)) /\
  View_Cmp v v = Ok 0 /\
  (forall c1 c2, View_Cmp v y = Ok c1 -> View_Cmp y z = Ok c2 ->
                 c1 < 0 -> c2 < 0 ->
                 exists c3, View_Cmp v z = Ok c3 /\ c3 < 0).
Proof.
  intros v y z. subst v y z.
  destruct (View_Cmp_lex r1 s1 r2 s2) as (c & E & H3 & Hlt & Heq & Hgt).
  destruct (View_Cmp_lex r2 s2 r1 s1) as (c' & E' & H3' & Hlt' & Heq' & Hgt').
  destruct (View_Cmp_lex r1 s1 r1 s1) as (c0 & E0 & _ & _ & Heq0 & _).
  destruct (View_Cmp_lex r2 s2 r3 s3) as (d & F & _ & Flt & _ & _).
  destruct (View_Cmp_lex r1 s1 r3 s3) as (e & G & _ & Glt & _ & _).
  split; [| split].
  - exists c. repeat (split; [assumption |]).
    rewrite E'. f_equal.
    clear - H3 H3' Hlt Heq Hgt Hlt' Heq' Hgt'. unfold view_lt in *.
    destruct H3 as [-> | [-> | ->]], H3' as [-> | [-> | ->]];
      try reflexivity; exfalso; intuition lia.
  - rewrite E0. f_equal. apply Heq0. split; reflexivity.
  - intros c1 c2 H1 H2 N1 N2.
    rewrite E in H1. injection H1 as <-.
    rewrite F in H2. injection H2 as <-.
    exists e. split; [exact G |].
    apply Glt. apply Hlt in N1. apply Flt in N2.
    clear - N1 N2. unfold view_lt in *. lia.
Qed.

Lemma C7_View_Cmp_strict_total_order_witness :
  exists c3, View_Cmp (Some (view 4 7)) (Some (view 0 9)) = Ok c3 /\ c3 < 0.
Proof.
  apply (proj2 (proj2 (C7_View_Cmp_strict_total_order 4 7 9 7 0 9)) (-1) (-1));
    [reflexivity | reflexivity | lia | lia].
Defined.

(** ** The wire encoding *)

(** ** Bytes and big-endian integers *)

Lemma byte_to_Z_range (b : byte) : 0 <= rlp.byte_to_Z b < 256.
Proof.
  unfold rlp.byte_to_Z. pose proof (Byte.to_N_bounded b). lia.
Qed.

Lemma byte_of_to_Z (b : byte) : rlp.byte_of_Z (rlp.byte_to_Z b) = b.
Proof.
  unfold rlp.byte_of_Z.
  rewrite Z.mod_small by apply byte_to_Z_range.
  unfold rlp.byte_to_Z. rewrite N2Z.id, Byte.of_to_N. reflexivity.
Qed.

Lemma byte_to_of_Z (z : Z) :
  0 <= z < 256 -> rlp.byte_to_Z (rlp.byte_of_Z z) = z.
Proof.
  intros Hz. unfold rlp.byte_of_Z, rlp.byte_to_Z.
  rewrite Z.mod_small by exact Hz.
  destruct (Byte.of_N (Z.to_N z)) as [b |] eqn:E.
  - apply Byte.to_of_N in E. rewrite E. lia.
  - apply Byte.of_N_None_iff in E. lia.
Qed.

Lemma byte_to_Z_inj (a b : byte) : rlp.byte_to_Z a = rlp.byte_to_Z b -> a = b.
Proof.
  intros E. rewrite <- (byte_of_to_Z a), <- (byte_of_to_Z b), E. reflexivity.
Qed.

Lemma be_value_snoc (bs : list byte) (b : byte) :
  rlp.be_value (bs ++ [b]) = rlp.be_value bs * 256 + rlp.byte_to_Z b.
Proof.
  unfold rlp.be_value. rewrite fold_left_app. reflexivity.
Qed.

Lemma be_value_nonneg (bs : list byte) : 0 <= rlp.be_value bs.
Proof.
  induction bs as [| b bs IH] using rev_ind; [reflexivity |].
  rewrite be_value_snoc. pose proof (byte_to_Z_range b). lia.
Qed.

(** The digits of [z] with enough fuel denote [z]. *)
Lemma le_bytes_value (fuel : nat) (z : Z) :
  0 <= z < 2 ^ Z.of_nat fuel ->
  rlp.be_value (rev (rlp.le_bytes fuel z)) = z.
Proof.
  revert z. induction fuel as [| fuel IH]; intros z Hz.
  - simpl in *. change (2 ^ 0) with 1 in Hz. assert (z = 0) by lia.
    subst. reflexivity.
  - cbn [rlp.le_bytes].
    destruct (z <=? 0) eqn:E.
    + apply Z.leb_le in E. assert (z = 0) by lia. subst. reflexivity.
    + apply Z.leb_gt in E. cbn [rev]. rewrite be_value_snoc.
      rewrite IH.
      * rewrite byte_to_of_Z by (apply Z.mod_pos_bound; lia).
        pose proof (Z.div_mod z 256). lia.
      * split; [apply Z.div_pos; lia |].
        apply Z.div_lt_upper_bound; [lia |].
        rewrite Nat2Z.inj_succ, Z.pow_succ_r in Hz by lia. lia.
Qed.

Lemma putint_value (z : Z) : 0 <= z -> rlp.be_value (rlp.putint z) = z.
Proof.
  intros Hz. unfold rlp.putint. apply le_bytes_value.
  split; [exact Hz |].
  destruct (Z.eq_dec z 0) as [-> | Hnz]; [simpl; lia |].
  rewrite Nat2Z.inj_succ, Z2Nat.id by apply Z.log2_nonneg.
  apply Z.log2_spec. lia.
Qed.

Lemma len_app (a b : list byte) : rlp.len (a ++ b) = rlp.len a + rlp.len b.
Proof. unfold rlp.len. rewrite length_app. lia. Qed.

Lemma len_nonneg (a : list byte) : 0 <= rlp.len a.
Proof. unfold rlp.len. lia. Qed.

Lemma len_cons (x : byte) (a : list byte) : rlp.len (x :: a) = 1 + rlp.len a.
Proof. unfold rlp.len. simpl List.length. lia. Qed.

Lemma be_value_upper (bs : list byte) : rlp.be_value bs < 256 ^ rlp.len bs.
Proof.
  induction bs as [| b bs IH] using rev_ind; [reflexivity |].
  rewrite be_value_snoc, len_app.
  change (rlp.len [b]) with 1.
  rewrite Z.pow_add_r by (try apply len_nonneg; lia).
  pose proof (byte_to_Z_range b). lia.
Qed.

Lemma be_value_cons (b : byte) (bs : list byte) :
  rlp.be_value (b :: bs) = rlp.byte_to_Z b * 256 ^ rlp.len bs + rlp.be_value bs.
Proof.
  induction bs as [| c bs IH] using rev_ind.
  - unfold rlp.be_value. simpl. lia.
  - rewrite app_comm_cons, !be_value_snoc, IH, len_app.
    change (rlp.len [c]) with 1.
    rewrite Z.pow_add_r by (try apply len_nonneg; lia). lia.
Qed.

(** A byte string without leading zero is at least [256 ^ (len - 1)]. *)
Lemma be_value_lower (b : byte) (bs : list byte) :
  rlp.byte_to_Z b <> 0 -> 256 ^ rlp.len bs <= rlp.be_value (b :: bs).
Proof.
  intros Hb. rewrite be_value_cons.
  pose proof (byte_to_Z_range b). pose proof (be_value_nonneg bs).
  assert (0 < 256 ^ rlp.len bs) by (apply Z.pow_pos_nonneg; [lia | apply len_nonneg]).
  nia.
Qed.


Lemma be_value_inj_len (a b : list byte) :
  List.length a = List.length b -> rlp.be_value a = rlp.be_value b -> a = b.
Proof.
  revert b. induction a as [| x a IH] using rev_ind; intros b Hl Hv.
  - destruct b; [reflexivity | discriminate].
  - destruct b as [| y b _] using rev_ind.
    + rewrite length_app in Hl. simpl in Hl. lia.
    + rewrite !length_app in Hl. simpl in Hl.
      rewrite !be_value_snoc in Hv.
      pose proof (byte_to_Z_range x). pose proof (byte_to_Z_range y).
      assert (rlp.be_value a = rlp.be_value b) by lia.
      assert (rlp.byte_to_Z x = rlp.byte_to_Z y) by lia.
      f_equal; [apply IH; [lia | assumption] |].
      f_equal. apply byte_to_Z_inj. assumption.
Qed.

Lemma pow256_lt_inv (m n : Z) : 0 <= m -> 0 <= n -> 256 ^ m < 256 ^ (n + 1) -> m <= n.
Proof.
  intros Hm Hn H.
  destruct (Z_le_gt_dec m n) as [L | G]; [exact L |].
  exfalso.
  assert (256 ^ (n + 1) <= 256 ^ m) by (apply Z.pow_le_mono_r; lia).
  lia.
Qed.

Lemma canonical_value_len (a b : list byte) :
  canonical a -> canonical b -> rlp.be_value a = rlp.be_value b ->
  rlp.len a <= rlp.len b.
Proof.
  intros Ca Cb E.
  destruct a as [| x a]; [apply len_nonneg |].
  simpl in Ca.
  pose proof (be_value_lower x a Ca) as L.
  pose proof (be_value_upper b) as U.
  rewrite len_cons.
  assert (256 ^ rlp.len a < 256 ^ rlp.len b) by lia.
  destruct b as [| y b].
  - change (rlp.len []) with 0 in *. change (256 ^ 0) with 1 in *.
    assert (0 < 256 ^ rlp.len a)
      by (apply Z.pow_pos_nonneg; [lia | apply len_nonneg]).
    lia.
  - rewrite len_cons in *.
    replace (1 + rlp.len b) with (rlp.len b + 1) in H by lia.
    apply pow256_lt_inv in H; try apply len_nonneg. lia.
Qed.

Lemma canonical_inj (a b : list byte) :
  canonical a -> canonical b -> rlp.be_value a = rlp.be_value b -> a = b.
Proof.
  intros Ca Cb E. apply be_value_inj_len; [| exact E].
  pose proof (canonical_value_len a b Ca Cb E).
  pose proof (canonical_value_len b a Cb Ca (eq_sym E)).
  unfold rlp.len in *. lia.
Qed.

Lemma le_bytes_zero (fuel : nat) : rlp.le_bytes fuel 0 = [].
Proof. destruct fuel; reflexivity. Qed.

Lemma le_bytes_last (fuel : nat) (z : Z) :
  0 < z < 2 ^ Z.of_nat fuel ->
  exists bs b, rlp.le_bytes fuel z = bs ++ [b] /\ rlp.byte_to_Z b <> 0.
Proof.
  revert z. induction fuel as [| fuel IH]; intros z Hz.
  - simpl in Hz. change (2 ^ 0) with 1 in Hz. lia.
  - cbn [rlp.le_bytes].
    replace (z <=? 0) with false by (symmetry; apply Z.leb_gt; lia).
    destruct (Z.eq_dec (z / 256) 0) as [E | E].
    + rewrite E, le_bytes_zero.
      exists [], (rlp.byte_of_Z (z mod 256)). split; [reflexivity |].
      rewrite byte_to_of_Z by (apply Z.mod_pos_bound; lia).
      pose proof (Z.div_mod z 256). lia.
    + destruct (IH (z / 256)) as (bs & b & Hbs & Hb).
      * assert (0 <= z / 256) by (apply Z.div_pos; lia).
        split; [lia |].
        apply Z.div_lt_upper_bound; [lia |].
        rewrite Nat2Z.inj_succ, Z.pow_succ_r in Hz by lia. lia.
      * rewrite Hbs. exists (rlp.byte_of_Z (z mod 256) :: bs), b.
        split; [reflexivity | exact Hb].
Qed.

Lemma putint_zero : rlp.putint 0 = [].
Proof. reflexivity. Qed.

Lemma putint_canonical (z : Z) : 0 <= z -> canonical (rlp.putint z).
Proof.
  intros Hz. destruct (Z.eq_dec z 0) as [-> | Hnz]; [exact I |].
  unfold rlp.putint.
  destruct (le_bytes_last (S (Z.to_nat (Z.log2 z))) z) as (bs & b & E & Hb).
  - split; [lia |].
    rewrite Nat2Z.inj_succ, Z2Nat.id by apply Z.log2_nonneg.
    apply Z.log2_spec. lia.
  - rewrite E, rev_app_distr. simpl. exact Hb.
Qed.

(** The minimal bytes of the value of a canonical string are the string. *)
Lemma putint_be_value (bs : list byte) :
  canonical bs -> rlp.putint (rlp.be_value bs) = bs.
Proof.
  intros C. apply canonical_inj; [| exact C |].
  - apply putint_canonical, be_value_nonneg.
  - apply putint_value, be_value_nonneg.
Qed.

Lemma putint_nonempty (z : Z) : 0 < z -> rlp.putint z <> [].
Proof.
  intros Hz E. pose proof (putint_value z ltac:(lia)) as V.
  rewrite E in V. unfold rlp.be_value in V. simpl in V. lia.
Qed.

(** A positive size below [2 ^ 64] takes between 1 and 8 bytes. *)
Lemma putint_len (z : Z) :
  0 < z < 2 ^ 64 -> 1 <= rlp.len (rlp.putint z) <= 8.
Proof.
  intros Hz.
  pose proof (putint_canonical z ltac:(lia)) as C.
  pose proof (putint_value z ltac:(lia)) as V.
  pose proof (putint_nonempty z ltac:(lia)) as N.
  destruct (rlp.putint z) as [| b bs]; [congruence |].
  simpl in C. pose proof (be_value_lower b bs C) as L.
  rewrite len_cons. pose proof (len_nonneg bs).
  split; [lia |].
  assert (256 ^ rlp.len bs < 256 ^ (7 + 1)) by (change (256 ^ (7 + 1)) with (2 ^ 64); lia).
  apply pow256_lt_inv in H0; lia.
Qed.

(** ** Headers *)

Lemma readFull_app (a rest : list byte) :
  rlp.readFull (rlp.len a) (a ++ rest) = Ok (a, rest).
Proof.
  unfold rlp.readFull.
  replace (rlp.len (a ++ rest) <? rlp.len a) with false
    by (symmetry; apply Z.ltb_ge; rewrite len_app; pose proof (len_nonneg rest); lia).
  unfold rlp.len. rewrite Nat2Z.id.
  rewrite firstn_app, Nat.sub_diag, firstn_all, firstn_O, app_nil_r.
  rewrite skipn_app, Nat.sub_diag, skipn_all. reflexivity.
Qed.

Lemma readFull_inv (n : Z) (s buf s' : list byte) :
  0 <= n -> rlp.readFull n s = Ok (buf, s') -> s = buf ++ s' /\ rlp.len buf = n.
Proof.
  unfold rlp.readFull. intros Hn H.
  destruct (rlp.len s <? n) eqn:E; [discriminate |].
  apply Z.ltb_ge in E. injection H as <- <-.
  split; [symmetry; apply firstn_skipn |].
  unfold rlp.len in *. rewrite length_firstn. lia.
Qed.

Lemma readFull_short (n : Z) (s : list byte) :
  rlp.len s < n -> exists e, rlp.readFull n s = Err e.
Proof.
  intros H. unfold rlp.readFull.
  replace (rlp.len s <? n) with true by (symmetry; apply Z.ltb_lt; exact H).
  eexists; reflexivity.
Qed.

Lemma readUint_putint (z : Z) (rest : list byte) :
  0 < z ->
  rlp.readUint (rlp.len (rlp.putint z)) (rlp.putint z ++ rest) = Ok (z, rest).
Proof.
  intros Hz. unfold rlp.readUint. rewrite readFull_app. cbn [bind].
  pose proof (putint_canonical z ltac:(lia)) as C.
  pose proof (putint_value z ltac:(lia)) as V.
  pose proof (putint_nonempty z Hz) as N.
  destruct (rlp.putint z) as [| b bs]; [congruence |].
  simpl in C.
  replace (rlp.byte_to_Z b =? 0) with false
    by (symmetry; apply Z.eqb_neq; exact C).
  rewrite V. reflexivity.
Qed.

Lemma readUint_inv (k : Z) (s s' : list byte) (size : Z) :
  1 <= k -> rlp.readUint k s = Ok (size, s') ->
  0 < size /\ s = rlp.putint size ++ s' /\ rlp.len (rlp.putint size) = k.
Proof.
  intros Hk. unfold rlp.readUint.
  destruct (rlp.readFull k s) as [[buf t] | e] eqn:E; [| discriminate].
  cbn [bind]. apply readFull_inv in E; [| lia]. destruct E as [-> Hl].
  destruct buf as [| b bs]; [change (rlp.len []) with 0 in Hl; lia |].
  destruct (rlp.byte_to_Z b =? 0) eqn:Eb; [discriminate |].
  apply Z.eqb_neq in Eb. intros H. injection H as <- <-.
  assert (C : canonical (b :: bs)) by exact Eb.
  rewrite putint_be_value by exact C.
  split; [| split; [reflexivity | exact Hl]].
  pose proof (be_value_lower b bs Eb).
  assert (0 < 256 ^ rlp.len bs)
    by (apply Z.pow_pos_nonneg; [lia | apply len_nonneg]).
  lia.
Qed.

(** The kind read back from a header. *)
Lemma readKind_head_string (size : Z) (rest : list byte) :
  0 <= size < 2 ^ 64 ->
  rlp.readKind (rlp.head 128 size ++ rest) = Ok (rlp.String size, rest).
Proof.
  intros Hs. unfold rlp.head.
  destruct (size <? 56) eqn:E.
  - apply Z.ltb_lt in E. cbn [app rlp.readKind].
    rewrite byte_to_of_Z by lia.
    replace (128 + size <? 128) with false by ltb_false.
    replace (128 + size <? 184) with true by ltb_true.
    do 2 f_equal. f_equal. lia.
  - apply Z.ltb_ge in E.
    pose proof (putint_len size ltac:(lia)) as L.
    cbn [app rlp.readKind].
    rewrite byte_to_of_Z by lia.
    replace (128 + 55 + rlp.len (rlp.putint size) <? 128) with false by ltb_false.
    replace (128 + 55 + rlp.len (rlp.putint size) <? 184) with false by ltb_false.
    replace (128 + 55 + rlp.len (rlp.putint size) <? 192) with true by ltb_true.
    replace (128 + 55 + rlp.len (rlp.putint size) - 183)
      with (rlp.len (rlp.putint size)) by lia.
    rewrite readUint_putint by lia. cbn [bind].
    replace (size <? 56) with false by ltb_false. reflexivity.
Qed.

Lemma readKind_head_list (size : Z) (rest : list byte) :
  0 <= size < 2 ^ 64 ->
  rlp.readKind (rlp.head 192 size ++ rest) = Ok (rlp.List size, rest).
Proof.
  intros Hs. unfold rlp.head.
  destruct (size <? 56) eqn:E.
  - apply Z.ltb_lt in E. cbn [app rlp.readKind].
    rewrite byte_to_of_Z by lia.
    replace (192 + size <? 128) with false by ltb_false.
    replace (192 + size <? 184) with false by ltb_false.
    replace (192 + size <? 192) with false by ltb_false.
    replace (192 + size <? 248) with true by ltb_true.
    do 2 f_equal. f_equal. lia.
  - apply Z.ltb_ge in E.
    pose proof (putint_len size ltac:(lia)) as L.
    cbn [app rlp.readKind].
    rewrite byte_to_of_Z by lia.
    replace (192 + 55 + rlp.len (rlp.putint size) <? 128) with false by ltb_false.
    replace (192 + 55 + rlp.len (rlp.putint size) <? 184) with false by ltb_false.
    replace (192 + 55 + rlp.len (rlp.putint size) <? 192) with false by ltb_false.
    replace (192 + 55 + rlp.len (rlp.putint size) <? 248) with false by ltb_false.
    replace (192 + 55 + rlp.len (rlp.putint size) - 247)
      with (rlp.len (rlp.putint size)) by lia.
    rewrite readUint_putint by lia. cbn [bind].
    replace (size <? 56) with false by ltb_false. reflexivity.
Qed.

(** What an accepted header was. *)
Lemma readKind_inv (s s' : list byte) (kind : rlp.Kind) :
  rlp.readKind s = Ok (kind, s') ->
  match kind with
  | rlp.Byte b => s = b :: s' /\ rlp.byte_to_Z b < 128
  | rlp.String size => 0 <= size < 2 ^ 64 /\ s = rlp.head 128 size ++ s'
  | rlp.List size => 0 <= size < 2 ^ 64 /\ s = rlp.head 192 size ++ s'
  end.
Proof.
  destruct s as [| b t]; [discriminate |].
  cbn [rlp.readKind].
  pose proof (byte_to_Z_range b) as R.
  destruct (rlp.byte_to_Z b <? 128) eqn:E1.
  { intros H. injection H as <- <-. apply Z.ltb_lt in E1. split; [reflexivity | exact E1]. }
  apply Z.ltb_ge in E1.
  destruct (rlp.byte_to_Z b <? 184) eqn:E2.
  { intros H. injection H as <- <-. apply Z.ltb_lt in E2.
    split; [lia |]. unfold rlp.head.
    replace (rlp.byte_to_Z b - 128 <? 56) with true by ltb_true.
    replace (128 + (rlp.byte_to_Z b - 128)) with (rlp.byte_to_Z b) by lia.
    rewrite byte_of_to_Z. reflexivity. }
  apply Z.ltb_ge in E2.
  destruct (rlp.byte_to_Z b <? 192) eqn:E3.
  { apply Z.ltb_lt in E3.
    destruct (rlp.readUint (rlp.byte_to_Z b - 183) t) as [[size t'] | e] eqn:U;
      [| discriminate].
    cbn [bind]. apply readUint_inv in U; [| lia].
    destruct U as (Hpos & -> & Hl).
    destruct (size <? 56) eqn:E4; [discriminate |].
    apply Z.ltb_ge in E4.
    intros H. injection H as <- <-.
    assert (size < 2 ^ 64).
    { pose proof (be_value_upper (rlp.putint size)) as U.
      rewrite putint_value in U by lia.
      assert (256 ^ rlp.len (rlp.putint size) <= 256 ^ 8)
        by (apply Z.pow_le_mono_r; lia).
      change (256 ^ 8) with (2 ^ 64) in *. lia. }
    split; [lia |]. unfold rlp.head.
    replace (size <? 56) with false by ltb_false.
    rewrite Hl.
    replace (128 + 55 + (rlp.byte_to_Z b - 183)) with (rlp.byte_to_Z b) by lia.
    rewrite byte_of_to_Z. reflexivity. }
  apply Z.ltb_ge in E3.
  destruct (rlp.byte_to_Z b <? 248) eqn:E4.
  { intros H. injection H as <- <-. apply Z.ltb_lt in E4.
    split; [lia |]. unfold rlp.head.
    replace (rlp.byte_to_Z b - 192 <? 56) with true by ltb_true.
    replace (192 + (rlp.byte_to_Z b - 192)) with (rlp.byte_to_Z b) by lia.
    rewrite byte_of_to_Z. reflexivity. }
  apply Z.ltb_ge in E4.
  destruct (rlp.readUint (rlp.byte_to_Z b - 247) t) as [[size t'] | e] eqn:U;
    [| discriminate].
  cbn [bind]. apply readUint_inv in U; [| lia].
  destruct U as (Hpos & -> & Hl).
  destruct (size <? 56) eqn:E5; [discriminate |].
  apply Z.ltb_ge in E5.
  intros H. injection H as <- <-.
  assert (size < 2 ^ 64).
  { pose proof (be_value_upper (rlp.putint size)) as U.
    rewrite putint_value in U by lia.
    assert (256 ^ rlp.len (rlp.putint size) <= 256 ^ 8)
      by (apply Z.pow_le_mono_r; lia).
    change (256 ^ 8) with (2 ^ 64) in *. lia. }
  split; [lia |]. unfold rlp.head.
  replace (size <? 56) with false by ltb_false.
  rewrite Hl.
  replace (192 + 55 + (rlp.byte_to_Z b - 247)) with (rlp.byte_to_Z b) by lia.
  rewrite byte_of_to_Z. reflexivity.
Qed.

(** ** Strings, integers and lists *)

Lemma head_nonempty (offset size : Z) : rlp.head offset size <> [].
Proof. unfold rlp.head. destruct (size <? 56); discriminate. Qed.

Lemma encode_string_nonempty (b : list byte) : rlp.encode_string b <> [].
Proof.
  unfold rlp.encode_string.
  destruct b as [| c [| d b]]; try destruct (rlp.byte_to_Z c <? 128);
    try discriminate;
    (intros E; apply app_eq_nil in E; destruct E as [E _];
     exact (head_nonempty _ _ E)).
Qed.

Lemma encode_list_nonempty (p : list byte) : rlp.encode_list p <> [].
Proof.
  unfold rlp.encode_list. intros E. apply app_eq_nil in E.
  destruct E as [E _]. exact (head_nonempty _ _ E).
Qed.

Lemma len_encode_string (b : list byte) : rlp.len b <= rlp.len (rlp.encode_string b).
Proof.
  unfold rlp.encode_string.
  destruct b as [| c [| d b]]; try destruct (rlp.byte_to_Z c <? 128);
    rewrite ?len_app; try (pose proof (len_nonneg (rlp.head 128 1)));
    try (pose proof (len_nonneg (rlp.head 128 (rlp.len (c :: d :: b)))));
    try (pose proof (len_nonneg (rlp.head 128 (rlp.len []))));
    try lia.
Qed.

Lemma len_encode_list (p : list byte) : rlp.len p <= rlp.len (rlp.encode_list p).
Proof.
  unfold rlp.encode_list. rewrite len_app.
  pose proof (len_nonneg (rlp.head 192 (rlp.len p))). lia.
Qed.

Lemma Kind_of_head_string (size : Z) (rest : list byte) :
  0 <= size < 2 ^ 64 -> size <= rlp.len rest ->
  rlp.Kind_of (rlp.head 128 size ++ rest) = Ok (rlp.String size, rest).
Proof.
  intros Hs Hl. unfold rlp.Kind_of.
  rewrite readKind_head_string by exact Hs. cbn [bind].
  replace (rlp.len rest <? size) with false by ltb_false. reflexivity.
Qed.

Lemma Kind_of_head_list (size : Z) (rest : list byte) :
  0 <= size < 2 ^ 64 -> size <= rlp.len rest ->
  rlp.Kind_of (rlp.head 192 size ++ rest) = Ok (rlp.List size, rest).
Proof.
  intros Hs Hl. unfold rlp.Kind_of.
  rewrite readKind_head_list by exact Hs. cbn [bind].
  replace (rlp.len rest <? size) with false by ltb_false. reflexivity.
Qed.

Lemma Kind_of_inv (s s' : list byte) (kind : rlp.Kind) :
  rlp.Kind_of s = Ok (kind, s') ->
  match kind with
  | rlp.Byte b => s = b :: s' /\ rlp.byte_to_Z b < 128
  | rlp.String size =>
      0 <= size <= rlp.len s' /\ size < 2 ^ 64 /\ s = rlp.head 128 size ++ s'
  | rlp.List size =>
      0 <= size <= rlp.len s' /\ size < 2 ^ 64 /\ s = rlp.head 192 size ++ s'
  end.
Proof.
  unfold rlp.Kind_of.
  destruct (rlp.readKind s) as [[k t] | e] eqn:E; [| discriminate].
  cbn [bind]. apply readKind_inv in E.
  destruct k as [b | size | size].
  - intros H. injection H as <- <-. exact E.
  - destruct (rlp.len t <? size) eqn:L; [discriminate |].
    apply Z.ltb_ge in L. intros H. injection H as <- <-.
    destruct E as [R ->]. repeat split; lia || reflexivity.
  - destruct (rlp.len t <? size) eqn:L; [discriminate |].
    apply Z.ltb_ge in L. intros H. injection H as <- <-.
    destruct E as [R ->]. repeat split; lia || reflexivity.
Qed.

(** *** Lists *)

Lemma List_of_encode_list (payload rest : list byte) :
  rlp.len payload < 2 ^ 64 ->
  rlp.List_of (rlp.encode_list payload ++ rest) = Ok (payload, rest).
Proof.
  intros Hs. unfold rlp.List_of, rlp.encode_list.
  rewrite <- app_assoc.
  rewrite Kind_of_head_list.
  - cbn [bind]. apply readFull_app.
  - pose proof (len_nonneg payload). lia.
  - rewrite len_app. pose proof (len_nonneg rest). lia.
Qed.

Lemma List_of_inv (s payload s' : list byte) :
  rlp.List_of s = Ok (payload, s') ->
  s = rlp.encode_list payload ++ s' /\ rlp.len payload < 2 ^ 64.
Proof.
  unfold rlp.List_of.
  destruct (rlp.Kind_of s) as [[k t] | e] eqn:E; [| discriminate].
  cbn [bind]. apply Kind_of_inv in E.
  destruct k as [b | size | size]; try discriminate.
  destruct E as (R & B & ->).
  intros H. apply readFull_inv in H; [| lia].
  destruct H as [-> L]. unfold rlp.encode_list.
  rewrite <- app_assoc, L. split; [reflexivity | lia].
Qed.

(** *** Integers *)

Lemma be_value_single (c : byte) : rlp.be_value [c] = rlp.byte_to_Z c.
Proof. unfold rlp.be_value. simpl. lia. Qed.

Lemma decodeBigInt_string (bs rest : list byte) :
  canonical bs -> rlp.len bs < 2 ^ 64 ->
  rlp.decodeBigInt (rlp.encode_string bs ++ rest) = Ok (rlp.be_value bs, rest).
Proof.
  intros C Hs. unfold rlp.decodeBigInt, rlp.encode_string.
  destruct bs as [| c [| d bs]]; cbv beta iota.
  - change (rlp.len []) with 0. rewrite app_nil_r.
    rewrite Kind_of_head_string; [| lia | apply len_nonneg].
    reflexivity.
  - simpl in C. destruct (rlp.byte_to_Z c <? 128) eqn:E.
    + cbn [app]. unfold rlp.Kind_of. cbn [rlp.readKind]. rewrite E.
      cbn [bind].
      replace (rlp.byte_to_Z c =? 0) with false
        by (symmetry; apply Z.eqb_neq; exact C).
      rewrite be_value_single. reflexivity.
    + rewrite <- app_assoc.
      rewrite Kind_of_head_string;
        [| lia | rewrite len_app; change (rlp.len [c]) with 1;
                 pose proof (len_nonneg rest); lia].
      cbn [bind]. cbn [Z.eqb].
      change 1 with (rlp.len [c]) at 1. rewrite readFull_app. cbn [bind].
      rewrite E. cbn [Z.eqb andb].
      replace (rlp.byte_to_Z c =? 0) with false
        by (symmetry; apply Z.eqb_neq; exact C).
      reflexivity.
  - simpl in C. rewrite <- app_assoc.
    pose proof (len_nonneg bs) as Hn.
    assert (L2 : rlp.len (c :: d :: bs) = 2 + rlp.len bs)
      by (rewrite !len_cons; lia).
    rewrite Kind_of_head_string;
      [| lia | rewrite len_app; pose proof (len_nonneg rest); lia].
    cbn [bind].
    replace (rlp.len (c :: d :: bs) =? 0) with false
      by (symmetry; apply Z.eqb_neq; lia).
    rewrite readFull_app. cbn [bind].
    replace (rlp.len (c :: d :: bs) =? 1) with false
      by (symmetry; apply Z.eqb_neq; lia).
    cbn [andb].
    replace (rlp.byte_to_Z c =? 0) with false
      by (symmetry; apply Z.eqb_neq; exact C).
    reflexivity.
Qed.

Lemma decodeBigInt_inv (s s' : list byte) (z : Z) :
  rlp.decodeBigInt s = Ok (z, s') ->
  0 <= z /\ s = rlp.encode_string (rlp.putint z) ++ s'.
Proof.
  unfold rlp.decodeBigInt.
  destruct (rlp.Kind_of s) as [[k t] | e] eqn:E; [| discriminate].
  cbn [bind]. apply Kind_of_inv in E.
  destruct k as [b | size | size]; try discriminate.
  - destruct E as [-> Hb].
    destruct (rlp.byte_to_Z b =? 0) eqn:Z0; [discriminate |].
    apply Z.eqb_neq in Z0. intros H. injection H as <- <-.
    pose proof (byte_to_Z_range b).
    split; [lia |].
    rewrite <- be_value_single, putint_be_value by exact Z0.
    unfold rlp.encode_string.
    replace (rlp.byte_to_Z b <? 128) with true by ltb_true. reflexivity.
  - destruct E as (R & B & ->).
    destruct (size =? 0) eqn:Z0.
    + apply Z.eqb_eq in Z0. subst size. intros H. injection H as <- <-.
      split; [lia | reflexivity].
    + apply Z.eqb_neq in Z0.
      destruct (rlp.readFull size t) as [[buf u] | e] eqn:F; [| discriminate].
      cbn [bind]. apply readFull_inv in F; [| lia]. destruct F as [-> L].
      destruct buf as [| c buf]; [change (rlp.len []) with 0 in L; lia |].
      destruct ((size =? 1) && (rlp.byte_to_Z c <? 128)) eqn:C1; [discriminate |].
      destruct (rlp.byte_to_Z c =? 0) eqn:C0; [discriminate |].
      apply Z.eqb_neq in C0. intros H. injection H as <- <-.
      split; [apply be_value_nonneg |].
      rewrite putint_be_value by exact C0.
      assert (Enc : rlp.encode_string (c :: buf) = rlp.head 128 size ++ c :: buf).
      { rewrite <- L. unfold rlp.encode_string.
        destruct buf as [| d buf]; [| reflexivity].
        change (rlp.len [c]) with 1 in *. subst size.
        rewrite Z.eqb_refl in C1. cbn [andb] in C1. rewrite C1.
        reflexivity. }
      rewrite Enc, <- app_assoc. reflexivity.
Qed.

Lemma encode_bigInt_value (z : Z) (rest : list byte) :
  0 <= z -> rlp.len (rlp.encode_string (rlp.putint z)) < 2 ^ 64 ->
  rlp.encode_bigInt (Some z) = Ok (rlp.encode_string (rlp.putint z)) /\
  rlp.decodeBigInt (rlp.encode_string (rlp.putint z) ++ rest) = Ok (z, rest).
Proof.
  intros Hz Hs. split.
  - unfold rlp.encode_bigInt.
    replace (z <? 0) with false by ltb_false. reflexivity.
  - rewrite decodeBigInt_string.
    + rewrite putint_value by exact Hz. reflexivity.
    + apply putint_canonical, Hz.
    + pose proof (len_encode_string (rlp.putint z)). lia.
Qed.

(** *** Byte arrays *)

Lemma decodeByteArray_string (n : Z) (b rest : list byte) :
  2 <= n < 2 ^ 64 -> rlp.len b = n ->
  rlp.decodeByteArray n (rlp.encode_string b ++ rest) = Ok (b, rest).
Proof.
  intros Hn L. unfold rlp.decodeByteArray, rlp.encode_string.
  destruct b as [| c [| d b]];
    [change (rlp.len []) with 0 in L; lia
    | change (rlp.len [c]) with 1 in L; lia |].
  rewrite <- app_assoc.
  rewrite Kind_of_head_string;
    [| lia | rewrite len_app; pose proof (len_nonneg rest); lia].
  cbn [bind]. rewrite L.
  rewrite Z.ltb_irrefl. rewrite <- L. apply readFull_app.
Qed.

Lemma decodeByteArray_inv (n : Z) (s b s' : list byte) :
  2 <= n -> rlp.decodeByteArray n s = Ok (b, s') ->
  rlp.len b = n /\ s = rlp.encode_string b ++ s'.
Proof.
  intros Hn. unfold rlp.decodeByteArray.
  destruct (rlp.Kind_of s) as [[k t] | e] eqn:E; [| discriminate].
  cbn [bind]. apply Kind_of_inv in E.
  destruct k as [c | size | size]; try discriminate.
  destruct E as (R & B & ->).
  destruct (n <? size) eqn:E1; [discriminate |].
  destruct (size <? n) eqn:E2; [discriminate |].
  apply Z.ltb_ge in E1, E2. assert (size = n) by lia. subst size.
  intros H. apply readFull_inv in H; [| lia]. destruct H as [-> L].
  split; [exact L |].
  assert (Enc : rlp.encode_string b = rlp.head 128 n ++ b).
  { unfold rlp.encode_string.
    destruct b as [| c [| d b]];
      [change (rlp.len []) with 0 in L; lia
      | change (rlp.len [c]) with 1 in L; lia |].
    rewrite L. reflexivity. }
  rewrite Enc, <- app_assoc. reflexivity.
Qed.

(** ** Codecs of the field types *)

Lemma wire_size_app_l (a b : list byte) : wire_size (a ++ b) -> wire_size a.
Proof.
  unfold wire_size. rewrite len_app. pose proof (len_nonneg b). lia.
Qed.

Lemma wire_size_app_r (a b : list byte) : wire_size (a ++ b) -> wire_size b.
Proof.
  unfold wire_size. rewrite len_app. pose proof (len_nonneg a). lia.
Qed.

Lemma bigInt_codec :
  exact_codec (fun z => 0 <= z) (fun z => rlp.encode_bigInt (Some z))
    rlp.decodeBigInt.
Proof.
  split.
  - intros z bs rest Hz E W. unfold rlp.encode_bigInt in E.
    replace (z <? 0) with false in E by ltb_false.
    injection E as <-.
    apply (encode_bigInt_value z rest Hz W).
  - intros s z s' D. apply decodeBigInt_inv in D. destruct D as [Hz ->].
    split; [exact Hz |]. eexists. split; [| reflexivity].
    unfold rlp.encode_bigInt.
    replace (z <? 0) with false by ltb_false. reflexivity.
  - intros z bs E. unfold rlp.encode_bigInt in E.
    destruct (z <? 0); [discriminate |]. injection E as <-.
    apply encode_string_nonempty.
Qed.

Lemma hash_codec :
  exact_codec (fun b : common.Hash => List.length b = common.HashLength)
    rlp.encode_bytes (rlp.decodeByteArray (Z.of_nat common.HashLength)).
Proof.
  split.
  - intros b bs rest Hb E W. injection E as <-.
    apply decodeByteArray_string.
    + unfold common.HashLength. simpl. lia.
    + unfold rlp.len. rewrite Hb. reflexivity.
  - intros s b s' D. apply decodeByteArray_inv in D;
      [| unfold common.HashLength; simpl; lia].
    destruct D as [L ->]. split.
    + unfold rlp.len in L. lia.
    + eexists. split; reflexivity.
  - intros b bs E. injection E as <-. apply encode_string_nonempty.
Qed.

(** ** Two-field records *)

Lemma field_nonempty {A : Type} (d : rlp.Stream -> result rlp.error (A * rlp.Stream))
    (p : rlp.Stream) : p <> [] -> rlp.field d p = d p.
Proof. destruct p; [congruence | reflexivity]. Qed.

Lemma field_inv {A : Type} (d : rlp.Stream -> result rlp.error (A * rlp.Stream))
    (p : rlp.Stream) (r : A * rlp.Stream) : rlp.field d p = Ok r -> d p = Ok r.
Proof. destruct p; [discriminate | exact (fun H => H)]. Qed.

Section Record2.

Context {A B T : Type}.
Variable validA : A -> Prop.
Variable encA : A -> result rlp.error (list byte).
Variable decA : rlp.Stream -> result rlp.error (A * rlp.Stream).
Variable validB : B -> Prop.
Variable encB : B -> result rlp.error (list byte).
Variable decB : rlp.Stream -> result rlp.error (B * rlp.Stream).
Variable mk : A -> B -> T.
Hypothesis codecA : exact_codec validA encA decA.
Hypothesis codecB : exact_codec validB encB decB.

Lemma record2_decodes (a : A) (b : B) (bs rest : list byte) :
  validA a -> validB b ->
  encode_record2 encA encB a b = Ok bs -> wire_size bs ->
  decode_record2 decA decB mk (bs ++ rest) = Ok (mk a b, rest).
Proof.
  intros Va Vb E W. unfold encode_record2 in E.
  destruct (encA a) as [ea | e] eqn:Ea; [| discriminate].
  destruct (encB b) as [eb | e] eqn:Eb; [| discriminate].
  cbn [bind] in E. injection E as <-.
  assert (Wp : wire_size (ea ++ eb)).
  { unfold wire_size in *. pose proof (len_encode_list (ea ++ eb)). lia. }
  unfold decode_record2.
  rewrite List_of_encode_list by exact Wp. cbn [bind].
  rewrite field_nonempty.
  2:{ intros N. apply app_eq_nil in N. destruct N as [N _].
      exact (encoding_nonempty codecA a ea Ea N). }
  rewrite (decodes_encoding codecA a ea eb Va Ea (wire_size_app_l _ _ Wp)).
  cbn [bind].
  rewrite field_nonempty by exact (encoding_nonempty codecB b eb Eb).
  rewrite <- (app_nil_r eb) at 1.
  rewrite (decodes_encoding codecB b eb [] Vb Eb (wire_size_app_r _ _ Wp)).
  reflexivity.
Qed.

Lemma record2_accepts (s s' : list byte) (t : T) :
  decode_record2 decA decB mk s = Ok (t, s') ->
  exists a b bs,
    t = mk a b /\ validA a /\ validB b /\
    encode_record2 encA encB a b = Ok bs /\ s = bs ++ s'.
Proof.
  unfold decode_record2.
  destruct (rlp.List_of s) as [[payload u] | e] eqn:L; [| discriminate].
  cbn [bind]. apply List_of_inv in L. destruct L as [-> Wp].
  destruct (rlp.field decA payload) as [[a p1] | e] eqn:Fa; [| discriminate].
  cbn [bind]. apply field_inv in Fa.
  destruct (rlp.field decB p1) as [[b p2] | e] eqn:Fb; [| discriminate].
  cbn [bind]. apply field_inv in Fb.
  destruct p2 as [| x p2]; [| discriminate].
  cbn [rlp.ListEnd bind]. intros H. injection H as <- <-.
  apply (accepts_only_encodings codecA) in Fa.
  destruct Fa as (Va & ea & Ea & ->).
  apply (accepts_only_encodings codecB) in Fb.
  destruct Fb as (Vb & eb & Eb & ->).
  exists a, b, (rlp.encode_list (ea ++ eb)).
  rewrite app_nil_r.
  split; [reflexivity |]. split; [exact Va |]. split; [exact Vb |].
  split; [| reflexivity].
  unfold encode_record2. rewrite Ea, Eb. reflexivity.
Qed.

Lemma record2_nonempty (a : A) (b : B) (bs : list byte) :
  encode_record2 encA encB a b = Ok bs -> bs <> [].
Proof.
  unfold encode_record2.
  destruct (encA a); [| discriminate].
  destruct (encB b); [| discriminate].
  cbn [bind]. intros H. injection H as <-. apply encode_list_nonempty.
Qed.

End Record2.

(** ** A truncated encoding is rejected *)

Section Truncation.

Context {T : Type}.
Variable valid : T -> Prop.
Variable enc : T -> result rlp.error (list byte).
Variable dec : rlp.Stream -> result rlp.error (T * rlp.Stream).
Hypothesis codec : exact_codec valid enc dec.

Lemma truncated_rejected (x : T) (bs s : list byte) :
  valid x -> enc x = Ok bs -> wire_size bs -> truncated s bs ->
  exists e, dec s = Err e.
Proof.
  intros V E W (tail & Ht & Hbs).
  destruct (dec s) as [[y s'] | e] eqn:D; [| exists e; reflexivity].
  exfalso.
  apply (accepts_only_encodings codec) in D.
  destruct D as (Vy & bs' & Ey & ->).
  rewrite <- app_assoc in Hbs.
  assert (W' : wire_size bs') by (rewrite Hbs in W; exact (wire_size_app_l _ _ W)).
  pose proof (decodes_encoding codec y bs' (s' ++ tail) Vy Ey W') as D1.
  pose proof (decodes_encoding codec x bs [] V E W) as D2.
  rewrite app_nil_r, Hbs, D1 in D2.
  injection D2 as _ N. apply app_eq_nil in N. destruct N as [_ N].
  exact (Ht N).
Qed.

End Truncation.

(** ** The envelopes *)

Lemma View_codec : exact_codec valid_View View_EncodeRLP decode_view_struct.
Proof.
  split.
  - intros v bs rest (r & s & -> & Hr & Hs) E W.
    exact (record2_decodes _ _ _ _ _ _ view bigInt_codec bigInt_codec
             r s bs rest Hr Hs E W).
  - intros s v s' D.
    destruct (record2_accepts _ _ _ _ _ _ view bigInt_codec bigInt_codec
                s s' v D) as (r & q & bs & -> & Hr & Hq & E & ->).
    split; [exists r, q; repeat split; assumption |].
    exists bs. split; [exact E | reflexivity].
  - intros v bs E. unfold View_EncodeRLP in E.
    destruct (rlp.encode_bigInt (Round v)); [| discriminate].
    destruct (rlp.encode_bigInt (Sequence v)); [| discriminate].
    cbn [bind] in E. injection E as <-. apply encode_list_nonempty.
Qed.

(** [DecodeRLP] assigns the decoded fields on success and nothing on
    failure. *)
Lemma View_DecodeRLP_eq (s : rlp.Stream) (v0 : View) :
  View_DecodeRLP s v0 =
  match decode_view_struct s with
  | Ok (w, s') => (None, w, s')
  | Err e => (Some e, v0, s)
  end.
Proof.
  unfold View_DecodeRLP.
  destruct (decode_view_struct s) as [[[r q] s'] | e]; reflexivity.
Qed.

Lemma Subject_DecodeRLP_eq (s : rlp.Stream) (b0 : Subject.t) :
  Subject_DecodeRLP s b0 =
  match decode_subject_struct s with
  | Ok (w, s') => (None, w, s')
  | Err e => (Some e, b0, s)
  end.
Proof.
  unfold Subject_DecodeRLP.
  destruct (decode_subject_struct s) as [[[v d] s'] | e]; reflexivity.
Qed.

Lemma View_ptr_codec :
  exact_codec valid_View_ptr encode_View_ptr decode_View_ptr.
Proof.
  split.
  - intros o bs rest (v & -> & V) E W. unfold decode_View_ptr.
    rewrite View_DecodeRLP_eq.
    rewrite (decodes_encoding View_codec v bs rest V E W). reflexivity.
  - intros s o s' D. unfold decode_View_ptr in D.
    rewrite View_DecodeRLP_eq in D.
    destruct (decode_view_struct s) as [[w t] | e] eqn:Dv; [| discriminate].
    injection D as <- <-.
    apply (accepts_only_encodings View_codec) in Dv.
    destruct Dv as (V & bs & E & ->).
    split; [exists w; split; [reflexivity | exact V] |].
    exists bs. split; [exact E | reflexivity].
  - intros [v |] bs E.
    + exact (encoding_nonempty View_codec v bs E).
    + injection E as <-. discriminate.
Qed.

Lemma Subject_codec :
  exact_codec valid_Subject Subject_EncodeRLP decode_subject_struct.
Proof.
  split.
  - intros b bs rest [Vv Vd] E W. destruct b as [v d].
    exact (record2_decodes _ _ _ _ _ _ Subject.Build_t View_ptr_codec hash_codec
             v d bs rest Vv Vd E W).
  - intros s b s' D.
    destruct (record2_accepts _ _ _ _ _ _ Subject.Build_t View_ptr_codec
                hash_codec s s' b D) as (v & d & bs & -> & Vv & Vd & E & ->).
    split; [split; assumption |].
    exists bs. split; [exact E | reflexivity].
  - intros b bs E.
    exact (record2_nonempty encode_View_ptr rlp.encode_bytes _ _ bs E).
Qed.

Section PreprepareProperties.

Context {Block : Type}.
Variable Block_EncodeRLP : Block -> result rlp.error (list byte).
Variable Block_DecodeRLP : rlp.Stream -> result rlp.error (Block * rlp.Stream).
Hypothesis Block_codec :
  exact_codec (fun _ : Block => True) Block_EncodeRLP Block_DecodeRLP.

Lemma Proposal_codec :
  exact_codec (fun p : option Block => exists blk, p = Some blk)
    (encode_Proposal Block_EncodeRLP) (decode_Block_ptr Block_DecodeRLP).
Proof.
  split.
  - intros p bs rest (blk & ->) E W. unfold decode_Block_ptr.
    rewrite (decodes_encoding Block_codec blk bs rest I E W). reflexivity.
  - intros s p s' D. unfold decode_Block_ptr in D.
    destruct (Block_DecodeRLP s) as [[blk t] | e] eqn:Db; [| discriminate].
    cbn [bind] in D. injection D as <- <-.
    apply (accepts_only_encodings Block_codec) in Db.
    destruct Db as (_ & bs & E & ->).
    split; [exists blk; reflexivity |].
    exists bs. split; [exact E | reflexivity].
  - intros [blk |] bs E.
    + exact (encoding_nonempty Block_codec blk bs E).
    + injection E as <-. discriminate.
Qed.

Lemma Preprepare_codec :
  exact_codec valid_Preprepare (Preprepare_EncodeRLP Block_EncodeRLP)
    (decode_preprepare_struct Block_DecodeRLP).
Proof.
  split.
  - intros b bs rest [Vv Vp] E W. destruct b as [v p].
    exact (record2_decodes _ _ _ _ _ _ Preprepare.Build_t View_ptr_codec
             Proposal_codec v p bs rest Vv Vp E W).
  - intros s b s' D.
    destruct (record2_accepts _ _ _ _ _ _ Preprepare.Build_t View_ptr_codec
                Proposal_codec s s' b D)
      as (v & p & bs & -> & Vv & Vp & E & ->).
    split; [split; assumption |].
    exists bs. split; [exact E | reflexivity].
  - intros b bs E.
    exact (record2_nonempty encode_View_ptr (encode_Proposal Block_EncodeRLP)
             _ _ bs E).
Qed.

Lemma Preprepare_DecodeRLP_eq (s : rlp.Stream) (b0 : Preprepare.t Block) :
  Preprepare_DecodeRLP Block_DecodeRLP s b0 =
  match decode_preprepare_struct Block_DecodeRLP s with
  | Ok (w, s') => (None, w, s')
  | Err e => (Some e, b0, s)
  end.
Proof.
  unfold Preprepare_DecodeRLP.
  destruct (decode_preprepare_struct Block_DecodeRLP s) as [[[v p] s'] | e];
    reflexivity.
Qed.

End PreprepareProperties.

Lemma number_block_codec :
  exact_codec (fun _ : N => True) number_block_EncodeRLP number_block_DecodeRLP.
Proof.
  split.
  - intros n bs rest _ E W. unfold number_block_EncodeRLP in E.
    destruct (n <? 2 ^ 64)%N eqn:B; [| discriminate].
    apply N.ltb_lt in B.
    unfold number_block_DecodeRLP.
    rewrite (decodes_encoding bigInt_codec (Z.of_N n) bs rest
               (N2Z.is_nonneg n) E W).
    cbn [bind].
    replace (Z.of_N n <? 2 ^ 64) with true
      by (symmetry; apply Z.ltb_lt; change (2 ^ 64) with (Z.of_N (2 ^ 64)); lia).
    rewrite N2Z.id. reflexivity.
  - intros s n s' D. unfold number_block_DecodeRLP in D.
    destruct (rlp.decodeBigInt s) as [[z t] | e] eqn:Dz; [| discriminate].
    cbn [bind] in D.
    destruct (z <? 2 ^ 64) eqn:B; [| discriminate].
    apply Z.ltb_lt in B. injection D as <- <-.
    apply (accepts_only_encodings bigInt_codec) in Dz.
    destruct Dz as (Hz & bs & E & ->).
    split; [exact I |]. exists bs. split; [| reflexivity].
    unfold number_block_EncodeRLP.
    replace (Z.to_N z <? 2 ^ 64)%N with true
      by (symmetry; apply N.ltb_lt; change (2 ^ 64)%N with (Z.to_N (2 ^ 64)); lia).
    rewrite Z2N.id by exact Hz. exact E.
  - intros n bs E. unfold number_block_EncodeRLP in E.
    destruct (n <? 2 ^ 64)%N; [| discriminate].
    exact (encoding_nonempty bigInt_codec (Z.of_N n) bs E).
Qed.

(** ** Decoding errors *)

Section StrictDecoder.

Context {T : Type}.
Variable valid : T -> Prop.
Variable enc : T -> result rlp.error (list byte).
Variable dec : rlp.Stream -> result rlp.error (T * rlp.Stream).
Variable DecodeRLP : rlp.Stream -> T -> option rlp.error * T * rlp.Stream.
Hypothesis codec : exact_codec valid enc dec.
Hypothesis DecodeRLP_eq :
  forall s x0,
    DecodeRLP s x0 =
    match dec s with
    | Ok (w, s') => (None, w, s')
    | Err e => (Some e, x0, s)
    end.

Lemma DecodeRLP_roundtrip (x x0 : T) (bs rest : list byte) :
  valid x -> enc x = Ok bs -> wire_size bs ->
  DecodeRLP (bs ++ rest) x0 = (None, x, rest).
Proof.
  intros V E W. rewrite DecodeRLP_eq.
  rewrite (decodes_encoding codec x bs rest V E W). reflexivity.
Qed.

Lemma strict_decoder_of_codec : strict_decoder valid enc DecodeRLP.
Proof.
  unfold strict_decoder, returned_error, receiver_after.
  split; [| split; [| split]].
  - intros s x0. rewrite DecodeRLP_eq.
    destruct (dec s) as [[w s'] | e]; simpl; [congruence | reflexivity].
  - intros s x0 W. rewrite DecodeRLP_eq. split.
    + destruct (dec s) as [[w s'] | e] eqn:D; simpl; [| discriminate].
      intros _. apply (accepts_only_encodings codec) in D.
      destruct D as (V & bs & E & ->). exists w, bs, s'.
      repeat split; assumption.
    + intros (x & bs & rest & V & E & ->).
      rewrite (decodes_encoding codec x bs rest V E (wire_size_app_l _ _ W)).
      reflexivity.
  - intros s x0 x bs rest W V E ->.
    apply DecodeRLP_roundtrip; [exact V | exact E |].
    exact (wire_size_app_l _ _ W).
  - intros s x0 x bs V E W Tr.
    destruct (truncated_rejected valid enc dec codec x bs s V E W Tr) as [e D].
    rewrite DecodeRLP_eq, D. simpl. discriminate.
Qed.

End StrictDecoder.


Section Envelopes.

Context {Block : Type}.
Variable Block_EncodeRLP : Block -> result rlp.error (list byte).
Variable Block_DecodeRLP : rlp.Stream -> result rlp.error (Block * rlp.Stream).
Hypothesis Block_codec :
  exact_codec (fun _ : Block => True) Block_EncodeRLP Block_DecodeRLP.


(** C9. [DecodeRLP] on [View], [Preprepare] and [Subject] is strict: when
    it returns an error the receiver is left as it was; it returns no
    error exactly when the value ahead on the stream is the encoding of a
    valid value of the type, that is a well-formed ordered record of its
    fields, and the receiver then holds that value; every truncated
    encoding is refused with an error. *)
Theorem C9_malformed_input_is_rejected :
  strict_decoder valid_View View_EncodeRLP View_DecodeRLP /\
  strict_decoder valid_Preprepare (Preprepare_EncodeRLP Block_EncodeRLP)
    (Preprepare_DecodeRLP Block_DecodeRLP) /\
  strict_decoder valid_Subject Subject_EncodeRLP Subject_DecodeRLP.
Proof.
  split; [| split].
  - exact (strict_decoder_of_codec _ _ _ _ View_codec View_DecodeRLP_eq).
  - exact (strict_decoder_of_codec _ _ _ _
             (Preprepare_codec _ _ Block_codec)
             (Preprepare_DecodeRLP_eq Block_DecodeRLP)).
  - exact (strict_decoder_of_codec _ _ _ _ Subject_codec Subject_DecodeRLP_eq).
Qed.

End Envelopes.

Lemma example_view_valid : valid_View (view 1 1024).
Proof. exists 1, 1024. repeat split; lia. Defined.


Lemma C9_malformed_input_is_rejected_witness :
  returned_error (View_DecodeRLP [xc4; x01; x82; x04] (view 9 9)) <> None /\
  receiver_after (View_DecodeRLP [xc4; x01; x82; x04] (view 9 9)) = view 9 9 /\
  returned_error
    (Preprepare_DecodeRLP number_block_DecodeRLP
       [xc6; xc4; x01; x82; x04; x00]
       {| Preprepare.View := None; Preprepare.Proposal := None |}) <> None.
Proof.
  pose proof (C9_malformed_input_is_rejected number_block_EncodeRLP
                number_block_DecodeRLP number_block_codec)
    as ((HVkeep & _ & _ & HVtrunc) & (_ & _ & _ & HPtrunc) & _).
  assert (Tv : returned_error (View_DecodeRLP [xc4; x01; x82; x04] (view 9 9))
               <> None).
  { apply (HVtrunc _ _ (view 1 1024) [xc4; x01; x82; x04; x00]).
    - exact example_view_valid.
    - reflexivity.
    - unfold wire_size. vm_compute. reflexivity.
    - exists [x00]. split; [discriminate | reflexivity]. }
  split; [exact Tv | split].
  - apply HVkeep. exact Tv.
  - apply (HPtrunc _ _ example_preprepare [xc6; xc4; x01; x82; x04; x00; x07]).
    + split; [exists (view 1 1024); split; [reflexivity | exact example_view_valid]
             | exists 7%N; reflexivity].
    + reflexivity.
    + unfold wire_size. vm_compute. reflexivity.
    + exists [x07]. split; [discriminate | reflexivity].
Defined.

(** * Further properties *)

(** ** More on the resolver *)

(** The loop visits the longest prefix of applicable transitions and then
    stops at a transition above [h], whatever follows it. *)
Lemma transition_loop_stops {A : Type} (ts1 ts2 : list params.Transition)
    (t : params.Transition) (b h : Z)
    (callback : params.Transition -> A -> A) (acc : A) :
  Forall (fun u => applies_at h u = true) ts1 ->
  params.Block t = Some b -> h < b ->
  transition_loop (ts1 ++ t :: ts2) (Some h) callback acc =
  Ok (fold_left (fun a u => callback u a) ts1 acc).
Proof.
  intros Hall Hb Hlt. revert acc.
  induction Hall as [| u ts1 Hu _ IH]; intros acc; simpl.
  - rewrite Hb. simpl.
    replace (b ?= h) with Gt by (symmetry; apply Z.compare_gt_iff; lia).
    reflexivity.
  - unfold applies_at in Hu.
    destruct (params.Block u) as [bu |]; [| discriminate].
    apply Z.leb_le in Hu. simpl.
    destruct (bu ?= h) eqn:E; simpl.
    + apply IH.
    + apply IH.
    + rewrite Z.compare_gt_iff in E. lia.
Qed.

Lemma transition_loop_all {A : Type} (ts : list params.Transition) (h : Z)
    (callback : params.Transition -> A -> A) (acc : A) :
  Forall (fun u => applies_at h u = true) ts ->
  transition_loop ts (Some h) callback acc =
  Ok (fold_left (fun a u => callback u a) ts acc).
Proof.
  intros Hall. revert acc.
  induction Hall as [| u ts Hu _ IH]; intros acc; simpl; [reflexivity |].
  unfold applies_at in Hu.
  destruct (params.Block u) as [bu |]; [| discriminate].
  apply Z.leb_le in Hu. simpl.
  destruct (bu ?= h) eqn:E; simpl.
  - apply IH.
  - apply IH.
  - rewrite Z.compare_gt_iff in E. lia.
Qed.

(** X1. The resolver does not sort and does not scan: [GetConfig] applies
    the transitions in list order up to the first one whose height is above
    [h] and ignores everything behind it, whatever its height; a height
    below the first transition resolves to the base configuration. *)
Theorem X1_GetConfig_stops_at_first_higher_transition
    (c : Config) (ts1 ts2 : list params.Transition) (t : params.Transition)
    (b h : Z) :
  Transitions c = ts1 ++ t :: ts2 ->
  Forall (fun u => applies_at h u = true) ts1 ->
  params.Block t = Some b -> h < b ->
  GetConfig c (Some h) = Ok (fold_left overlay ts1 c) /\
  (ts1 = [] -> GetConfig c (Some h) = Ok c).
Proof.
  intros Hts Hall Hb Hlt.
  assert (E : GetConfig c (Some h) = Ok (fold_left overlay ts1 c)).
  { unfold GetConfig, getTransitionValue. rewrite Hts.
    rewrite (transition_loop_stops ts1 ts2 t b h _ _ Hall Hb Hlt).
    f_equal. apply fold_left_ext. intros x y.
    apply GetConfig_callback_overlay. }
  split; [exact E |].
  intros ->. exact E.
Qed.

Lemma X1_GetConfig_stops_at_first_higher_transition_witness :
  exists r, GetConfig unsorted_config (Some 15) = Ok r /\
            RequestTimeout r = 5000.
Proof.
  exists (fold_left overlay [with_timeout 10 5] unsorted_config).
  split; [| reflexivity].
  apply (proj1 (X1_GetConfig_stops_at_first_higher_transition unsorted_config
                  [with_timeout 10 5] [with_timeout 5 9] (with_timeout 20 7)
                  20 15 eq_refl
                  ltac:(repeat constructor) eq_refl ltac:(lia))).
Defined.

(** The loop panics exactly when it reaches a transition without height. *)
Lemma transition_loop_panics {A : Type} (ts : list params.Transition) (h : Z)
    (callback : params.Transition -> A -> A) (acc : A) :
  transition_loop ts (Some h) callback acc = Panic <->
  exists ts1 t ts2,
    ts = ts1 ++ t :: ts2 /\
    Forall (fun u => applies_at h u = true) ts1 /\
    params.Block t = None.
Proof.
  revert acc. induction ts as [| u ts IH]; intros acc; simpl.
  - split; [discriminate |].
    intros (ts1 & t & ts2 & E & _). destruct ts1; discriminate.
  - destruct (params.Block u) as [bu |] eqn:Hb; simpl.
    + destruct (bu ?= h) eqn:E; simpl.
      * rewrite IH. split.
        -- intros (ts1 & t & ts2 & -> & Hall & Ht).
           exists (u :: ts1), t, ts2. split; [reflexivity |].
           split; [| exact Ht]. constructor; [| exact Hall].
           unfold applies_at. rewrite Hb. apply Z.leb_le.
           apply Z.compare_eq in E. lia.
        -- intros (ts1 & t & ts2 & Eq & Hall & Ht).
           destruct ts1 as [| v ts1]; simpl in Eq; injection Eq as <- ->.
           ++ congruence.
           ++ inversion Hall; subst. exists ts1, t, ts2. repeat split; assumption.
      * rewrite IH. split.
        -- intros (ts1 & t & ts2 & -> & Hall & Ht).
           exists (u :: ts1), t, ts2. split; [reflexivity |].
           split; [| exact Ht]. constructor; [| exact Hall].
           unfold applies_at. rewrite Hb. apply Z.leb_le.
           rewrite Z.compare_lt_iff in E. lia.
        -- intros (ts1 & t & ts2 & Eq & Hall & Ht).
           destruct ts1 as [| v ts1]; simpl in Eq; injection Eq as <- ->.
           ++ congruence.
           ++ inversion Hall; subst. exists ts1, t, ts2. repeat split; assumption.
      * split; [discriminate |].
        intros (ts1 & t & ts2 & Eq & Hall & Ht).
        destruct ts1 as [| v ts1]; simpl in Eq; injection Eq as <- ->.
        -- congruence.
        -- inversion Hall as [| ? ? Hv _]; subst.
           unfold applies_at in Hv. rewrite Hb in Hv. apply Z.leb_le in Hv.
           rewrite Z.compare_gt_iff in E. lia.
    + split; [intros _ | reflexivity].
      exists [], u, ts. repeat split; [constructor | exact Hb].
Qed.

(** X2. For a non-nil height, [GetConfig], [Get2FPlus1Enabled] and
    [GetValidatorSelectionMode] panic in exactly the same case: when the
    loop, having passed only transitions at or below the height, reaches a
    transition whose [Block] is nil.  A nil [Block] behind a transition
    above the height is never looked at. *)
Theorem X2_resolver_panics_on_reached_nil_Block (c : Config) (h : Z) :
  let reaches_nil :=
    exists ts1 t ts2,
      Transitions c = ts1 ++ t :: ts2 /\
      Forall (fun u => applies_at h u = true) ts1 /\
      params.Block t = None in
  (GetConfig c (Some h) = Panic <-> reaches_nil) /\
  (Get2FPlus1Enabled c (Some h) = Panic <-> reaches_nil) /\
  (GetValidatorSelectionMode c (Some h) = Panic <-> reaches_nil).
Proof.
  intros reaches_nil. subst reaches_nil.
  unfold GetConfig, Get2FPlus1Enabled, GetValidatorSelectionMode,
    getTransitionValue.
  split; [| split]; apply transition_loop_panics.
Qed.

Lemma X2_resolver_panics_on_reached_nil_Block_witness :
  GetConfig nil_block_config (Some 10) = Panic /\
  GetConfig nil_block_config (Some 9) = Ok nil_block_config.
Proof.
  split.
  - apply (proj1 (X2_resolver_panics_on_reached_nil_Block nil_block_config 10)).
    exists [with_timeout 10 5], nil_block_transition, [].
    split; [reflexivity | split; [repeat constructor | reflexivity]].
  - reflexivity.
Defined.

Lemma filter_none {A : Type} (p : A -> bool) (l : list A) :
  Forall (fun x => p x = false) l -> filter p l = [].
Proof.
  induction 1 as [| x l Hx _ IH]; simpl; [reflexivity |].
  rewrite Hx. exact IH.
Qed.

Lemma filter_same {A : Type} (p q : A -> bool) (l : list A) :
  Forall (fun x => p x = q x) l -> filter p l = filter q l.
Proof.
  induction 1 as [| x l Hx _ IH]; simpl; [reflexivity |].
  rewrite Hx, IH. reflexivity.
Qed.

(** On an ascending list the transitions at or below [h2] are those at or
    below [h1] followed by those between [h1] and [h2]. *)
Lemma filter_split_heights (ts : list params.Transition) (h1 h2 : Z) :
  ascending ts -> h1 <= h2 ->
  filter (applies_at h2) ts =
  filter (applies_at h1) ts ++ filter (applies_between h1 h2) ts.
Proof.
  intros [Hset Hsorted] Hle.
  apply Sorted_StronglySorted in Hsorted;
    [| intros a b c; apply height_le_trans].
  induction Hsorted as [| t rest Hrest IH Hall]; [reflexivity |].
  inversion Hset as [| ? ? Ht Hset']; subst.
  specialize (IH Hset').
  destruct (params.Block t) as [b |] eqn:Hb; [| congruence].
  assert (Hrest_ge : Forall (fun u => exists bu, params.Block u = Some bu /\ b <= bu) rest).
  { eapply Forall_impl; [| exact Hall].
    intros u Hu. unfold height_le in Hu. rewrite Hb in Hu.
    destruct (params.Block u) as [bu |]; [| contradiction].
    exists bu. split; [reflexivity | exact Hu]. }
  assert (A1 : applies_at h1 t = (b <=? h1))
    by (unfold applies_at; rewrite Hb; reflexivity).
  assert (A2 : applies_at h2 t = (b <=? h2))
    by (unfold applies_at; rewrite Hb; reflexivity).
  assert (AB : applies_between h1 h2 t = (h1 <? b) && (b <=? h2))
    by (unfold applies_between; rewrite Hb; reflexivity).
  simpl. rewrite A1, A2, AB.
  destruct (b <=? h1) eqn:E1.
  - apply Z.leb_le in E1.
    replace (b <=? h2) with true by (symmetry; apply Z.leb_le; lia).
    replace (h1 <? b) with false by (symmetry; apply Z.ltb_ge; lia).
    simpl. rewrite IH. reflexivity.
  - apply Z.leb_gt in E1.
    replace (h1 <? b) with true by (symmetry; apply Z.ltb_lt; lia).
    assert (N1 : filter (applies_at h1) rest = []).
    { apply filter_none. eapply Forall_impl; [| exact Hrest_ge].
      intros u (bu & Hu & Hge). unfold applies_at. rewrite Hu.
      apply Z.leb_gt. lia. }
    assert (S2 : filter (applies_at h2) rest = filter (applies_between h1 h2) rest).
    { apply filter_same. eapply Forall_impl; [| exact Hrest_ge].
      intros u (bu & Hu & Hge). unfold applies_at, applies_between. rewrite Hu.
      replace (h1 <? bu) with true by (symmetry; apply Z.ltb_lt; lia).
      reflexivity. }
    rewrite N1, S2. simpl. destruct (b <=? h2); reflexivity.
Qed.

(** X3. Resolution carries forward: on an ascending list and for heights
    [h1 <= h2], the configuration at [h2] is the one at [h1] with the
    transitions between the two heights folded over it; when there is no
    transition between them the two configurations are the same. *)
Theorem X3_GetConfig_carries_forward (c r1 : Config) (h1 h2 : Z) :
  ascending (Transitions c) -> h1 <= h2 ->
  GetConfig c (Some h1) = Ok r1 ->
  GetConfig c (Some h2) =
    Ok (fold_left overlay (filter (applies_between h1 h2) (Transitions c)) r1) /\
  (filter (applies_between h1 h2) (Transitions c) = [] ->
   GetConfig c (Some h2) = Ok r1).
Proof.
  intros Hasc Hle H1.
  rewrite (GetConfig_effective c h1 Hasc) in H1. injection H1 as <-.
  assert (E : GetConfig c (Some h2) =
              Ok (fold_left overlay
                    (filter (applies_between h1 h2) (Transitions c))
                    (effective_config c h1))).
  { rewrite (GetConfig_effective c h2 Hasc). unfold effective_config.
    rewrite (filter_split_heights _ h1 h2 Hasc Hle), fold_left_app.
    reflexivity. }
  split; [exact E |].
  intros N. rewrite E, N. reflexivity.
Qed.

Lemma X3_GetConfig_carries_forward_witness :
  GetConfig two_step_config (Some 29) = Ok (effective_config two_step_config 20).
Proof.
  apply (proj2 (X3_GetConfig_carries_forward two_step_config
                  (effective_config two_step_config 20) 20 29
                  two_step_ascending ltac:(lia)
                  (GetConfig_effective two_step_config 20 two_step_ascending))).
  reflexivity.
Defined.

(** *** Resolving twice *)

(** What the loop returns when it returns: the fold over the prefix it
    visited, which does not depend on the callback. *)
Lemma transition_loop_visits {A : Type} (ts : list params.Transition) (h : Z)
    (callback : params.Transition -> A -> A) (acc x : A) :
  transition_loop ts (Some h) callback acc = Ok x ->
  x = fold_left (fun a u => callback u a) (take_while (applies_at h) ts) acc /\
  forall (B : Type) (callback' : params.Transition -> B -> B) (acc' : B),
    transition_loop ts (Some h) callback' acc' =
    Ok (fold_left (fun a u => callback' u a) (take_while (applies_at h) ts) acc').
Proof.
  revert acc. induction ts as [| u ts IH]; intros acc; simpl.
  - intros H. injection H as <-. split; [reflexivity | reflexivity].
  - unfold applies_at at 1 3.
    destruct (params.Block u) as [bu |]; simpl; [| discriminate].
    destruct (bu ?= h) eqn:E; simpl.
    + apply Z.compare_eq in E. subst bu. rewrite Z.leb_refl.
      intros H. destruct (IH _ H) as [-> Hall]. split; [reflexivity |].
      intros B cb' acc'. simpl. apply Hall.
    + rewrite Z.compare_lt_iff in E.
      replace (bu <=? h) with true by (symmetry; apply Z.leb_le; lia).
      intros H. destruct (IH _ H) as [-> Hall]. split; [reflexivity |].
      intros B cb' acc'. simpl. apply Hall.
    + rewrite Z.compare_gt_iff in E.
      replace (bu <=? h) with false by (symmetry; apply Z.leb_gt; lia).
      intros H. injection H as <-. split; reflexivity.
Qed.

Lemma last_last {A : Type} (l : list A) (d : A) : last l (last l d) = last l d.
Proof.
  destruct l as [| a l]; [reflexivity |].
  rewrite !last_cons_default. reflexivity.
Qed.

Lemma Config_ext (a b : Config) :
  RequestTimeout a = RequestTimeout b ->
  BlockPeriod a = BlockPeriod b ->
  EmptyBlockPeriod a = EmptyBlockPeriod b ->
  ProposerPolicy a = ProposerPolicy b ->
  Epoch a = Epoch b ->
  Ceil2Nby3Block a = Ceil2Nby3Block b ->
  AllowedFutureBlockTime a = AllowedFutureBlockTime b ->
  BeneficiaryMode a = BeneficiaryMode b ->
  BlockReward a = BlockReward b ->
  MiningBeneficiary a = MiningBeneficiary b ->
  Validators a = Validators b ->
  ValidatorSelectionMode a = ValidatorSelectionMode b ->
  Client a = Client b ->
  MaxRequestTimeoutSeconds a = MaxRequestTimeoutSeconds b ->
  Transitions a = Transitions b ->
  a = b.
Proof.
  destruct a, b; simpl; intros; subst; reflexivity.
Qed.

(** A field that [overlay] inherits is that of the start of the fold. *)
Lemma fold_overlay_inherits {V : Type} (proj : Config -> V)
    (l : list params.Transition) :
  (forall s t, proj (overlay s t) = proj s) ->
  forall s, proj (fold_left overlay l s) = proj s.
Proof.
  intros Hstep. induction l as [| t l IH]; intros s; simpl; [reflexivity |].
  rewrite IH. apply Hstep.
Qed.

(** Folding the same transitions a second time changes nothing. *)
Lemma fold_overlay_twice (l : list params.Transition) (c : Config) :
  fold_left overlay l (fold_left overlay l c) = fold_left overlay l c.
Proof.
  apply Config_ext.
  - rewrite !(fold_last_writer overlay RequestTimeout
                (fun t => negb (params.RequestTimeoutSeconds t =? 0))
                (fun t => uint64_mul (params.RequestTimeoutSeconds t) 1000))
      by (intros s t; simpl; destruct (params.RequestTimeoutSeconds t =? 0);
          reflexivity).
    apply last_last.
  - rewrite !(fold_last_writer overlay BlockPeriod
                (fun t => negb (params.BlockPeriodSeconds t =? 0))
                params.BlockPeriodSeconds)
      by (intros s t; simpl; destruct (params.BlockPeriodSeconds t =? 0);
          reflexivity).
    apply last_last.
  - rewrite !(fold_last_writer overlay EmptyBlockPeriod
                (fun t => match params.EmptyBlockPeriodSeconds t with
                          | Some _ => true | None => false end)
                (fun t => match params.EmptyBlockPeriodSeconds t with
                          | Some v => v | None => 0 end))
      by (intros s t; simpl; destruct (params.EmptyBlockPeriodSeconds t);
          reflexivity).
    apply last_last.
  - rewrite !(fold_overlay_inherits ProposerPolicy) by reflexivity.
    reflexivity.
  - rewrite !(fold_last_writer overlay Epoch
                (fun t => negb (params.EpochLength t =? 0))
                params.EpochLength)
      by (intros s t; simpl; destruct (params.EpochLength t =? 0);
          reflexivity).
    apply last_last.
  - rewrite !(fold_overlay_inherits Ceil2Nby3Block) by reflexivity.
    reflexivity.
  - rewrite !(fold_overlay_inherits AllowedFutureBlockTime) by reflexivity.
    reflexivity.
  - rewrite !(fold_last_writer overlay BeneficiaryMode
                (fun t => match params.BeneficiaryMode t with
                          | Some _ => true | None => false end)
                params.BeneficiaryMode)
      by (intros s t; simpl; destruct (params.BeneficiaryMode t);
          reflexivity).
    apply last_last.
  - rewrite !(fold_last_writer overlay BlockReward
                (fun t => match params.BlockReward t with
                          | Some _ => true | None => false end)
                params.BlockReward)
      by (intros s t; simpl; destruct (params.BlockReward t); reflexivity).
    apply last_last.
  - rewrite !(fold_last_writer overlay MiningBeneficiary
                (fun t => match params.MiningBeneficiary t with
                          | Some _ => true | None => false end)
                params.MiningBeneficiary)
      by (intros s t; simpl; destruct (params.MiningBeneficiary t);
          reflexivity).
    apply last_last.
  - rewrite !(fold_last_writer overlay Validators
                (fun t => nonempty (params.Validators t))
                params.Validators)
      by (intros s t; simpl; destruct (params.Validators t); reflexivity).
    apply last_last.
  - rewrite !(fold_last_writer overlay ValidatorSelectionMode
                (fun t => nonempty_string (params.ValidatorSelectionMode t))
                (fun t => Some (params.ValidatorSelectionMode t)))
      by (intros s t; simpl; destruct (params.ValidatorSelectionMode t);
          reflexivity).
    apply last_last.
  - rewrite !(fold_overlay_inherits Client) by reflexivity. reflexivity.
  - rewrite !(fold_last_writer overlay MaxRequestTimeoutSeconds
                (fun t => match params.MaxRequestTimeoutSeconds t with
                          | Some _ => true | None => false end)
                (fun t => match params.MaxRequestTimeoutSeconds t with
                          | Some v => v | None => 0 end))
      by (intros s t; simpl; destruct (params.MaxRequestTimeoutSeconds t);
          reflexivity).
    apply last_last.
  - rewrite !(fold_overlay_inherits Transitions) by reflexivity. reflexivity.
Qed.

(** X4. [GetConfig] is idempotent: the configuration it returns carries
    the same transition list, and resolving that configuration again at
    the same height returns it unchanged, on any transition list and for
    a nil height too. *)
Theorem X4_GetConfig_idempotent (c r : Config) (blockNumber : big.ptr) :
  GetConfig c blockNumber = Ok r ->
  Transitions r = Transitions c /\ GetConfig r blockNumber = Ok r.
Proof.
  destruct blockNumber as [h |]; unfold GetConfig, getTransitionValue.
  - intros H. destruct (transition_loop_visits _ _ _ _ _ H) as [-> Hall].
    assert (Hov : forall l s,
      fold_left (fun a u => GetConfig_callback u a) l s = fold_left overlay l s).
    { intros l s. apply fold_left_ext. intros x y.
      apply GetConfig_callback_overlay. }
    rewrite Hov.
    assert (Ets : Transitions
                    (fold_left overlay
                       (take_while (applies_at h) (Transitions c)) c)
                  = Transitions c)
      by (apply (fold_overlay_inherits Transitions); reflexivity).
    split; [exact Ets |].
    rewrite Ets, Hall, Hov. f_equal. apply fold_overlay_twice.
  - intros H. injection H as <-. split; reflexivity.
Qed.

Lemma X4_GetConfig_idempotent_witness :
  GetConfig (effective_config two_step_config 25) (Some 25) =
  Ok (effective_config two_step_config 25).
Proof.
  apply (proj2 (X4_GetConfig_idempotent two_step_config
                  (effective_config two_step_config 25) (Some 25)
                  (GetConfig_effective two_step_config 25 two_step_ascending))).
Defined.

(** *** The selection mode *)

(** Two callbacks that keep a relation between their accumulators give
    related results, and panic together. *)
Lemma transition_loop_related {A B : Type} (R : A -> B -> Prop)
    (cbA : params.Transition -> A -> A) (cbB : params.Transition -> B -> B)
    (ts : list params.Transition) (num : big.ptr) :
  (forall t a b, R a b -> R (cbA t a) (cbB t b)) ->
  forall a b, R a b ->
    match transition_loop ts num cbA a, transition_loop ts num cbB b with
    | Ok x, Ok y => R x y
    | Err _, Err _ => True
    | _, _ => False
    end.
Proof.
  intros Hstep. induction ts as [| t ts IH]; intros a b Hab; simpl.
  - exact Hab.
  - destruct (big.Cmp (params.Block t) num) as [r | e]; simpl; [| exact I].
    destruct (r <=? 0); [| exact Hab].
    apply IH, Hstep, Hab.
Qed.

Lemma mode_of_callback (t : params.Transition) (cfg : Config) :
  mode_of (GetConfig_callback t cfg) =
  if nonempty_string (params.ValidatorSelectionMode t)
  then params.ValidatorSelectionMode t
  else mode_of cfg.
Proof.
  rewrite GetConfig_callback_overlay. unfold mode_of. simpl.
  destruct (params.ValidatorSelectionMode t); reflexivity.
Qed.

(** X5. The two resolvers agree: for every configuration and every height,
    nil included, [GetValidatorSelectionMode] returns the mode of the
    configuration that [GetConfig] returns (the block-header mode when that
    configuration has none), and it panics exactly when [GetConfig]
    does. *)
Theorem X5_GetValidatorSelectionMode_agrees_with_GetConfig
    (c : Config) (blockNumber : big.ptr) :
  GetValidatorSelectionMode c blockNumber =
  (r <- GetConfig c blockNumber ;; Ok (mode_of r)).
Proof.
  unfold GetValidatorSelectionMode, GetConfig, getTransitionValue.
  destruct blockNumber as [h |]; [| reflexivity].
  pose proof (transition_loop_related (fun m cfg => m = mode_of cfg)
                (fun transition mode =>
                   if nonempty_string (params.ValidatorSelectionMode transition)
                   then params.ValidatorSelectionMode transition
                   else mode)
                GetConfig_callback (Transitions c) (Some h)) as H.
  specialize (H ltac:(intros t a b ->; symmetry; apply mode_of_callback)
                (mode_of c) c eq_refl).
  change (match ValidatorSelectionMode c with
          | Some m => m
          | None => params.BlockHeaderMode
          end) with (mode_of c).
  destruct (transition_loop (Transitions c) (Some h) _ (mode_of c)) as [m | e],
           (transition_loop (Transitions c) (Some h) GetConfig_callback c)
             as [r | e']; simpl; try contradiction.
  - rewrite H. reflexivity.
  - destruct e, e'. reflexivity.
Qed.

(** X6. On an ascending transition list [GetValidatorSelectionMode] at a
    non-nil height [h] returns the mode of the last transition at or below
    [h] whose mode is not the empty string; when there is none it returns
    the mode of the base configuration, and the block-header mode when the
    base has none. *)
Theorem X6_GetValidatorSelectionMode_last_mode (c : Config) (h : Z) :
  ascending (Transitions c) ->
  GetValidatorSelectionMode c (Some h) =
    Ok (last (map params.ValidatorSelectionMode
                  (filter (carries_mode h) (Transitions c)))
             (mode_of c)) /\
  (filter (carries_mode h) (Transitions c) = [] ->
   ValidatorSelectionMode c = None ->
   GetValidatorSelectionMode c (Some h) = Ok params.BlockHeaderMode).
Proof.
  intros Hasc.
  assert (E : GetValidatorSelectionMode c (Some h) =
              Ok (last (map params.ValidatorSelectionMode
                          (filter (carries_mode h) (Transitions c)))
                       (mode_of c))).
  { unfold GetValidatorSelectionMode, getTransitionValue.
    rewrite (transition_loop_ascending _ _ _ _ Hasc). f_equal.
    unfold carries_mode. rewrite <- filter_filter.
    apply (fold_last_writer
             (fun (m : string) (t : params.Transition) =>
                if nonempty_string (params.ValidatorSelectionMode t)
                then params.ValidatorSelectionMode t
                else m)
             (fun m => m)
             (fun t => nonempty_string (params.ValidatorSelectionMode t))
             params.ValidatorSelectionMode).
    intros s t. reflexivity. }
  split; [exact E |].
  intros N Hnone. rewrite E, N. unfold mode_of. rewrite Hnone. reflexivity.
Qed.

Lemma mode_scenario_ascending : ascending (Transitions mode_scenario).
Proof.
  split; simpl.
  - repeat (apply Forall_cons; [discriminate |]). apply Forall_nil.
  - repeat (apply Sorted_cons;
            [| first [apply HdRel_nil
                     | apply HdRel_cons; unfold height_le; simpl; lia]]).
    apply Sorted_nil.
Defined.

Lemma X6_GetValidatorSelectionMode_last_mode_witness :
  GetValidatorSelectionMode mode_scenario (Some 9) = Ok params.ContractMode /\
  GetValidatorSelectionMode mode_scenario (Some 4) = Ok params.BlockHeaderMode.
Proof.
  split.
  - apply (proj1 (X6_GetValidatorSelectionMode_last_mode mode_scenario 9
                    mode_scenario_ascending)).
  - apply (proj2 (X6_GetValidatorSelectionMode_last_mode mode_scenario 4
                    mode_scenario_ascending)); reflexivity.
Defined.

(** ** [View.Cmp] on views with nil fields *)

Lemma big_Cmp_panics (a b : big.ptr) : big.Cmp a b = Panic <-> one_nil a b.
Proof.
  unfold one_nil. destruct a, b; simpl; split;
    try discriminate; try reflexivity;
    try (intros [[? ?] | [? ?]]; congruence).
  - intros _. right. split; [discriminate | reflexivity].
  - intros _. left. split; [reflexivity | discriminate].
Qed.

Lemma big_Cmp_zero (a b : big.ptr) : big.Cmp a b = Ok 0 <-> a = b.
Proof.
  destruct a as [x |], b as [y |]; simpl; split; try discriminate;
    try reflexivity.
  - destruct (x ?= y) eqn:E; try discriminate.
    apply Z.compare_eq in E. subst. reflexivity.
  - intros H. injection H as ->. rewrite Z.compare_refl. reflexivity.
Qed.

(** X7. [View.Cmp] panics when the receiver or the argument is nil; on two
    views it panics exactly when one of the two sequences is nil and the
    other is not, or when the sequences are the same (both nil, or equal)
    and one of the two rounds is nil and the other is not: a nil round is
    never read when the sequences differ.  It returns 0 exactly on views
    with the same fields, nil fields included. *)
Theorem X7_View_Cmp_nil_fields (v y : View) :
  View_Cmp None (Some y) = Panic /\
  View_Cmp (Some v) None = Panic /\
  (View_Cmp (Some v) (Some y) = Panic <->
   one_nil (Sequence v) (Sequence y) \/
   (Sequence v = Sequence y /\ one_nil (Round v) (Round y))) /\
  (View_Cmp (Some v) (Some y) = Ok 0 <-> v = y).
Proof.
  split; [reflexivity | split; [reflexivity |]].
  unfold View_Cmp.
  pose proof (big_Cmp_panics (Sequence v) (Sequence y)) as Ps.
  pose proof (big_Cmp_zero (Sequence v) (Sequence y)) as Zs.
  pose proof (big_Cmp_panics (Round v) (Round y)) as Pr.
  pose proof (big_Cmp_zero (Round v) (Round y)) as Zr.
  destruct (big.Cmp (Sequence v) (Sequence y)) as [cs | []] eqn:Es; simpl.
  - destruct (cs =? 0) eqn:E0; simpl.
    + apply Z.eqb_eq in E0. subst cs.
      assert (Hs : Sequence v = Sequence y) by (apply Zs; reflexivity).
      destruct (big.Cmp (Round v) (Round y)) as [cr | []] eqn:Er; simpl.
      * destruct (cr =? 0) eqn:E1; simpl.
        -- apply Z.eqb_eq in E1. subst cr.
           assert (Hr : Round v = Round y) by (apply Zr; reflexivity).
           split; split.
           ++ discriminate.
           ++ intros [N | [_ N]]; [apply Ps in N | apply Pr in N]; discriminate.
           ++ intros _. destruct v, y; simpl in *; congruence.
           ++ reflexivity.
        -- apply Z.eqb_neq in E1. split; split.
           ++ discriminate.
           ++ intros [N | [_ N]]; [apply Ps in N | apply Pr in N]; discriminate.
           ++ intros H. injection H as ->. contradiction.
           ++ intros ->. assert (Ok cr = Ok 0) by (apply Zr; reflexivity).
              congruence.
      * split; split.
        -- intros _. right. split; [exact Hs | apply Pr; reflexivity].
        -- reflexivity.
        -- discriminate.
        -- intros ->. assert (Panic = Ok 0) by (apply Zr; reflexivity).
           discriminate.
    + apply Z.eqb_neq in E0. split; split.
      * discriminate.
      * intros [N | [Hs _]].
        -- apply Ps in N. discriminate.
        -- apply Zs in Hs. congruence.
      * intros H. injection H as ->. contradiction.
      * intros ->. assert (Ok cs = Ok 0) by (apply Zs; reflexivity).
        congruence.
  - split; split.
    + intros _. left. apply Ps. reflexivity.
    + reflexivity.
    + discriminate.
    + intros ->. assert (Panic = Ok 0) by (apply Zs; reflexivity).
      discriminate.
Qed.

(** ** The sorter *)

Lemma length_replace_nth {A : Type} (l : list A) (n : nat) (x : A) :
  List.length (replace_nth l n x) = List.length l.
Proof.
  revert n. induction l as [| y l IH]; intros n; [reflexivity |].
  destruct n; simpl; [reflexivity | rewrite IH; reflexivity].
Qed.

Lemma nth_error_replace_nth {A : Type} (l : list A) (n m : nat) (x : A) :
  (n < List.length l)%nat ->
  nth_error (replace_nth l n x) m =
  if Nat.eqb m n then Some x else nth_error l m.
Proof.
  revert n m. induction l as [| y l IH]; intros n m Hn; simpl in Hn; [lia |].
  destruct n as [| n], m as [| m]; simpl; try reflexivity.
  apply IH. lia.
Qed.

Lemma at_index_Ok {A : Type} (l : list A) (i : Z) (x : A) :
  at_index l i = Ok x <->
  0 <= i < Z.of_nat (List.length l) /\ nth_error l (Z.to_nat i) = Some x.
Proof.
  unfold at_index. destruct (i <? 0) eqn:E.
  - apply Z.ltb_lt in E. split; [discriminate | lia].
  - apply Z.ltb_ge in E.
    destruct (nth_error l (Z.to_nat i)) as [y |] eqn:N.
    + split.
      * intros H. injection H as ->. split; [| reflexivity].
        assert (Z.to_nat i < List.length l)%nat
          by (apply nth_error_Some; congruence).
        lia.
      * intros [_ H]. congruence.
    + split; [discriminate | intros [_ H]; discriminate].
Qed.

Lemma at_index_Err {A : Type} (l : list A) (i : Z) :
  at_index l i = Err index_out_of_range <->
  ~ (0 <= i < Z.of_nat (List.length l)).
Proof.
  unfold at_index. destruct (i <? 0) eqn:E.
  - apply Z.ltb_lt in E. split; [lia | reflexivity].
  - apply Z.ltb_ge in E.
    destruct (nth_error l (Z.to_nat i)) as [y |] eqn:N.
    + assert (Z.to_nat i < List.length l)%nat
        by (apply nth_error_Some; congruence).
      split; [discriminate | lia].
    + apply nth_error_None in N. split; [lia | reflexivity].
Qed.

Lemma transpose_injective (i j : nat) : Injective (transpose i j).
Proof.
  intros a b. unfold transpose.
  destruct (Nat.eqb a i) eqn:Ai, (Nat.eqb a j) eqn:Aj,
           (Nat.eqb b i) eqn:Bi, (Nat.eqb b j) eqn:Bj;
    repeat match goal with
           | H : Nat.eqb _ _ = true |- _ => apply Nat.eqb_eq in H
           | H : Nat.eqb _ _ = false |- _ => apply Nat.eqb_neq in H
           end; lia.
Qed.

Section SorterProperties.

Context {V : Type} `{Validator.methods V}.

(** A swap within range returns the validators with the two positions
    exchanged. *)
Lemma Swap_in_range (vs : validatorSorter V) (i j : Z) :
  0 <= i < validatorSorter_Len vs -> 0 <= j < validatorSorter_Len vs ->
  exists vs',
    validatorSorter_Swap vs i j = Ok vs' /\
    by_ vs' = by_ vs /\
    List.length (validators vs') = List.length (validators vs) /\
    forall n, nth_error (validators vs') n =
              nth_error (validators vs) (transpose (Z.to_nat i) (Z.to_nat j) n).
Proof.
  unfold validatorSorter_Len. intros Hi Hj.
  destruct (nth_error (validators vs) (Z.to_nat i)) as [vi |] eqn:Ni;
    [| apply nth_error_None in Ni; lia].
  destruct (nth_error (validators vs) (Z.to_nat j)) as [vj |] eqn:Nj;
    [| apply nth_error_None in Nj; lia].
  unfold validatorSorter_Swap.
  rewrite (proj2 (at_index_Ok _ j vj) (conj Hj Nj)).
  rewrite (proj2 (at_index_Ok _ i vi) (conj Hi Ni)).
  cbn [bind]. unfold set_index.
  replace ((i <? 0) || (Z.of_nat (List.length (validators vs)) <=? i))
    with false
    by (symmetry; apply orb_false_iff; split;
        [apply Z.ltb_ge | apply Z.leb_gt]; lia).
  cbn [bind]. rewrite length_replace_nth.
  replace ((j <? 0) || (Z.of_nat (List.length (validators vs)) <=? j))
    with false
    by (symmetry; apply orb_false_iff; split;
        [apply Z.ltb_ge | apply Z.leb_gt]; lia).
  cbn [bind]. eexists. split; [reflexivity |]. cbn [validators by_].
  split; [reflexivity |].
  split; [rewrite !length_replace_nth; reflexivity |].
  intros n.
  rewrite nth_error_replace_nth by (rewrite length_replace_nth; lia).
  rewrite nth_error_replace_nth by lia.
  unfold transpose.
  destruct (Nat.eqb n (Z.to_nat j)) eqn:Ej, (Nat.eqb n (Z.to_nat i)) eqn:Ei;
    repeat match goal with
           | H : Nat.eqb _ _ = true |- _ => apply Nat.eqb_eq in H
           | H : Nat.eqb _ _ = false |- _ => apply Nat.eqb_neq in H
           end; subst; congruence.
Qed.

Lemma Swap_Ok_in_range (vs vs' : validatorSorter V) (i j : Z) :
  validatorSorter_Swap vs i j = Ok vs' ->
  0 <= i < validatorSorter_Len vs /\ 0 <= j < validatorSorter_Len vs.
Proof.
  unfold validatorSorter_Swap, validatorSorter_Len.
  destruct (at_index (validators vs) j) as [vj | e] eqn:Aj; [| discriminate].
  destruct (at_index (validators vs) i) as [vi | e] eqn:Ai; [| discriminate].
  intros _. apply at_index_Ok in Aj, Ai. tauto.
Qed.

Lemma Swap_permutes (vs vs' : validatorSorter V) (i j : Z) :
  validatorSorter_Swap vs i j = Ok vs' ->
  Permutation (validators vs) (validators vs') /\ by_ vs' = by_ vs.
Proof.
  intros S. destruct (Swap_Ok_in_range _ _ _ _ S) as [Hi Hj].
  destruct (Swap_in_range vs i j Hi Hj) as (w & Sw & Hby & Hlen & Hnth).
  rewrite S in Sw. injection Sw as <-.
  split; [| exact Hby].
  apply Permutation_nth_error. split; [symmetry; exact Hlen |].
  exists (transpose (Z.to_nat i) (Z.to_nat j)).
  split; [apply transpose_injective | exact Hnth].
Qed.

(** X8. [Swap] exchanges the validators at two positions and touches
    nothing else: within range it returns the same validators, as many,
    with positions [i] and [j] exchanged, so that [Less i j] afterwards is
    [Less j i] before, and a second [Swap] of the same positions restores
    the slice; it panics exactly when [i] or [j] is outside [0, Len).  Hence whatever sequence of swaps a run of
    [sort.Sort] performs, the sorted slice is a permutation of the
    validators it was given, under the same sort function. *)
Theorem X8_Swap_permutes_validators (vs : validatorSorter V) (i j : Z) :
  (0 <= i < validatorSorter_Len vs -> 0 <= j < validatorSorter_Len vs ->
   exists vs',
     validatorSorter_Swap vs i j = Ok vs' /\
     validatorSorter_Len vs' = validatorSorter_Len vs /\
     at_index (validators vs') i = at_index (validators vs) j /\
     at_index (validators vs') j = at_index (validators vs) i /\
     (forall k, k <> i -> k <> j ->
                at_index (validators vs') k = at_index (validators vs) k) /\
     validatorSorter_Less vs' i j = validatorSorter_Less vs j i /\
     validatorSorter_Swap vs' i j = Ok vs) /\
  (validatorSorter_Swap vs i j = Err index_out_of_range <->
   ~ (0 <= i < validatorSorter_Len vs /\ 0 <= j < validatorSorter_Len vs)) /\
  (forall ops vs',
      swaps vs ops = Ok vs' ->
      Permutation (validators vs) (validators vs') /\ by_ vs' = by_ vs).
Proof.
  split; [| split].
  - intros Hi Hj.
    destruct (Swap_in_range vs i j Hi Hj) as (vs' & S & Hby & Hlen & Hnth).
    exists vs'. split; [exact S |].
    assert (HL : validatorSorter_Len vs' = validatorSorter_Len vs)
      by (unfold validatorSorter_Len; rewrite Hlen; reflexivity).
    split; [exact HL |].
    assert (At : forall k,
      0 <= k -> at_index (validators vs') k =
      match nth_error (validators vs)
              (transpose (Z.to_nat i) (Z.to_nat j) (Z.to_nat k)) with
      | Some x => Ok x
      | None => Err index_out_of_range
      end).
    { intros k Hk. unfold at_index.
      replace (k <? 0) with false by (symmetry; apply Z.ltb_ge; lia).
      rewrite Hnth. reflexivity. }
    assert (At0 : forall k,
      0 <= k -> at_index (validators vs) k =
      match nth_error (validators vs) (Z.to_nat k) with
      | Some x => Ok x
      | None => Err index_out_of_range
      end).
    { intros k Hk. unfold at_index.
      replace (k <? 0) with false by (symmetry; apply Z.ltb_ge; lia).
      reflexivity. }
    assert (Ai : at_index (validators vs') i = at_index (validators vs) j).
    { rewrite At, At0 by lia. unfold transpose. rewrite Nat.eqb_refl.
      reflexivity. }
    assert (Aj : at_index (validators vs') j = at_index (validators vs) i).
    { rewrite At, At0 by lia. unfold transpose. rewrite Nat.eqb_refl.
      destruct (Nat.eqb (Z.to_nat j) (Z.to_nat i)) eqn:E;
        [apply Nat.eqb_eq in E; rewrite E |]; reflexivity. }
    split; [exact Ai | split; [exact Aj | split; [| split]]].
    + intros k Hki Hkj. destruct (Z_lt_le_dec k 0) as [Neg | Pos].
      * unfold at_index.
        replace (k <? 0) with true by (symmetry; apply Z.ltb_lt; lia).
        reflexivity.
      * rewrite At, At0 by lia. unfold transpose.
        replace (Nat.eqb (Z.to_nat k) (Z.to_nat i)) with false
          by (symmetry; apply Nat.eqb_neq; lia).
        replace (Nat.eqb (Z.to_nat k) (Z.to_nat j)) with false
          by (symmetry; apply Nat.eqb_neq; lia).
        reflexivity.
    + unfold validatorSorter_Less. rewrite Ai, Aj, Hby. reflexivity.
    + destruct (Swap_in_range vs' i j ltac:(lia) ltac:(lia))
        as (vs'' & S' & Hby' & Hlen' & Hnth').
      rewrite S'. f_equal.
      destruct vs as [l b], vs'' as [l'' b'']. simpl in *.
      f_equal; [| congruence].
      apply nth_error_ext. intros n. rewrite Hnth', Hnth.
      f_equal. unfold transpose.
      destruct (Nat.eqb n (Z.to_nat i)) eqn:Ei.
      * apply Nat.eqb_eq in Ei. subst n.
        destruct (Nat.eqb (Z.to_nat j) (Z.to_nat i)) eqn:Eji;
          [apply Nat.eqb_eq in Eji; congruence |].
        rewrite Nat.eqb_refl. reflexivity.
      * destruct (Nat.eqb n (Z.to_nat j)) eqn:Ej.
        -- apply Nat.eqb_eq in Ej. subst n. rewrite Nat.eqb_refl. reflexivity.
        -- rewrite Ei, Ej. reflexivity.
  - split.
    + intros E [Hi Hj].
      destruct (Swap_in_range vs i j Hi Hj) as (vs' & S & _). congruence.
    + intros N.
      destruct (validatorSorter_Swap vs i j) as [vs' | []] eqn:S;
        [| reflexivity].
      exfalso. apply N. exact (Swap_Ok_in_range _ _ _ _ S).
  - intros ops. revert vs.
    induction ops as [| [a b] ops IH]; intros vs0 vs' S; simpl in S.
    + injection S as <-. split; [apply Permutation_refl | reflexivity].
    + destruct (validatorSorter_Swap vs0 a b) as [vs1 |] eqn:S1;
        [| discriminate].
      cbn [bind] in S. destruct (Swap_permutes _ _ _ _ S1) as [P1 B1].
      destruct (IH _ _ S) as [P2 B2].
      split; [eapply Permutation_trans; eassumption | congruence].
Qed.

End SorterProperties.

Lemma X8_Swap_permutes_validators_witness :
  exists vs',
    validatorSorter_Swap example_sorter 0 2 = Ok vs' /\
    validators vs' = [addr_B ++ [x00]; addr_A; addr_B] /\
    validatorSorter_Swap vs' 0 2 = Ok example_sorter.
Proof.
  destruct (proj1 (X8_Swap_permutes_validators example_sorter 0 2)
              ltac:(unfold validatorSorter_Len; simpl; lia)
              ltac:(unfold validatorSorter_Len; simpl; lia))
    as (vs' & S & _ & _ & _ & _ & _ & Back).
  exists vs'. split; [exact S |]. split; [| exact Back].
  vm_compute in S. injection S as <-. reflexivity.
Defined.

(** ** The sort functions *)

Lemma to_N_inj (x y : byte) : Byte.to_N x = Byte.to_N y -> x = y.
Proof.
  intros E. pose proof (Byte.of_to_N x) as Hx. rewrite E, Byte.of_to_N in Hx.
  congruence.
Qed.

Lemma Compare_values (a b : list byte) :
  bytes.Compare a b = -1 \/ bytes.Compare a b = 0 \/ bytes.Compare a b = 1.
Proof.
  revert b. induction a as [| x a IH]; intros [| y b]; simpl; auto.
  destruct (Byte.to_N x ?= Byte.to_N y)%N; auto.
Qed.

Lemma Compare_eq (a b : list byte) : bytes.Compare a b = 0 <-> a = b.
Proof.
  revert b. induction a as [| x a IH]; intros [| y b]; simpl;
    try (split; [discriminate | discriminate]); [tauto |].
  destruct (Byte.to_N x ?= Byte.to_N y)%N eqn:E.
  - apply N.compare_eq in E. apply to_N_inj in E. subst y.
    rewrite IH. split; [intros ->; reflexivity | intros H; congruence].
  - split; [discriminate |]. intros H. injection H as -> _.
    rewrite N.compare_refl in E. discriminate.
  - split; [discriminate |]. intros H. injection H as -> _.
    rewrite N.compare_refl in E. discriminate.
Qed.

Lemma Compare_antisym (a b : list byte) :
  bytes.Compare b a = - bytes.Compare a b.
Proof.
  revert b. induction a as [| x a IH]; intros [| y b]; simpl; try reflexivity.
  rewrite (N.compare_antisym (Byte.to_N x) (Byte.to_N y)).
  destruct (Byte.to_N x ?= Byte.to_N y)%N; simpl; [apply IH | |]; reflexivity.
Qed.

Lemma Compare_le_trans (a b c : list byte) :
  bytes.Compare a b <= 0 -> bytes.Compare b c <= 0 -> bytes.Compare a c <= 0.
Proof.
  revert b c. induction a as [| x a IH]; intros [| y b] [| z c]; simpl;
    try lia.
  destruct (N.compare_spec (Byte.to_N x) (Byte.to_N y)) as [Exy | Lxy | Gxy];
    destruct (N.compare_spec (Byte.to_N y) (Byte.to_N z)) as [Eyz | Lyz | Gyz];
    try lia.
  - rewrite Exy, Eyz, N.compare_refl. apply IH.
  - intros _ _.
    replace (Byte.to_N x ?= Byte.to_N z)%N with Lt
      by (symmetry; apply N.compare_lt_iff; lia).
    lia.
  - intros _ _.
    replace (Byte.to_N x ?= Byte.to_N z)%N with Lt
      by (symmetry; apply N.compare_lt_iff; lia).
    lia.
  - intros _ _.
    replace (Byte.to_N x ?= Byte.to_N z)%N with Lt
      by (symmetry; apply N.compare_lt_iff; lia).
    lia.
Qed.

Lemma Compare_lt_trans (a b c : list byte) :
  bytes.Compare a b < 0 -> bytes.Compare b c < 0 -> bytes.Compare a c < 0.
Proof.
  intros Hab Hbc.
  pose proof (Compare_le_trans a b c ltac:(lia) ltac:(lia)) as Hle.
  destruct (Z.eq_dec (bytes.Compare a c) 0) as [E | N]; [| lia].
  apply Compare_eq in E. subst c.
  rewrite (Compare_antisym a b) in Hbc. lia.
Qed.

(** A sort function that compares a key of the validators with
    [bytes.Compare]. *)
Section KeyOrder.

Context {V : Type}.
Variable key : V -> list byte.

Lemma key_less_strict_order (a b c : V) :
  key_less key a a = false /\
  (key_less key a b = true -> key_less key b a = false) /\
  (key_less key a b = true -> key_less key b c = true ->
   key_less key a c = true) /\
  (key a <> key b -> key_less key a b = true \/ key_less key b a = true).
Proof.
  unfold key_less. repeat split.
  - rewrite (proj2 (Compare_eq (key a) (key a)) eq_refl). reflexivity.
  - intros Hab. apply Z.ltb_lt in Hab. apply Z.ltb_ge.
    rewrite (Compare_antisym (key a) (key b)). lia.
  - intros Hab Hbc. apply Z.ltb_lt in Hab, Hbc. apply Z.ltb_lt.
    exact (Compare_lt_trans _ _ _ Hab Hbc).
  - intros Hne.
    destruct (Compare_values (key a) (key b)) as [E | [E | E]].
    + left. apply Z.ltb_lt. lia.
    + apply Compare_eq in E. contradiction.
    + right. apply Z.ltb_lt. rewrite (Compare_antisym (key a) (key b)). lia.
Qed.

Lemma IsSorted_StronglySorted (l : list V) :
  IsSorted (key_less key) l = true -> StronglySorted (key_le key) l.
Proof.
  intros S. apply Sorted_StronglySorted.
  - intros a b c. apply Compare_le_trans.
  - induction l as [| x [| y l] IH]; [constructor | repeat constructor |].
    cbn [IsSorted] in S. apply andb_true_iff in S. destruct S as [Hxy S].
    constructor; [apply IH, S |]. constructor.
    unfold key_less in Hxy. apply negb_true_iff, Z.ltb_ge in Hxy.
    unfold key_le. rewrite (Compare_antisym (key x) (key y)) in Hxy. lia.
Qed.

(** Two sorted arrangements of the same validators with distinct keys are
    the same arrangement. *)
Lemma sorted_arrangement_unique (l1 l2 : list V) :
  NoDup (map key l1) -> Permutation l1 l2 ->
  IsSorted (key_less key) l1 = true -> IsSorted (key_less key) l2 = true -> l1 = l2.
Proof.
  intros Hnd Hperm S1 S2.
  apply IsSorted_StronglySorted in S1, S2.
  revert l2 Hperm S2 Hnd.
  induction S1 as [| x l1 S1 IH Hx]; intros l2 Hperm S2 Hnd.
  - apply Permutation_nil in Hperm. congruence.
  - destruct l2 as [| y l2];
      [apply Permutation_sym, Permutation_nil in Hperm; discriminate |].
    inversion S2 as [| ? ? S2' Hy]; subst.
    assert (Exy : x = y).
    { assert (Hyin : In y (x :: l1))
        by (eapply Permutation_in; [apply Permutation_sym; exact Hperm | left; reflexivity]).
      assert (Hxin : In x (y :: l2))
        by (eapply Permutation_in; [exact Hperm | left; reflexivity]).
      destruct Hyin as [E | Hyin]; [exact E |].
      destruct Hxin as [E | Hxin]; [symmetry; exact E |].
      rewrite Forall_forall in Hx, Hy.
      pose proof (Hx y Hyin) as Lxy. pose proof (Hy x Hxin) as Lyx.
      unfold key_le in Lxy, Lyx.
      rewrite (Compare_antisym (key x) (key y)) in Lyx.
      assert (Ek : key x = key y) by (apply Compare_eq; lia).
      exfalso. simpl in Hnd. inversion Hnd as [| ? ? Hnotin _]; subst.
      apply Hnotin. rewrite Ek. apply in_map, Hyin. }
    subst y. f_equal.
    apply IH.
    + eapply Permutation_cons_inv. exact Hperm.
    + exact S2'.
    + simpl in Hnd. inversion Hnd; assumption.
Qed.

End KeyOrder.

Section SortFunctions.

Context {V : Type} `{Validator.methods V}.

(** X9. [ValidatorSortByByte] is a strict order on validators that is
    total on validators with different addresses, and
    [ValidatorSortByString] is one that is total on validators with
    different strings: neither function ever puts a validator before
    itself or two validators before each other, both are transitive, and
    of two validators with different keys one is before the other. *)
Theorem X9_sort_functions_are_strict_orders (a b c : V) :
  (ValidatorSortByByte a a = false /\
   (ValidatorSortByByte a b = true -> ValidatorSortByByte b a = false) /\
   (ValidatorSortByByte a b = true -> ValidatorSortByByte b c = true ->
    ValidatorSortByByte a c = true) /\
   (Validator.Address a <> Validator.Address b ->
    ValidatorSortByByte a b = true \/ ValidatorSortByByte b a = true)) /\
  (ValidatorSortByString a a = false /\
   (ValidatorSortByString a b = true -> ValidatorSortByString b a = false) /\
   (ValidatorSortByString a b = true -> ValidatorSortByString b c = true ->
    ValidatorSortByString a c = true) /\
   (Validator.String a <> Validator.String b ->
    ValidatorSortByString a b = true \/ ValidatorSortByString b a = true)).
Proof.
  split.
  - exact (key_less_strict_order Validator.Address a b c).
  - destruct (key_less_strict_order
                (fun v => list_byte_of_string (Validator.String v)) a b c)
      as (H1 & H2 & H3 & H4).
    repeat split; try assumption.
    intros Hne. apply H4. intros E. apply Hne.
    rewrite <- (string_of_list_byte_of_string (Validator.String a)),
            <- (string_of_list_byte_of_string (Validator.String b)), E.
    reflexivity.
Qed.

(** X10. The sorted order is unique: two arrangements of the same
    validators that are both sorted under [ValidatorSortByByte] are equal
    when the addresses are pairwise different, and likewise under
    [ValidatorSortByString] when the strings are pairwise different; so
    the order [sort.Sort] leaves does not depend on the order in which the
    validators were supplied. *)
Theorem X10_sorted_order_is_unique (l1 l2 : list V) :
  Permutation l1 l2 ->
  (NoDup (map Validator.Address l1) ->
   IsSorted ValidatorSortByByte l1 = true ->
   IsSorted ValidatorSortByByte l2 = true -> l1 = l2) /\
  (NoDup (map Validator.String l1) ->
   IsSorted ValidatorSortByString l1 = true ->
   IsSorted ValidatorSortByString l2 = true -> l1 = l2).
Proof.
  intros Hperm. split.
  - intros Hnd. exact (sorted_arrangement_unique Validator.Address l1 l2 Hnd Hperm).
  - intros Hnd.
    apply (sorted_arrangement_unique
             (fun v => list_byte_of_string (Validator.String v)) l1 l2);
      [| exact Hperm].
    rewrite <- (map_map Validator.String list_byte_of_string).
    apply Injective_map_NoDup; [| exact Hnd].
    intros s t E.
    rewrite <- (string_of_list_byte_of_string s),
            <- (string_of_list_byte_of_string t), E.
    reflexivity.
Qed.

End SortFunctions.

Lemma X9_sort_functions_are_strict_orders_witness :
  ValidatorSortByByte addr_A addr_B = true /\
  ValidatorSortByByte addr_B addr_A = false.
Proof.
  assert (L : ValidatorSortByByte addr_A addr_B = true) by reflexivity.
  split; [exact L |].
  apply (proj1 (proj2 (proj1 (X9_sort_functions_are_strict_orders
                                addr_A addr_B addr_A))) L).
Defined.

Lemma X10_sorted_order_is_unique_witness :
  [addr_A; addr_B; addr_B ++ [x00]] = rev [addr_B ++ [x00]; addr_B; addr_A].
Proof.
  apply (proj1 (X10_sorted_order_is_unique
                  [addr_A; addr_B; addr_B ++ [x00]]
                  (rev [addr_B ++ [x00]; addr_B; addr_A])
                  (Permutation_refl _)));
    [| reflexivity | reflexivity].
  simpl. repeat constructor; simpl; intuition discriminate.
Defined.

(** ** The registry *)

Section RegistryProperties.

Context {Validator ValidatorSet Sets : Type}.
Variable SortValidators :
  ValidatorSet -> policy.ProposerPolicy Validator ValidatorSet -> Sets -> Sets.

Lemma sort_calls_app (a b : list (policy.Event ValidatorSet)) :
  policy.sort_calls (a ++ b) = policy.sort_calls a ++ policy.sort_calls b.
Proof.
  induction a as [| e a IH]; simpl; [reflexivity |].
  destruct e; simpl; rewrite IH; reflexivity.
Qed.

Lemma Register_on_free_mutex (valSet : ValidatorSet)
    (w : policy.World Validator ValidatorSet Sets) :
  policy.registryMU (policy.pol w) = Some policy.Unlocked ->
  exists w',
    policy.RegisterValidatorSet valSet w = Ok (tt, w') /\
    policy.pol w' =
      policy.Build_ProposerPolicy (policy.Id (policy.pol w))
        (policy.By (policy.pol w))
        (policy.registry (policy.pol w) ++ [valSet]) (Some policy.Unlocked) /\
    policy.sets w' = policy.sets w /\
    policy.sort_calls (policy.events w') = policy.sort_calls (policy.events w).
Proof.
  intros Hmu. destruct w as [[id b reg mu] s ev]. simpl in Hmu. subst mu.
  unfold policy.RegisterValidatorSet, deferred, bindM. simpl.
  destruct reg as [| vs0 reg]; simpl; eexists;
    (split; [reflexivity | split; [reflexivity | split; [reflexivity |]]]);
    simpl; rewrite !sort_calls_app; simpl; rewrite !app_nil_r; reflexivity.
Qed.

Lemma register_all_on_free_mutex (l : list ValidatorSet)
    (w : policy.World Validator ValidatorSet Sets) :
  policy.registryMU (policy.pol w) = Some policy.Unlocked ->
  exists w',
    register_all l w = Ok (tt, w') /\
    policy.pol w' =
      policy.Build_ProposerPolicy (policy.Id (policy.pol w))
        (policy.By (policy.pol w))
        (policy.registry (policy.pol w) ++ l) (Some policy.Unlocked) /\
    policy.sets w' = policy.sets w /\
    policy.sort_calls (policy.events w') = policy.sort_calls (policy.events w).
Proof.
  revert w. induction l as [| valSet l IH]; intros w Hmu.
  - exists w. split; [reflexivity |]. split; [| split; reflexivity].
    rewrite app_nil_r. destruct w as [[id b reg mu] s ev]. simpl in *.
    subst mu. reflexivity.
  - destruct (Register_on_free_mutex valSet w Hmu) as (w1 & R1 & P1 & S1 & E1).
    destruct (IH w1) as (w' & R & P & S & E); [rewrite P1; reflexivity |].
    exists w'. split.
    + unfold register_all in *. cbn [for_range]. unfold bindM at 1.
      rewrite R1. exact R.
    + rewrite P, S, E, P1, S1, E1. simpl. rewrite <- app_assoc.
      split; [| split]; reflexivity.
Qed.

(** X11. The registry is append-only under [RegisterValidatorSet]: on a
    policy whose mutex is free, registering the sets of a list one after
    the other returns with the registry extended by exactly these sets, in
    the order of the calls and with repetitions kept; the identifier, the
    sort function and the sets themselves are untouched and the mutex is
    free again. *)
Theorem X11_RegisterValidatorSet_appends (l : list ValidatorSet)
    (w : policy.World Validator ValidatorSet Sets) :
  policy.registryMU (policy.pol w) = Some policy.Unlocked ->
  exists w',
    register_all l w = Ok (tt, w') /\
    policy.registry (policy.pol w') = policy.registry (policy.pol w) ++ l /\
    policy.Id (policy.pol w') = policy.Id (policy.pol w) /\
    policy.By (policy.pol w') = policy.By (policy.pol w) /\
    policy.registryMU (policy.pol w') = Some policy.Unlocked /\
    policy.sets w' = policy.sets w.
Proof.
  intros Hmu.
  destruct (register_all_on_free_mutex l w Hmu) as (w' & R & P & S & _).
  exists w'. rewrite P. repeat split; [exact R | exact S].
Qed.

(** X12. [ClearRegistry] on a policy whose mutex is free drops every
    tracked set whatever the registry held and leaves the mutex free; a
    [Use] that follows calls [SortValidators] on nothing and leaves every
    set as it was, and the next [RegisterValidatorSet] starts the registry
    again with its set alone. *)
Theorem X12_ClearRegistry_empties
    (f : policy.ValidatorSortByFunc Validator) (valSet : ValidatorSet)
    (w : policy.World Validator ValidatorSet Sets) :
  policy.registryMU (policy.pol w) = Some policy.Unlocked ->
  exists w1,
    policy.ClearRegistry w = Ok (tt, w1) /\
    policy.registry (policy.pol w1) = [] /\
    policy.registryMU (policy.pol w1) = Some policy.Unlocked /\
    policy.sets w1 = policy.sets w /\
    (exists w2,
        policy.Use SortValidators f w1 = Ok (tt, w2) /\
        policy.sets w2 = policy.sets w /\
        policy.sort_calls
          (skipn (List.length (policy.events w1)) (policy.events w2)) = []) /\
    (exists w3,
        policy.RegisterValidatorSet valSet w1 = Ok (tt, w3) /\
        policy.registry (policy.pol w3) = [valSet]).
Proof.
  intros Hmu. destruct w as [[id b reg mu] s ev]. simpl in Hmu. subst mu.
  unfold policy.ClearRegistry, deferred, bindM. simpl.
  eexists. split; [reflexivity |]. simpl.
  split; [reflexivity |]. split; [reflexivity |]. split; [reflexivity |].
  split.
  - unfold policy.Use, bindM. simpl. eexists. split; [reflexivity |].
    simpl. split; [reflexivity |].
    rewrite skipn_length_app. reflexivity.
  - unfold policy.RegisterValidatorSet, deferred, bindM. simpl.
    eexists. split; reflexivity.
Qed.

(** X13. A policy from the constructor goes through its life cycle without
    blocking: after the sets of a list are registered one by one, [Use f]
    calls [SortValidators] on exactly these sets, in registration order,
    under the sort function [f]. *)
Theorem X13_register_then_Use
    (id : policy.ProposerPolicyId)
    (by0 f : policy.ValidatorSortByFunc Validator)
    (l : list ValidatorSet) (s : Sets) :
  exists w1 w2,
    register_all l
      (world_of (policy.NewProposerPolicyByIdAndSortFunc Validator
                   ValidatorSet id by0) s) = Ok (tt, w1) /\
    policy.Use SortValidators f w1 = Ok (tt, w2) /\
    policy.registry (policy.pol w2) = l /\
    policy.By (policy.pol w2) = f /\
    policy.Id (policy.pol w2) = id /\
    policy.sort_calls (policy.events w2) = l /\
    policy.sets w2 =
      fold_left (fun st vs => SortValidators vs (policy.pol w2) st) l s.
Proof.
  destruct (register_all_on_free_mutex l
              (world_of (policy.NewProposerPolicyByIdAndSortFunc Validator
                           ValidatorSet id by0) s) eq_refl)
    as (w1 & R & P & S & E).
  exists w1. simpl in P, S, E.
  unfold policy.Use, bindM, policy.set_By, policy.get_registry.
  simpl. rewrite for_range_SortValidators. simpl.
  eexists. split; [exact R |]. split; [reflexivity |]. simpl.
  rewrite P, S. simpl.
  split; [reflexivity |]. split; [reflexivity |]. split; [reflexivity |].
  split; [| reflexivity].
  rewrite !sort_calls_app, E. simpl. apply sort_calls_map.
Qed.

(** X14. A policy whose [registryMU] is nil, as the zero value of the
    struct has it, cannot be registered with: [RegisterValidatorSet] and
    [ClearRegistry] panic on the nil mutex before they touch the registry,
    while [Use], which never looks at the mutex, still returns with the
    sort function replaced. *)
Theorem X14_nil_mutex_panics
    (id : policy.ProposerPolicyId)
    (by0 f : policy.ValidatorSortByFunc Validator)
    (reg : list ValidatorSet) (valSet : ValidatorSet) (s : Sets)
    (log : list (policy.Event ValidatorSet)) :
  let w := policy.Build_World (policy.Build_ProposerPolicy id by0 reg None)
             s log in
  policy.RegisterValidatorSet valSet w = Err (Panics nil_dereference) /\
  policy.ClearRegistry w = Err (Panics nil_dereference) /\
  exists w', policy.Use SortValidators f w = Ok (tt, w') /\
             policy.By (policy.pol w') = f /\
             policy.registry (policy.pol w') = reg /\
             policy.registryMU (policy.pol w') = None.
Proof.
  intros w. split; [reflexivity | split; [reflexivity |]].
  unfold policy.Use, bindM, policy.set_By, policy.get_registry.
  simpl. rewrite for_range_SortValidators. simpl.
  eexists. split; [reflexivity |]. simpl. repeat split.
Qed.

End RegistryProperties.

Lemma X11_RegisterValidatorSet_appends_witness :
  exists w',
    register_all [2%nat; 0%nat; 2%nat] example_world = Ok (tt, w') /\
    policy.registry (policy.pol w') = [0; 2; 2; 0; 2]%nat.
Proof.
  destruct (X11_RegisterValidatorSet_appends (Sets := list (list nat))
              [2%nat; 0%nat; 2%nat] example_world eq_refl)
    as (w' & R & Hreg & _).
  exists w'. split; [exact R | exact Hreg].
Defined.

Lemma X12_ClearRegistry_empties_witness :
  exists w1,
    policy.ClearRegistry example_world = Ok (tt, w1) /\
    policy.registry (policy.pol w1) = [] /\
    exists w2, policy.Use slots_SortValidators Nat.ltb w1 = Ok (tt, w2) /\
               policy.sets w2 = example_store.
Proof.
  destruct (X12_ClearRegistry_empties slots_SortValidators Nat.ltb 0%nat
              example_world eq_refl)
    as (w1 & C & Hreg & _ & _ & (w2 & U & Hs & _) & _).
  exists w1. split; [exact C |]. split; [exact Hreg |].
  exists w2. split; [exact U | exact Hs].
Defined.

Lemma X13_register_then_Use_witness :
  exists w1 w2,
    register_all [1%nat; 2%nat]
      (world_of (NewRoundRobinProposerPolicy (V := common.Address) nat) tt)
      = Ok (tt, w1) /\
    policy.Use (fun _ _ (s : unit) => s) ValidatorSortByByte w1 = Ok (tt, w2) /\
    policy.registry (policy.pol w2) = [1%nat; 2%nat] /\
    policy.Id (policy.pol w2) = policy.RoundRobin.
Proof.
  destruct (X13_register_then_Use (fun _ _ (s : unit) => s) policy.RoundRobin
              ValidatorSortByString ValidatorSortByByte [1%nat; 2%nat] tt)
    as (w1 & w2 & R & U & Hreg & _ & Hid & _).
  exists w1, w2. repeat split; assumption.
Defined.

(** ** More on the wire encoding *)

Section CodecFacts.

Context {T : Type}.
Variable valid : T -> Prop.
Variable enc : T -> result rlp.error (list byte).
Variable dec : rlp.Stream -> result rlp.error (T * rlp.Stream).
Hypothesis codec : exact_codec valid enc dec.


End CodecFacts.

Section EnvelopeFacts.

Context {Block : Type}.
Variable Block_EncodeRLP : Block -> result rlp.error (list byte).
Variable Block_DecodeRLP : rlp.Stream -> result rlp.error (Block * rlp.Stream).
Hypothesis Block_codec :
  exact_codec (fun _ : Block => True) Block_EncodeRLP Block_DecodeRLP.


End EnvelopeFacts.


(** *** Views that are not valid *)




(** *** Envelopes without a view *)


Section NilView.

Context {Block : Type}.
Variable Block_EncodeRLP : Block -> result rlp.error (list byte).
Variable Block_DecodeRLP : rlp.Stream -> result rlp.error (Block * rlp.Stream).


End NilView.

